(** * Scanner-instagram: extraction, normalisation, aggregation and diff

    A shallow embedding of the pure core of the repository:

    - [src/lib/instagramExport.ts]      (normalizer, entry extractor,
                                         structured-data parser, [uniqueSorted]);
    - [src/lib/instagramExportHtml.ts]  (markup parser);
    - [src/App.tsx]                     ([notFollowingBack], [handleFiles]).

    JavaScript strings are sequences of UTF-16 code units.  This development
    covers the code units below 256 (the ISO-8859-1 range), carried by
    [ascii]; [toLowerCase], [trim] and the regular-expression class [\s] are
    the restrictions of the ECMAScript operations to that range.

    What the platform supplies and the repository does not define is kept
    abstract: the collation behind [localeCompare] (class [Collator]), the
    decoder [JSON.parse] and the optional [DOMParser] capability (section
    variables). *)

From Stdlib Require Import List Ascii Strings.Byte Bool Arith Lia.
From Stdlib Require Import Permutation Sorted QArith.QArith_base.
From Stdlib Require String Numbers.DecimalString.
Import ListNotations.
Close Scope Q_scope.

Set Implicit Arguments.

(* ================================================================== *)
(** * JavaScript strings *)
(* ================================================================== *)

Definition jsstring := list ascii.

Inductive JsLit : Set :=
| JsLitNil
| JsLitCons (c : ascii) (s : JsLit).

Fixpoint lit_of_bytes (l : list Byte.byte) : JsLit :=
  match l with
  | [] => JsLitNil
  | b :: l' => JsLitCons (ascii_of_byte b) (lit_of_bytes l')
  end.

Fixpoint bytes_of_lit (s : JsLit) : list Byte.byte :=
  match s with
  | JsLitNil => []
  | JsLitCons c s' => byte_of_ascii c :: bytes_of_lit s'
  end.

Declare Scope js_scope.
Delimit Scope js_scope with js.
#[warnings="-via-type-remapping,-via-type-mismatch"]
String Notation jsstring lit_of_bytes bytes_of_lit
  (via JsLit mapping [ [nil] => JsLitNil, [cons] => JsLitCons ]) : js_scope.
Open Scope js_scope.
Open Scope list_scope.

(** The double quote U+0022 and the accented letters of the messages, as
    code units. *)
Definition dquote : ascii := "034"%char.
Definition a_acute : ascii := "225"%char.
Definition i_acute : ascii := "237"%char.
Definition o_acute : ascii := "243"%char.
Definition u_acute : ascii := "250"%char.

Definition jsstring_eqb (a b : jsstring) : bool :=
  if list_eq_dec ascii_dec a b then true else false.

(** Truthiness of a string: every string but the empty one. *)
Definition truthy (s : jsstring) : bool :=
  match s with
  | [] => false
  | _ :: _ => true
  end.

Definition code (c : ascii) : nat := nat_of_ascii c.

Definition between (lo hi : nat) (c : ascii) : bool :=
  (lo <=? code c) && (code c <=? hi).

(** ECMAScript WhiteSpace and LineTerminator code units below 256:
    TAB, LF, VT, FF, CR, SP and NBSP.  This is the set removed by [trim] and
    matched by [\s]. *)
Definition isWhiteSpace (c : ascii) : bool :=
  between 9 13 c || (code c =? 32) || (code c =? 160).

(** [toLowerCase] on one code unit: A-Z, and the Latin-1 capitals
    U+00C0..U+00DE except the multiplication sign U+00D7. *)
Definition toLowerUnit (c : ascii) : ascii :=
  if between 65 90 c then ascii_of_nat (code c + 32)
  else if between 192 222 c && negb (code c =? 215) then ascii_of_nat (code c + 32)
  else c.

Definition String_toLowerCase (s : jsstring) : jsstring := map toLowerUnit s.

Fixpoint String_trimStart (s : jsstring) : jsstring :=
  match s with
  | [] => []
  | c :: t => if isWhiteSpace c then String_trimStart t else s
  end.

Definition String_trimEnd (s : jsstring) : jsstring :=
  rev (String_trimStart (rev s)).

Definition String_trim (s : jsstring) : jsstring :=
  String_trimEnd (String_trimStart s).

Fixpoint String_startsWith (s p : jsstring) : bool :=
  match p, s with
  | [], _ => true
  | _ :: _, [] => false
  | a :: p', b :: s' => Ascii.eqb b a && String_startsWith s' p'
  end.

Definition String_endsWith (s p : jsstring) : bool :=
  String_startsWith (rev s) (rev p).

Fixpoint String_includes (s p : jsstring) : bool :=
  String_startsWith s p
  || match s with
     | [] => false
     | _ :: t => String_includes t p
     end.

(* ================================================================== *)
(** * Regular expressions

    The fragment of ECMAScript patterns the sources use, with the
    backtracking semantics of the language specification: a matcher takes
    the current state and a continuation, and a quantifier is greedy. *)
(* ================================================================== *)

Inductive regex : Type :=
| Eps
| Chr (c : ascii)                                (* a literal code unit *)
| Cls (p : ascii -> bool)                        (* a character class *)
| Cat (r1 r2 : regex)
| Rep (r : regex) (min : nat) (max : option nat) (* r{min,max}, greedy *)
| Grp (r : regex)                                (* capturing group 1 *)
| Bol                                            (* ^ *)
| Eol.                                           (* $ *)

Definition Lit (s : jsstring) : regex :=
  fold_right (fun c r => Cat (Chr c) r) Eps s.

Definition Opt (r : regex) : regex := Rep r 0 (Some 1).
Definition Star (r : regex) : regex := Rep r 0 None.

(** Matcher state: the index reached, the input from there on, and the
    text of capture group 1 when it has matched. *)
Record mstate : Type := MState {
  pos : nat;
  rest : jsstring;
  cap1 : option jsstring
}.

Definition cont : Type := mstate -> option mstate.

Definition step (x : mstate) (t : jsstring) : mstate :=
  {| pos := S (pos x); rest := t; cap1 := cap1 x |}.

(** RepeatMatcher: [max] counts the iterations still allowed.  An iteration
    that matches the empty string once [min] has reached zero fails. *)
Fixpoint repeatMatcher (mr : mstate -> cont -> option mstate)
    (max min : nat) (x : mstate) (k : cont) {struct max} : option mstate :=
  match max with
  | 0 => k x
  | S max' =>
      let d : cont := fun y =>
        if (min =? 0) && (pos y =? pos x) then None
        else repeatMatcher mr max' (Nat.pred min) y k in
      match min with
      | S _ => mr x d
      | 0 => match mr x d with
             | Some z => Some z
             | None => k x
             end
      end
  end.

(** For an unbounded quantifier every iteration past the first [min] ones
    consumes at least one code unit, so [min + length (rest x)] iterations
    are all that can succeed. *)
Fixpoint matcher (r : regex) (x : mstate) (k : cont) {struct r} : option mstate :=
  match r with
  | Eps => k x
  | Chr c =>
      match rest x with
      | a :: t => if Ascii.eqb a c then k (step x t) else None
      | [] => None
      end
  | Cls p =>
      match rest x with
      | a :: t => if p a then k (step x t) else None
      | [] => None
      end
  | Cat r1 r2 => matcher r1 x (fun y => matcher r2 y k)
  | Rep r' min max =>
      let bound := match max with
                   | Some n => n
                   | None => min + length (rest x)
                   end in
      repeatMatcher (matcher r') bound min x k
  | Grp r' =>
      matcher r' x (fun y =>
        k {| pos := pos y; rest := rest y;
             cap1 := Some (firstn (pos y - pos x) (rest x)) |})
  | Bol => if pos x =? 0 then k x else None
  | Eol => match rest x with
           | [] => k x
           | _ :: _ => None
           end
  end.

Definition matchAt (r : regex) (p : nat) (l : jsstring) : option mstate :=
  matcher r {| pos := p; rest := l; cap1 := None |} Some.

(** RegExpBuiltinExec without the [g] flag: the leftmost start index, from
    [p] on, at which the pattern matches; the result is that index and the
    end state. *)
Fixpoint searchFrom (r : regex) (p : nat) (l : jsstring) : option (nat * mstate) :=
  match matchAt r p l with
  | Some y => Some (p, y)
  | None =>
      match l with
      | [] => None
      | _ :: t => searchFrom r (S p) t
      end
  end.

Definition RegExp_exec (r : regex) (s : jsstring) : option (nat * mstate) :=
  searchFrom r 0 s.

Definition RegExp_test (r : regex) (s : jsstring) : bool :=
  match RegExp_exec r s with
  | Some _ => true
  | None => false
  end.

(** [s.match(r)?.[1]] for a pattern without the [g] flag. *)
Definition String_match1 (s : jsstring) (r : regex) : option jsstring :=
  match RegExp_exec r s with
  | Some (_, y) => cap1 y
  | None => None
  end.

(** [s.replace(r, by)] for a pattern without the [g] flag and a replacement
    without [$]: the first match is replaced. *)
Definition String_replace (s : jsstring) (r : regex) (by_ : jsstring) : jsstring :=
  match RegExp_exec r s with
  | Some (i, y) => firstn i s ++ by_ ++ rest y
  | None => s
  end.

(** [s.matchAll(r)] for a pattern with the [g] flag, as the list of end
    states of the successive matches.  [lastIndex] is carried as [skip], the
    number of code units still to pass before the next attempt; after an
    empty match the index advances by one. *)
Fixpoint matchAllFrom (r : regex) (skip p : nat) (l : jsstring) : list mstate :=
  match skip with
  | S skip' =>
      match l with
      | [] => []
      | _ :: t => matchAllFrom r skip' (S p) t
      end
  | 0 =>
      match matchAt r p l with
      | Some y =>
          y :: match l with
               | [] => []
               | _ :: t => matchAllFrom r (Nat.pred (pos y - p)) (S p) t
               end
      | None =>
          match l with
          | [] => []
          | _ :: t => matchAllFrom r 0 (S p) t
          end
      end
  end.

Definition String_matchAll (s : jsstring) (r : regex) : list mstate :=
  matchAllFrom r 0 0 s.

(* ================================================================== *)
(** * instagramExport.ts: the normalizer *)
(* ================================================================== *)

Inductive InstagramRelationshipKind : Type :=
| kFollowers
| kFollowing
| kUnknown.

Record InstagramExportParseResult : Type := ParseResult {
  kind : InstagramRelationshipKind;
  usernames : list jsstring;
  warnings : list jsstring
}.

(** [/^@/] *)
Definition leadingAtRe : regex := Cat Bol (Chr "@").

(** [username.trim().replace(/^@/, '').toLowerCase()] *)
Definition normalizeUsername (username : jsstring) : jsstring :=
  String_toLowerCase (String_replace (String_trim username) leadingAtRe "").

(* ================================================================== *)
(** * Exceptions

    A computation either returns or throws.  No [catch] in the sources
    binds or inspects the exception, so [Throw] carries none. *)
(* ================================================================== *)

Inductive outcome (A : Type) : Type :=
| Return (a : A)
| Throw.

Arguments Return {A} a.
Arguments Throw {A}.

Definition bind {A B : Type} (c : outcome A) (k : A -> outcome B) : outcome B :=
  match c with
  | Return a => k a
  | Throw => Throw
  end.

Notation "x <- c ;; k" := (bind c (fun x => k))
  (at level 61, c at next level, right associativity).

(** [l.map(f)] for a callback that may throw. *)
Fixpoint Array_map {A B : Type} (f : A -> outcome B) (l : list A) : outcome (list B) :=
  match l with
  | [] => Return []
  | a :: t =>
      b <- f a ;;
      bs <- Array_map f t ;;
      Return (b :: bs)
  end.

(* ================================================================== *)
(** * Decoded structured data *)
(* ================================================================== *)

(** What [JSON.parse] returns.  The fields of an object are listed in the
    order [Object.entries] enumerates them. *)
#[warnings="-register-all"] Inductive JsonValue : Type :=
| JNull
| JBool (b : bool)
| JNumber (n : Q)
| JString (s : jsstring)
| JArray (items : list JsonValue)
| JObject (fields : list (jsstring * JsonValue)).

(** [typeof value === 'object' && value !== null] *)
Definition isRecord (value : JsonValue) : bool :=
  match value with
  | JArray _ | JObject _ => true
  | _ => false
  end.

(** [typeof value === 'string' ? value : null]; [None] on the left is
    [undefined]. *)
Definition toStringOrNull (value : option JsonValue) : option jsstring :=
  match value with
  | Some (JString s) => Some s
  | _ => None
  end.

Definition Array_isArray (value : option JsonValue) : option (list JsonValue) :=
  match value with
  | Some (JArray items) => Some items
  | _ => None
  end.

Fixpoint lookup (key : jsstring) (fields : list (jsstring * JsonValue)) : option JsonValue :=
  match fields with
  | [] => None
  | (k, v) :: t => if jsstring_eqb k key then Some v else lookup key t
  end.

(** [value[key]], for the keys the sources read: [relationships_followers],
    [relationships_following], [string_list_data], [title], [value] and
    [href].  Reading a property of [null] throws a TypeError.  None of
    these keys is an index, [length] or a name found on a prototype, so an
    array and a primitive have none of them; the result [None] is
    [undefined]. *)
Definition getProp (value : JsonValue) (key : jsstring) : outcome (option JsonValue) :=
  match value with
  | JNull => Throw
  | JObject fields => Return (lookup key fields)
  | _ => Return None
  end.

(** The key of index [i] of an array: its decimal numeral. *)
Definition indexKey (i : nat) : jsstring :=
  String.list_ascii_of_string (DecimalString.NilZero.string_of_uint (Nat.to_uint i)).

(** [Object.entries(value)] on a record. *)
Definition Object_entries (value : JsonValue) : list (jsstring * JsonValue) :=
  match value with
  | JObject fields => fields
  | JArray items => combine (map indexKey (seq 0 (length items))) items
  | _ => []
  end.

(** A value used as a condition or passed to [Boolean]: [null], [undefined]
    and the empty string are dropped. *)
Definition ifTruthy (o : option jsstring) : option jsstring :=
  match o with
  | Some s => if truthy s then Some s else None
  | None => None
  end.

(** [.filter((u): u is string => Boolean(u))] *)
Fixpoint Array_filterBoolean (l : list (option jsstring)) : list jsstring :=
  match l with
  | [] => []
  | o :: t =>
      match ifTruthy o with
      | Some s => s :: Array_filterBoolean t
      | None => Array_filterBoolean t
      end
  end.

(* ================================================================== *)
(** * instagramExport.ts: the entry extractor *)
(* ================================================================== *)

Definition Seq (rs : list regex) : regex := fold_right Cat Eps rs.

(** [[a-zA-Z0-9._]] *)
Definition isUsernameChar (c : ascii) : bool :=
  between 97 122 c || between 65 90 c || between 48 57 c
  || Ascii.eqb c "." || Ascii.eqb c "_".

(** [([a-zA-Z0-9._]{1,30})] *)
Definition usernameGroup : regex := Grp (Rep (Cls isUsernameChar) 1 (Some 30)).

(** [/instagram\.com\/_u\/([a-zA-Z0-9._]{1,30})\/?/] *)
Definition hrefURe : regex :=
  Seq [Lit "instagram.com/_u/"; usernameGroup; Opt (Chr "/")].

(** [/instagram\.com\/([a-zA-Z0-9._]{1,30})\/?/] *)
Definition hrefRe : regex :=
  Seq [Lit "instagram.com/"; usernameGroup; Opt (Chr "/")].

Definition extractUsernameFromHref (href : jsstring) : option jsstring :=
  match ifTruthy (String_match1 href hrefURe) with
  | Some u => Some u
  | None =>
      match ifTruthy (String_match1 href hrefRe) with
      | Some u => Some u
      | None => None
      end
  end.

(** The first loop over [string_list_data]; [Return None] when it runs to
    its end. *)
Fixpoint valueLoop (sld : list JsonValue) : outcome (option jsstring) :=
  match sld with
  | [] => Return None
  | item :: t =>
      if negb (isRecord item) then valueLoop t
      else
        v <- getProp item "value" ;;
        match ifTruthy (toStringOrNull v) with
        | Some value => Return (Some value)
        | None => valueLoop t
        end
  end.

(** The second loop over [string_list_data]. *)
Fixpoint hrefLoop (sld : list JsonValue) : outcome (option jsstring) :=
  match sld with
  | [] => Return None
  | item :: t =>
      if negb (isRecord item) then hrefLoop t
      else
        h <- getProp item "href" ;;
        match ifTruthy (toStringOrNull h) with
        | None => hrefLoop t
        | Some href =>
            match ifTruthy (extractUsernameFromHref href) with
            | Some fromHref => Return (Some fromHref)
            | None => hrefLoop t
            end
        end
  end.

Definition extractUsernameFromRelationshipEntry (entry : JsonValue)
    : outcome (option jsstring) :=
  if negb (isRecord entry) then Return None
  else
    sld <- getProp entry "string_list_data" ;;
    match Array_isArray sld with
    | None => Return None
    | Some sld =>
        fromValue <- valueLoop sld ;;
        match fromValue with
        | Some value => Return (Some value)
        | None =>
            title <- getProp entry "title" ;;
            match ifTruthy (toStringOrNull title) with
            | Some title => Return (Some title)
            | None => hrefLoop sld
            end
        end
    end.

(* ================================================================== *)
(** * Sets, sorting and [uniqueSorted] *)
(* ================================================================== *)

(** The collation behind [a.localeCompare(b)], with the laws of a
    consistent comparator: the sign flips when the arguments are swapped,
    and "not after" is transitive. *)
Class Collator : Type := {
  localeCompare : jsstring -> jsstring -> comparison;
  localeCompare_opp : forall a b, localeCompare b a = CompOpp (localeCompare a b);
  localeCompare_trans : forall a b c,
    localeCompare a b <> Gt -> localeCompare b c <> Gt -> localeCompare a c <> Gt
}.

(** A [Set<string>]: its elements in insertion order. *)
Definition JSSet : Type := list jsstring.

Definition Set_has (s : JSSet) (v : jsstring) : bool := existsb (jsstring_eqb v) s.

Definition Set_add (s : JSSet) (v : jsstring) : JSSet :=
  if Set_has s v then s else s ++ [v].

(** [new Set(iterable)] *)
Definition Set_new (l : list jsstring) : JSSet := fold_left Set_add l [].

Definition Array_from (s : JSSet) : list jsstring := s.

(** [Array.prototype.sort] with a consistent comparator is a stable sort,
    and every stable sort returns the same array; it is modelled by
    insertion from the right. *)
Fixpoint insertSorted (cmp : jsstring -> jsstring -> comparison)
    (x : jsstring) (l : list jsstring) : list jsstring :=
  match l with
  | [] => [x]
  | y :: t =>
      match cmp x y with
      | Gt => y :: insertSorted cmp x t
      | _ => x :: l
      end
  end.

Definition Array_sort (cmp : jsstring -> jsstring -> comparison)
    (l : list jsstring) : list jsstring :=
  fold_right (insertSorted cmp) [] l.

Section Core.

Context {collator : Collator}.

(** [uniqueSorted], defined alike in [instagramExport.ts] and in
    [instagramExportHtml.ts]: the non-empty normalized usernames are added
    to a [Set], whose elements are then sorted with [localeCompare]. *)
Definition uniqueSorted (usernames : list jsstring) : list jsstring :=
  let set :=
    fold_left (fun (set : JSSet) u =>
                 let nu := normalizeUsername u in
                 if truthy nu then Set_add set nu else set)
              usernames [] in
  Array_sort (fun a b => localeCompare a b) (Array_from set).

(* ================================================================== *)
(** * instagramExport.ts: the structured-data parser *)
(* ================================================================== *)

(** [entries.map(extractUsernameFromRelationshipEntry).filter(Boolean)] *)
Definition extractUsernames (entries : list JsonValue) : outcome (list jsstring) :=
  extracted <- Array_map extractUsernameFromRelationshipEntry entries ;;
  Return (Array_filterBoolean extracted).

Definition msgNoFollowers : jsstring :=
  "Se detect" ++ o_acute :: " followers, pero no se pudieron extraer usernames.".
Definition msgNoFollowing : jsstring :=
  "Se detect" ++ o_acute :: " following, pero no se pudieron extraer usernames.".
Definition msgNonStandard (key : jsstring) : jsstring :=
  "Formato no est" ++ a_acute :: "ndar: se extrajo desde " ++ dquote :: key ++ dquote :: ".".
Definition msgArrayEmpty : jsstring :=
  "El JSON es un array, pero no se pudieron extraer usernames.".
Definition msgUnrecognized : jsstring :=
  "Formato de JSON no reconocido para seguidores/seguidos.".

(** The loop over [Object.entries(json)]; [Return None] when it runs to its
    end without returning from the function. *)
Fixpoint entriesLoop (warnings : list jsstring) (entries : list (jsstring * JsonValue))
    : outcome (option InstagramExportParseResult) :=
  match entries with
  | [] => Return None
  | (key, value) :: t =>
      if negb (String_startsWith key "relationships_") then entriesLoop warnings t
      else
        match Array_isArray (Some value) with
        | None => entriesLoop warnings t
        | Some items =>
            usernames <- extractUsernames items ;;
            if 0 <? length usernames then
              Return (Some {| kind := kUnknown;
                              usernames := uniqueSorted usernames;
                              warnings := warnings ++ [msgNonStandard key] |})
            else entriesLoop warnings t
        end
  end.

(** The block under [if (isRecord(json))]; [Return None] when control
    leaves it without returning from the function. *)
Definition recordBranch (warnings : list jsstring) (json : JsonValue)
    : outcome (option InstagramExportParseResult) :=
  followers <- getProp json "relationships_followers" ;;
  match Array_isArray followers with
  | Some followers =>
      usernames <- extractUsernames followers ;;
      let warnings := if length usernames =? 0 then warnings ++ [msgNoFollowers] else warnings in
      Return (Some {| kind := kFollowers; usernames := uniqueSorted usernames;
                      warnings := warnings |})
  | None =>
      following <- getProp json "relationships_following" ;;
      match Array_isArray following with
      | Some following =>
          usernames <- extractUsernames following ;;
          let warnings := if length usernames =? 0 then warnings ++ [msgNoFollowing] else warnings in
          Return (Some {| kind := kFollowing; usernames := uniqueSorted usernames;
                          warnings := warnings |})
      | None => entriesLoop warnings (Object_entries json)
      end
  end.

Definition parseInstagramRelationshipJson (json : JsonValue)
    : outcome InstagramExportParseResult :=
  let warnings : list jsstring := [] in
  returned <- (if isRecord json then recordBranch warnings json else Return None) ;;
  match returned with
  | Some result => Return result
  | None =>
      match Array_isArray (Some json) with
      | Some items =>
          usernames <- extractUsernames items ;;
          let warnings := if length usernames =? 0 then warnings ++ [msgArrayEmpty] else warnings in
          Return {| kind := kUnknown; usernames := uniqueSorted usernames;
                    warnings := warnings |}
      | None =>
          Return {| kind := kUnknown; usernames := [];
                    warnings := warnings ++ [msgUnrecognized] |}
      end
  end.

(* ================================================================== *)
(** * instagramExportHtml.ts: the markup parser *)
(* ================================================================== *)

(** An anchor element as the parser reads it: [a.getAttribute('href')] and
    [a.textContent], each possibly [null]. *)
Record Anchor : Type := MkAnchor {
  getAttribute_href : option jsstring;
  textContent : option jsstring
}.

(** The optional capability [DOMParser]: [None] when [typeof DOMParser] is
    ['undefined']; otherwise the anchors
    [Array.from(new DOMParser().parseFromString(htmlText, 'text/html').querySelectorAll('a'))],
    or [Throw] when obtaining them throws. *)
Variable DOMParser : option (jsstring -> outcome (list Anchor)).

(** [/https?:\/\/(?:www\.)?instagram\.com\/([a-zA-Z0-9._]{1,30})\/?/g] *)
Definition urlRe : regex :=
  Seq [Lit "http"; Opt (Chr "s"); Lit "://"; Opt (Lit "www.");
       Lit "instagram.com/"; usernameGroup; Opt (Chr "/")].

(** [/@([a-zA-Z0-9._]{1,30})/g] *)
Definition atRe : regex := Seq [Chr "@"; usernameGroup].

(** [/QvalueQ\s*:\s*Q([^Q]{1,64})Q/g], where Q stands for the double
    quote U+0022. *)
Definition valueRe : regex :=
  Seq [Chr dquote; Lit "value"; Chr dquote; Star (Cls isWhiteSpace); Chr ":";
       Star (Cls isWhiteSpace); Chr dquote;
       Grp (Rep (Cls (fun c => negb (Ascii.eqb c dquote))) 1 (Some 64));
       Chr dquote].

(** [/@?([a-zA-Z0-9._]{1,30})/] *)
Definition anchorTextRe : regex := Seq [Opt (Chr "@"); usernameGroup].

(** [/^[a-zA-Z0-9._]{1,30}$/] *)
Definition plausibleRe : regex :=
  Seq [Bol; Rep (Cls isUsernameChar) 1 (Some 30); Eol].

(** [for (const match of htmlText.matchAll(re)) if (match[1]) candidates.push(match[1])] *)
Definition pushMatches (candidates : list jsstring) (htmlText : jsstring) (re : regex)
    : list jsstring :=
  candidates ++ Array_filterBoolean (map cap1 (String_matchAll htmlText re)).

Definition orEmpty (o : option jsstring) : jsstring :=
  match o with
  | Some s => s
  | None => ""
  end.

(** The body of the loop over the anchors. *)
Definition pushAnchor (candidates : list jsstring) (a : Anchor) : list jsstring :=
  let href := orEmpty (getAttribute_href a) in
  let text := orEmpty (textContent a) in
  let candidates :=
    match ifTruthy (String_match1 href hrefRe) with
    | Some u => candidates ++ [u]
    | None => candidates
    end in
  match ifTruthy (String_match1 text anchorTextRe) with
  | Some u => candidates ++ [u]
  | None => candidates
  end.

Definition msgHtmlImported : jsstring :=
  "Se import" ++ o_acute :: " un archivo HTML (export de Instagram en formato HTML).".
Definition msgHtmlEmpty : jsstring :=
  "No se pudieron extraer usernames desde el HTML. Si Instagram te deja elegir formato, prueba con JSON.".

(** The candidates collected by the three pattern passes and the anchor
    pass; the [catch] around the anchor pass swallows a throw. *)
Definition htmlCandidates (htmlText : jsstring) : list jsstring :=
  let candidates : list jsstring := [] in
  let candidates := pushMatches candidates htmlText urlRe in
  let candidates := pushMatches candidates htmlText atRe in
  let candidates := pushMatches candidates htmlText valueRe in
  match DOMParser with
  | None => candidates
  | Some parseAnchors =>
      match parseAnchors htmlText with
      | Throw => candidates
      | Return anchors => fold_left pushAnchor anchors candidates
      end
  end.

Definition parseInstagramRelationshipHtml (htmlText : jsstring) : InstagramExportParseResult :=
  let warnings := [msgHtmlImported] in
  let candidates := htmlCandidates htmlText in
  let plausible := filter (RegExp_test plausibleRe) candidates in
  let usernames := uniqueSorted plausible in
  let warnings := if length usernames =? 0 then warnings ++ [msgHtmlEmpty] else warnings in
  {| kind := kUnknown; usernames := usernames; warnings := warnings |}.

(* ================================================================== *)
(** * App.tsx: the diff and the aggregator *)
(* ================================================================== *)

(** The [useMemo] computing [notFollowingBack]. *)
Definition notFollowingBack (followers following : option (list jsstring))
    : option (list jsstring) :=
  match followers, following with
  | Some followers, Some following =>
      let followersSet := Set_new followers in
      Some (filter (fun u => negb (Set_has followersSet u)) following)
  | _, _ => None
  end.

(** [JSON.parse], which throws a SyntaxError on text that is not JSON. *)
Variable JSON_parse : jsstring -> outcome JsonValue.

(** A [File]: its name and what [await file.text()] gives, [Throw] when the
    read is rejected. *)
Record File : Type := MkFile {
  name : jsstring;
  text : outcome jsstring
}.

(** The component state the aggregator writes. *)
Record AppState : Type := MkState {
  st_followers : option (list jsstring);
  st_following : option (list jsstring);
  st_warnings : list jsstring;
  st_error : option jsstring
}.

Definition setFollowers (v : option (list jsstring)) (st : AppState) : AppState :=
  {| st_followers := v; st_following := st_following st;
     st_warnings := st_warnings st; st_error := st_error st |}.
Definition setFollowing (v : option (list jsstring)) (st : AppState) : AppState :=
  {| st_followers := st_followers st; st_following := v;
     st_warnings := st_warnings st; st_error := st_error st |}.
Definition setWarnings (v : list jsstring) (st : AppState) : AppState :=
  {| st_followers := st_followers st; st_following := st_following st;
     st_warnings := v; st_error := st_error st |}.
Definition setError (v : option jsstring) (st : AppState) : AppState :=
  {| st_followers := st_followers st; st_following := st_following st;
     st_warnings := st_warnings st; st_error := v |}.

(** The type ['followers' | 'following'] of [expected]. *)
Inductive Expected : Type :=
| expectFollowers
| expectFollowing.

Definition kindOfExpected (e : Expected) : InstagramRelationshipKind :=
  match e with
  | expectFollowers => kFollowers
  | expectFollowing => kFollowing
  end.

Definition kindText (k : InstagramRelationshipKind) : jsstring :=
  match k with
  | kFollowers => "followers"
  | kFollowing => "following"
  | kUnknown => "unknown"
  end.

Definition kind_eqb (a b : InstagramRelationshipKind) : bool :=
  match a, b with
  | kFollowers, kFollowers | kFollowing, kFollowing | kUnknown, kUnknown => true
  | _, _ => false
  end.

(** [/^\s*</] *)
Definition looksLikeHtmlRe : regex := Seq [Bol; Star (Cls isWhiteSpace); Chr "<"].

Definition quoted (s : jsstring) : jsstring := dquote :: s ++ [dquote].

(** [`"${file.name}": ${w}`] *)
Definition msgFile (fileName w : jsstring) : jsstring := quoted fileName ++ ": " ++ w.
Definition msgHintFollowing (fileName : jsstring) : jsstring :=
  quoted fileName ++ ": el nombre sugiere " ++ quoted "following"
    ++ " pero lo cargaste como seguidores.".
Definition msgHintFollowers (fileName : jsstring) : jsstring :=
  quoted fileName ++ ": el nombre sugiere " ++ quoted "followers"
    ++ " pero lo cargaste como seguidos.".
Definition msgNothingIn (fileName : jsstring) : jsstring :=
  "En " ++ quoted fileName ++ " no pude extraer usernames.".
Definition msgKindMismatch (fileName : jsstring) (k : InstagramRelationshipKind)
    (expected : Expected) : jsstring :=
  "El archivo " ++ quoted fileName ++ " parece ser " ++ quoted (kindText k)
    ++ " pero lo cargaste como " ++ quoted (kindText (kindOfExpected expected))
    ++ ". Aun as" ++ i_acute :: ", pude extraer usernames.".
Definition msgNotJson (fileName : jsstring) : jsstring :=
  quoted fileName ++ ": no pude parsearlo como JSON. Aseg" ++ u_acute
    :: "rate de subir el *.json original del ZIP.".
Definition msgNoUsernames : jsstring :=
  "No pude obtener usernames. Sube los archivos de la descarga de Instagram (JSON o HTML): followers_* y following.".

(** What the loop of [handleFiles] carries: [combined] and
    [combinedWarnings]. *)
Record Acc : Type := MkAcc {
  combined : JSSet;
  combinedWarnings : list jsstring
}.

Definition pushWarnings (acc : Acc) (ws : list jsstring) : Acc :=
  {| combined := combined acc; combinedWarnings := combinedWarnings acc ++ ws |}.

Definition addAll (acc : Acc) (us : list jsstring) : Acc :=
  {| combined := fold_left Set_add us (combined acc);
     combinedWarnings := combinedWarnings acc |}.

(** The branch of the loop body taken for a markup file. *)
Definition htmlBranch (expected : Expected) (fileName text : jsstring) (acc : Acc) : Acc :=
  let result := parseInstagramRelationshipHtml text in
  if length (usernames result) =? 0 then
    pushWarnings acc (map (msgFile fileName) (warnings result))
  else
    let lower := String_toLowerCase fileName in
    let acc :=
      match expected with
      | expectFollowers =>
          if String_includes lower "following"
          then pushWarnings acc [msgHintFollowing fileName] else acc
      | expectFollowing =>
          if String_includes lower "followers"
          then pushWarnings acc [msgHintFollowers fileName] else acc
      end in
    let acc := addAll acc (usernames result) in
    pushWarnings acc (map (msgFile fileName) (warnings result)).

(** The rest of the [try] block, for a structured-data file. *)
Definition jsonBranch (expected : Expected) (fileName text : jsstring) (acc : Acc)
    : outcome Acc :=
  json <- JSON_parse text ;;
  result <- parseInstagramRelationshipJson json ;;
  if length (usernames result) =? 0 then
    Return (pushWarnings acc [msgNothingIn fileName])
  else
    let acc :=
      if negb (kind_eqb (kind result) kUnknown)
         && negb (kind_eqb (kind result) (kindOfExpected expected))
      then pushWarnings acc [msgKindMismatch fileName (kind result) expected]
      else acc in
    let acc := addAll acc (usernames result) in
    Return (pushWarnings acc (map (msgFile fileName) (warnings result))).

(** The [try] block of the loop body.  Whatever can throw in it comes
    before the first write to [combined] or [combinedWarnings], so a throw
    leaves both as they were. *)
Definition tryBlock (expected : Expected) (acc : Acc) (file : File) : outcome Acc :=
  text <- text file ;;
  let looksLikeHtml := RegExp_test looksLikeHtmlRe text in
  let isHtmlByName :=
    String_endsWith (String_toLowerCase (name file)) ".html"
    || String_endsWith (String_toLowerCase (name file)) ".htm" in
  if looksLikeHtml || isHtmlByName
  then Return (htmlBranch expected (name file) text acc)
  else jsonBranch expected (name file) text acc.

(** One iteration of [for (const file of Array.from(files))]: the [try]
    block and its [catch]. *)
Definition processFile (expected : Expected) (acc : Acc) (file : File) : Acc :=
  match tryBlock expected acc file with
  | Return acc' => acc'
  | Throw => pushWarnings acc [msgNotJson (name file)]
  end.

Definition handleFiles (files : option (list File))
    (setList : option (list jsstring) -> AppState -> AppState)
    (expected : Expected) (st : AppState) : AppState :=
  let st := setError None st in
  let st := setWarnings [] st in
  match files with
  | None => setList None st
  | Some [] => setList None st
  | Some files =>
      let acc := fold_left (processFile expected) files
                   {| combined := []; combinedWarnings := [] |} in
      let usernames := Array_sort (fun a b => localeCompare a b) (Array_from (combined acc)) in
      if length usernames =? 0 then
        let st := setWarnings (combinedWarnings acc) st in
        let st := setError (Some msgNoUsernames) st in
        setList None st
      else
        let st := if 0 <? length (combinedWarnings acc)
                  then setWarnings (combinedWarnings acc) st else st in
        setList (Some usernames) st
  end.

End Core.

(* ================================================================== *)
(** * App.tsx: the rest of the component *)
(* ================================================================== *)

(** The type ['privacy' | 'terms'] of [LegalPage.tsx]. *)
Inductive LegalRoute : Type :=
| privacy
| terms.

Definition getLegalRouteFromHash (hash : jsstring) : option LegalRoute :=
  if String_startsWith hash "#/privacy" then Some privacy
  else if String_startsWith hash "#/terms" then Some terms
  else None.

(** [l.join(sep)] on an array of strings. *)
Fixpoint Array_join (l : list jsstring) (sep : jsstring) : jsstring :=
  match l with
  | [] => []
  | [a] => a
  | a :: t => a ++ sep ++ Array_join t sep
  end.

(** [copyList]: the text handed to [navigator.clipboard.writeText], or
    [None] when the function returns without writing. *)
Definition copyList (notFollowingBack : option (list jsstring)) : option jsstring :=
  match notFollowingBack with
  | None => None
  | Some l =>
      if length l =? 0 then None
      else Some (Array_join (map (fun u => "@" ++ u) l) ["010"%char])
  end.

Definition resetAll (st : AppState) : AppState :=
  setError None (setWarnings [] (setFollowing None (setFollowers None st))).

(** The [href] of the link "Abrir perfil":
    [`https://www.instagram.com/${u}/`]. *)
Definition profileHref (u : jsstring) : jsstring :=
  "https://www.instagram.com/" ++ u ++ "/".

(** The value of the [useMemo] in a state of the component. *)
Definition notFollowingBackIn (st : AppState) : option (list jsstring) :=
  notFollowingBack (st_followers st) (st_following st).

(* ================================================================== *)
(** * instagramExport.ts: its own copy of the markup parser *)
(* ================================================================== *)

Module InstagramExport.

Section Html.

Context {collator : Collator}.
Variable DOMParser : option (jsstring -> outcome (list Anchor)).

Definition msgHtmlEmpty : jsstring :=
  "No se pudieron extraer usernames desde el HTML. Intenta descargar en formato JSON si Instagram te da esa opci"
    ++ o_acute :: "n.".

(** The four passes are those of [instagramExportHtml.ts], character for
    character; the test before the second warning is on [plausible], not
    on the deduplicated list. *)
Definition parseInstagramRelationshipHtml (htmlText : jsstring) : InstagramExportParseResult :=
  let warnings := [msgHtmlImported] in
  let candidates := htmlCandidates DOMParser htmlText in
  let plausible := filter (RegExp_test plausibleRe) candidates in
  let warnings := if length plausible =? 0 then warnings ++ [msgHtmlEmpty] else warnings in
  {| kind := kUnknown; usernames := uniqueSorted plausible; warnings := warnings |}.

End Html.

End InstagramExport.

(* ================================================================== *)
(** * Vocabulary of the statements

    Predicates, closed forms and example values the lemmas and theorems
    below are stated with.  A definition whose name starts with [spec_]
    follows the words of the specification, not the source. *)
(* ================================================================== *)

(** [[a-z0-9._]] *)
Definition isLowerUsernameChar (c : ascii) : bool :=
  between 97 122 c || between 48 57 c || Ascii.eqb c "." || Ascii.eqb c "_".

(** Whether the first code unit of a string satisfies [p]. *)
Definition headIs (p : ascii -> bool) (s : jsstring) : bool :=
  match s with
  | [] => false
  | c :: _ => p c
  end.

Definition lastIs (p : ascii -> bool) (s : jsstring) : bool := headIs p (rev s).

Definition isAt (c : ascii) : bool := Ascii.eqb c "@".

(** The strings the normalizer leaves alone at their front: those that
    start with neither white space nor [@]. *)
Definition frontClean (s : jsstring) : bool :=
  negb (headIs isWhiteSpace s) && negb (headIs isAt s).

(** Comparison by code units.  It is a collator (see [codeUnitCollator]),
    not the collation of a locale; the closed examples are computed with
    it. *)
Fixpoint codeUnitCompare (a b : jsstring) : comparison :=
  match a, b with
  | [], [] => Eq
  | [], _ :: _ => Lt
  | _ :: _, [] => Gt
  | x :: a', y :: b' =>
      match Nat.compare (code x) (code y) with
      | Eq => codeUnitCompare a' b'
      | c => c
      end
  end.

(** The set [uniqueSorted] builds before it sorts. *)
Definition normalizedSet (usernames : list jsstring) (set : JSSet) : JSSet :=
  fold_left (fun (set : JSSet) u =>
               let nu := normalizeUsername u in
               if truthy nu then Set_add set nu else set)
            usernames set.

(** Whether [u] is absent from [l]. *)
Definition absentFrom (l : list jsstring) (u : jsstring) : bool :=
  if in_dec (list_eq_dec ascii_dec) u l then false else true.

(** The longest prefix of [l], of at most [n] code units, all in the class
    [p]. *)
Fixpoint run (p : ascii -> bool) (n : nat) (l : jsstring) : jsstring :=
  match n, l with
  | S n', c :: t => if p c then c :: run p n' t else []
  | _, _ => []
  end.

(** [[A-Za-z0-9._]{1,30}] *)
Definition isIdentifier (s : jsstring) : bool :=
  forallb isUsernameChar s && (1 <=? length s) && (length s <=? 30).

(** [[a-z0-9._]{1,30}] *)
Definition isLowerIdentifier (s : jsstring) : bool :=
  forallb isLowerUsernameChar s && (1 <=? length s) && (length s <=? 30).

(** The markup text of the example in section 8 of the specification. *)
Definition exampleMarkup : jsstring :=
  "Visit https://instagram.com/Dave/ and @erin and "
    ++ dquote :: "value" ++ dquote :: ":" ++ dquote :: "Frank" ++ [dquote].

(** The anchor pass adds nothing: the capability is absent, throws, or
    finds no anchor. *)
Definition noAnchors (DOMParser : option (jsstring -> outcome (list Anchor)))
    (htmlText : jsstring) : Prop :=
  match DOMParser with
  | None => True
  | Some parseAnchors =>
      parseAnchors htmlText = Throw \/ parseAnchors htmlText = Return []
  end.

(** The properties of one item of [string_list_data] the loops read. *)
Definition itemString (key : jsstring) (item : JsonValue) : option jsstring :=
  match item with
  | JObject fields => ifTruthy (toStringOrNull (lookup key fields))
  | _ => None
  end.

(** The first item of [sld] on which [f] succeeds. *)
Fixpoint firstSome {A : Type} (f : JsonValue -> option A) (sld : list JsonValue) : option A :=
  match sld with
  | [] => None
  | item :: t =>
      match f item with
      | Some a => Some a
      | None => firstSome f t
      end
  end.

Definition itemHref (item : JsonValue) : option jsstring :=
  match itemString "href" item with
  | Some href => extractUsernameFromHref href
  | None => None
  end.

(** What the extractor returns, rule by rule. *)
Definition extracted (entry : JsonValue) : option jsstring :=
  match entry with
  | JObject fields =>
      match Array_isArray (lookup "string_list_data" fields) with
      | None => None
      | Some sld =>
          match firstSome (itemString "value") sld with
          | Some value => Some value
          | None =>
              match ifTruthy (toStringOrNull (lookup "title" fields)) with
              | Some title => Some title
              | None => firstSome itemHref sld
              end
          end
      end
  | _ => None
  end.

(** The raw identifiers extracted from an array of entries. *)
Definition extractedUsernames (entries : list JsonValue) : list jsstring :=
  Array_filterBoolean (map extracted entries).

(** An entry [{"string_list_data":[{"value": v}]}]. *)
Definition valueEntry (v : jsstring) : JsonValue :=
  JObject [("string_list_data", JArray [JObject [("value", JString v)]])].

(** [{"relationships_followers":[{"string_list_data":[{"value":"Alice"}]}]}] *)
Definition exampleFollowers : JsonValue :=
  JObject [("relationships_followers", JArray [valueEntry "Alice"])].

(** Whether the loop over the entries returns at this field: its name
    starts with [relationships_], its value is an array, and at least one
    identifier is extracted from it. *)
Definition yieldsUsernames (field : jsstring * JsonValue) : bool :=
  String_startsWith (fst field) "relationships_"
  && match snd field with
     | JArray items => 0 <? length (extractedUsernames items)
     | _ => false
     end.

(** Following the spec's words (section 4.3, step 3): the fields of the object
    taken in lexical key order, here the order of their code units. *)
Fixpoint spec_insertField (field : jsstring * JsonValue)
    (fields : list (jsstring * JsonValue)) : list (jsstring * JsonValue) :=
  match fields with
  | [] => [field]
  | g :: t =>
      match codeUnitCompare (fst field) (fst g) with
      | Gt => g :: spec_insertField field t
      | _ => field :: fields
      end
  end.

Definition spec_lexicalFields (fields : list (jsstring * JsonValue))
    : list (jsstring * JsonValue) :=
  fold_right spec_insertField [] fields.

(** Following the spec's words: the field the scan picks, the first in
    lexical key order that yields an identifier. *)
Definition spec_pickedField (fields : list (jsstring * JsonValue))
    : option (jsstring * JsonValue) :=
  find yieldsUsernames (spec_lexicalFields fields).

(** [{"relationships_b":[...Alice...],"relationships_a":[...Bob...]}] *)
Definition exampleTwoFields : list (jsstring * JsonValue) :=
  [("relationships_b", JArray [valueEntry "Alice"]);
   ("relationships_a", JArray [valueEntry "Bob"])].

(** The state after an optional [/]. *)
Definition optSlash (y : mstate) : mstate :=
  match rest y with
  | c :: t => if Ascii.eqb c "/" then step y t else y
  | [] => y
  end.

(** The run of identifier characters that follows the leftmost occurrence
    of [lit] in [s] having one: at most 30 of them, and as many as there
    are up to 30. *)
Fixpoint segmentAfter (lit s : jsstring) : option jsstring :=
  match (if String_startsWith s lit
         then run isUsernameChar 30 (skipn (length lit) s) else []) with
  | a :: u => Some (a :: u)
  | [] =>
      match s with
      | [] => None
      | _ :: t => segmentAfter lit t
      end
  end.

(** Following the spec's words (section 4.2): the three rules in order, whatever
    the entry holds; an entry without a list of records has no record for
    the first and the third rule, and its title still counts. *)
Definition spec_extract (entry : JsonValue) : option jsstring :=
  let records :=
    match entry with
    | JObject fields =>
        match Array_isArray (lookup "string_list_data" fields) with
        | Some sld => sld
        | None => []
        end
    | _ => []
    end in
  let title :=
    match entry with
    | JObject fields => ifTruthy (toStringOrNull (lookup "title" fields))
    | _ => None
    end in
  match firstSome (itemString "value") records with
  | Some value => Some value
  | None =>
      match title with
      | Some title => Some title
      | None => firstSome itemHref records
      end
  end.

(** The accumulator after adding [us] to the set and pushing [ws]. *)
Definition extend (acc : Acc) (us ws : list jsstring) : Acc :=
  {| combined := fold_left Set_add us (combined acc);
     combinedWarnings := combinedWarnings acc ++ ws |}.

Definition emptyAcc : Acc := {| combined := []; combinedWarnings := [] |}.

(** How a file is classified: markup by its first character or by its
    name, structured data otherwise. *)
Definition isMarkup (file : File) (text : jsstring) : bool :=
  RegExp_test looksLikeHtmlRe text
  || (String_endsWith (String_toLowerCase (name file)) ".html"
      || String_endsWith (String_toLowerCase (name file)) ".htm").

(** The state before the loop: [setError(null)], [setWarnings([])]. *)
Definition cleared (st : AppState) : AppState := setWarnings [] (setError None st).

(** A structured-data decode failure: the file is read, is not classified
    as markup, and [JSON.parse] throws on its text. *)
Definition decodeFails (JSON_parse : jsstring -> outcome JsonValue) (file : File) : Prop :=
  exists t, text file = Return t /\ isMarkup file t = false /\ JSON_parse t = Throw.

(** The text of [exampleFollowers]. *)
Definition exampleFollowersText : jsstring :=
  "{" ++ quoted "relationships_followers" ++ ":[{" ++ quoted "string_list_data"
      ++ ":[{" ++ quoted "value" ++ ":" ++ quoted "Alice" ++ "}]}]}".

(** A decoder that knows one document and throws on every other text. *)
Definition exampleDecoder (text : jsstring) : outcome JsonValue :=
  if jsstring_eqb text exampleFollowersText then Return exampleFollowers else Throw.

Definition exampleBadFile : File :=
  {| name := "followers_1.json"; text := Return "not json" |}.
Definition exampleGoodFile : File :=
  {| name := "followers_2.json"; text := Return exampleFollowersText |}.

(** The values in which the parser recognizes nothing: [null], a boolean,
    a number, a string, and an object in which neither standard field is an
    array and no field yields an identifier. *)
Definition unrecognized (json : JsonValue) : bool :=
  match json with
  | JArray _ => false
  | JObject fields =>
      match Array_isArray (lookup "relationships_followers" fields),
            Array_isArray (lookup "relationships_following" fields) with
      | None, None => forallb (fun field => negb (yieldsUsernames field)) fields
      | _, _ => false
      end
  | _ => true
  end.

(** The usernames the parser chosen for a file returns; none when the read
    is rejected, [JSON.parse] throws or the parser throws. *)
Definition parsedUsernames {collator : Collator}
    (DOMParser : option (jsstring -> outcome (list Anchor)))
    (JSON_parse : jsstring -> outcome JsonValue) (file : File) : list jsstring :=
  match text file with
  | Throw => []
  | Return t =>
      if isMarkup file t then usernames (parseInstagramRelationshipHtml DOMParser t)
      else match JSON_parse t with
           | Throw => []
           | Return json =>
               match parseInstagramRelationshipJson json with
               | Return result => usernames result
               | Throw => []
               end
           end
  end.


(** The state after the followers files [fs] and then the following files
    [gs] have been loaded. *)
Definition loaded {collator : Collator}
    (DOMParser : option (jsstring -> outcome (list Anchor)))
    (JSON_parse : jsstring -> outcome JsonValue)
    (fs gs : list File) (st : AppState) : AppState :=
  handleFiles DOMParser JSON_parse (Some gs) setFollowing expectFollowing
    (handleFiles DOMParser JSON_parse (Some fs) setFollowers expectFollowers st).

(** A code unit that the collation of a locale gives no weight: the control
    character U+0001. *)
Definition isIgnorable (c : ascii) : bool := code c =? 1.

Definition withoutIgnorable (s : jsstring) : jsstring :=
  filter (fun c => negb (isIgnorable c)) s.

(** Comparison by the code units that carry weight.  It is a collator (see
    [ignoringCollator]) that returns zero on some pairs of different
    strings, as the collation of a locale does. *)
Definition ignoringCompare (a b : jsstring) : comparison :=
  codeUnitCompare (withoutIgnorable a) (withoutIgnorable b).

(** [{"relationships_followers":[{"string_list_data":[{"value": v}]}]}] *)
Definition followersDocument (v : jsstring) : JsonValue :=
  JObject [("relationships_followers", JArray [valueEntry v])].

(** The text of [followersDocument], with the string literal [literal]
    written for the value. *)
Definition followersText (literal : jsstring) : jsstring :=
  "{" ++ quoted "relationships_followers" ++ ":[{" ++ quoted "string_list_data"
      ++ ":[{" ++ quoted "value" ++ ":" ++ quoted literal ++ "}]}]}".

(** A decoder that knows two documents, one with the value [a] followed by
    U+0001 and one with the value [a], and throws on every other text. *)
Definition exampleTieDecoder (text : jsstring) : outcome JsonValue :=
  if jsstring_eqb text (followersText "a\u0001")
  then Return (followersDocument ["a"%char; "001"%char])
  else if jsstring_eqb text (followersText "a")
       then Return (followersDocument "a")
       else Throw.

Definition exampleFileA : File :=
  {| name := "followers_1.json"; text := Return (followersText "a\u0001") |}.
Definition exampleFileB : File :=
  {| name := "followers_2.json"; text := Return (followersText "a") |}.

Definition emptyState : AppState :=
  {| st_followers := None; st_following := None; st_warnings := []; st_error := None |}.

(** What stands before the host in an Instagram profile URL. *)
Definition profilePrefixes : list jsstring :=
  ["https://www."; "https://"; "http://www."; "http://"].

Section Vocabulary.

Context {collator : Collator}.
Variable DOMParser : option (jsstring -> outcome (list Anchor)).
Variable JSON_parse : jsstring -> outcome JsonValue.

(** [a] does not sort after [b]. *)
Definition notAfter (a b : jsstring) : Prop := localeCompare a b <> Gt.

(** The candidates that pass the final filter. *)
Definition plausibleCandidates (htmlText : jsstring) : list jsstring :=
  filter (RegExp_test plausibleRe) (htmlCandidates DOMParser htmlText).

(** What one file adds, seen from an empty accumulator. *)
Definition contribution (expected : Expected) (file : File) : Acc :=
  processFile DOMParser JSON_parse expected emptyAcc file.

Definition fileUsernames (expected : Expected) (file : File) : list jsstring :=
  combined (contribution expected file).

Definition fileWarnings (expected : Expected) (file : File) : list jsstring :=
  combinedWarnings (contribution expected file).

(** The merged identifier sequence of a batch. *)
Definition mergedUsernames (expected : Expected) (files : list File) : list jsstring :=
  Array_sort (fun a b => localeCompare a b)
             (Set_new (flat_map (fileUsernames expected) files)).

End Vocabulary.

(* ================================================================== *)
(** * Lemmas and theorems *)
(* ================================================================== *)

(* ================================================================== *)
(** * Facts about code units and strings *)
(* ================================================================== *)

Ltac by_cases_on_unit c :=
  destruct c as [[] [] [] [] [] [] [] []]; vm_compute; try reflexivity; try congruence.

Lemma toLowerUnit_idem (c : ascii) : toLowerUnit (toLowerUnit c) = toLowerUnit c.
Proof. by_cases_on_unit c. Qed.

Lemma isWhiteSpace_toLowerUnit (c : ascii) :
  isWhiteSpace (toLowerUnit c) = isWhiteSpace c.
Proof. by_cases_on_unit c. Qed.

Lemma isUsernameChar_toLowerUnit (c : ascii) :
  isUsernameChar c = true -> isLowerUsernameChar (toLowerUnit c) = true.
Proof. by_cases_on_unit c. Qed.

Lemma isUsernameChar_not_space (c : ascii) :
  isUsernameChar c = true -> isWhiteSpace c = false.
Proof. by_cases_on_unit c. Qed.

Lemma isUsernameChar_not_at (c : ascii) :
  isUsernameChar c = true -> Ascii.eqb c "@" = false.
Proof. by_cases_on_unit c. Qed.

Lemma String_toLowerCase_idem (s : jsstring) :
  String_toLowerCase (String_toLowerCase s) = String_toLowerCase s.
Proof.
  unfold String_toLowerCase. rewrite map_map.
  apply map_ext. intros c. apply toLowerUnit_idem.
Qed.

Lemma trimStart_head (s : jsstring) : headIs isWhiteSpace (String_trimStart s) = false.
Proof.
  induction s as [|c t IH]; simpl; [reflexivity|].
  destruct (isWhiteSpace c) eqn:E; [exact IH | simpl; exact E].
Qed.

Lemma trimStart_clean (s : jsstring) :
  headIs isWhiteSpace s = false -> String_trimStart s = s.
Proof.
  destruct s as [|c t]; simpl; [reflexivity|]. intros ->. reflexivity.
Qed.

Lemma trimStart_length (s : jsstring) : length (String_trimStart s) <= length s.
Proof.
  induction s as [|c t IH]; simpl; [lia|].
  destruct (isWhiteSpace c); simpl; lia.
Qed.

Lemma trimStart_shrinks (s : jsstring) :
  headIs isWhiteSpace s = true -> length (String_trimStart s) < length s.
Proof.
  destruct s as [|c t]; simpl; [discriminate|]. intros ->.
  pose proof (trimStart_length t). lia.
Qed.

Lemma trimEnd_last (s : jsstring) : lastIs isWhiteSpace (String_trimEnd s) = false.
Proof.
  unfold lastIs, String_trimEnd. rewrite rev_involutive. apply trimStart_head.
Qed.

Lemma trimEnd_clean (s : jsstring) :
  lastIs isWhiteSpace s = false -> String_trimEnd s = s.
Proof.
  unfold lastIs, String_trimEnd. intros H.
  rewrite (trimStart_clean _ H). apply rev_involutive.
Qed.

Lemma trimEnd_length (s : jsstring) : length (String_trimEnd s) <= length s.
Proof.
  unfold String_trimEnd. rewrite length_rev.
  pose proof (trimStart_length (rev s)). rewrite length_rev in H. exact H.
Qed.

Lemma trim_last (s : jsstring) : lastIs isWhiteSpace (String_trim s) = false.
Proof. apply trimEnd_last. Qed.

Lemma trim_length (s : jsstring) : length (String_trim s) <= length s.
Proof.
  unfold String_trim.
  pose proof (trimEnd_length (String_trimStart s)).
  pose proof (trimStart_length s). lia.
Qed.

Lemma trim_clean (s : jsstring) :
  headIs isWhiteSpace s = false -> lastIs isWhiteSpace s = false -> String_trim s = s.
Proof.
  intros H1 H2. unfold String_trim.
  rewrite (trimStart_clean _ H1). apply trimEnd_clean, H2.
Qed.

Lemma trim_shrinks (s : jsstring) :
  headIs isWhiteSpace s = true -> length (String_trim s) < length s.
Proof.
  intros H. unfold String_trim.
  pose proof (trimEnd_length (String_trimStart s)).
  pose proof (trimStart_shrinks _ H). lia.
Qed.

Lemma lastIs_tail (p : ascii -> bool) (c : ascii) (t : jsstring) :
  lastIs p (c :: t) = false -> lastIs p t = false.
Proof.
  unfold lastIs. simpl. destruct (rev t) as [|d u] eqn:E; [reflexivity|].
  simpl. trivial.
Qed.

Lemma headIs_toLowerCase (p : ascii -> bool) (s : jsstring) :
  (forall c, p (toLowerUnit c) = p c) ->
  headIs p (String_toLowerCase s) = headIs p s.
Proof. intros H. destruct s; simpl; [reflexivity | apply H]. Qed.

Lemma lastIs_toLowerCase (p : ascii -> bool) (s : jsstring) :
  (forall c, p (toLowerUnit c) = p c) ->
  lastIs p (String_toLowerCase s) = lastIs p s.
Proof.
  intros H. unfold lastIs, String_toLowerCase. rewrite <- map_rev.
  apply (headIs_toLowerCase p (rev s) H).
Qed.

(* ================================================================== *)
(** * Facts about the matcher *)
(* ================================================================== *)

Lemma searchFrom_Bol_later (r : regex) (l : jsstring) (p : nat) :
  searchFrom (Cat Bol r) (S p) l = None.
Proof.
  revert p. induction l as [|c t IH]; intros p; simpl; [reflexivity | apply IH].
Qed.

(** [s.replace(/^@/, '')] removes one leading [@] and nothing else. *)
Lemma replace_leadingAt (s : jsstring) :
  String_replace s leadingAtRe "" =
  match s with
  | c :: t => if Ascii.eqb c "@" then t else s
  | [] => []
  end.
Proof.
  unfold String_replace, RegExp_exec, leadingAtRe.
  destruct s as [|c t]; [reflexivity|].
  cbn [searchFrom matchAt matcher pos rest Nat.eqb].
  destruct (Ascii.eqb c "@") eqn:E.
  - reflexivity.
  - rewrite searchFrom_Bol_later. reflexivity.
Qed.

(* ================================================================== *)
(** * The normalizer (claim C7) *)
(* ================================================================== *)

Lemma normalizeUsername_last (x : jsstring) :
  lastIs isWhiteSpace (normalizeUsername x) = false.
Proof.
  unfold normalizeUsername.
  rewrite (lastIs_toLowerCase _ _ isWhiteSpace_toLowerUnit), replace_leadingAt.
  pose proof (trim_last x) as H.
  destruct (String_trim x) as [|c t]; [reflexivity|].
  destruct (Ascii.eqb c "@"); [exact (lastIs_tail _ _ _ H) | exact H].
Qed.

(** A string that ends without white space and is clean at its front is a
    fixed point, up to lower-casing. *)
Lemma normalizeUsername_clean (y : jsstring) :
  frontClean y = true -> lastIs isWhiteSpace y = false ->
  normalizeUsername y = String_toLowerCase y.
Proof.
  unfold frontClean. intros H Hl.
  apply andb_true_iff in H. destruct H as [Hw Ha].
  apply negb_true_iff in Hw. apply negb_true_iff in Ha.
  unfold normalizeUsername. rewrite (trim_clean _ Hw Hl), replace_leadingAt.
  destruct y as [|c t]; [reflexivity|]. simpl in Ha. unfold isAt in Ha.
  rewrite Ha. reflexivity.
Qed.

Lemma normalizeUsername_shrinks (y : jsstring) :
  frontClean y = false -> lastIs isWhiteSpace y = false ->
  length (normalizeUsername y) < length y.
Proof.
  unfold frontClean. intros H Hl.
  destruct (headIs isWhiteSpace y) eqn:Hw.
  - pose proof (trim_shrinks _ Hw) as Ht.
    unfold normalizeUsername, String_toLowerCase.
    rewrite length_map, replace_leadingAt.
    destruct (String_trim y) as [|c t]; simpl in *; [lia|].
    destruct (Ascii.eqb c "@"); simpl; lia.
  - simpl in H. apply negb_false_iff in H.
    unfold normalizeUsername, String_toLowerCase.
    rewrite length_map, (trim_clean _ Hw Hl), replace_leadingAt.
    destruct y as [|c t]; [discriminate|]. simpl in H. unfold isAt in H.
    rewrite H. simpl. lia.
Qed.

Lemma String_toLowerCase_normalize (x : jsstring) :
  String_toLowerCase (normalizeUsername x) = normalizeUsername x.
Proof. unfold normalizeUsername. apply String_toLowerCase_idem. Qed.

(** C7, as the spec states it, fails: only one leading [@] is removed, and
    white space that follows it is kept. *)
Lemma normalizeUsername_not_idempotent :
  normalizeUsername (normalizeUsername "@@foo") <> normalizeUsername "@@foo".
Proof. vm_compute. discriminate. Qed.

(** C7 (amended): a second pass of the normalizer changes nothing exactly
    when the first pass left neither white space nor [@] at the front; and
    [normalize("@Foo") = normalize("foo") = normalize(" foo ") = "foo"]. *)
Theorem normalizeUsername_idempotent_iff :
  (forall x : jsstring,
     normalizeUsername (normalizeUsername x) = normalizeUsername x
     <-> frontClean (normalizeUsername x) = true)
  /\ normalizeUsername "@Foo" = "foo"
  /\ normalizeUsername "foo" = "foo"
  /\ normalizeUsername " foo " = "foo".
Proof.
  split; [|repeat split; reflexivity].
  intros x. pose proof (normalizeUsername_last x) as Hl. split.
  - intros H. destruct (frontClean (normalizeUsername x)) eqn:E; [reflexivity|].
    pose proof (normalizeUsername_shrinks _ E Hl) as Hs.
    rewrite H in Hs. lia.
  - intros H. rewrite (normalizeUsername_clean _ H Hl).
    apply String_toLowerCase_normalize.
Qed.

(* ================================================================== *)
(** * A collator: comparison by code units *)
(* ================================================================== *)

Lemma codeUnitCompare_opp (a b : jsstring) :
  codeUnitCompare b a = CompOpp (codeUnitCompare a b).
Proof.
  revert b. induction a as [|x a IH]; intros [|y b]; simpl; try reflexivity.
  rewrite (Nat.compare_antisym (code x) (code y)).
  destruct (Nat.compare (code x) (code y)); simpl; [apply IH | reflexivity | reflexivity].
Qed.

Lemma codeUnitCompare_trans (a b c : jsstring) :
  codeUnitCompare a b <> Gt -> codeUnitCompare b c <> Gt -> codeUnitCompare a c <> Gt.
Proof.
  revert b c. induction a as [|x a IH]; intros [|y b] [|z c]; simpl;
    try congruence.
  destruct (Nat.compare_spec (code x) (code y)) as [Hxy|Hxy|Hxy];
  destruct (Nat.compare_spec (code y) (code z)) as [Hyz|Hyz|Hyz];
  destruct (Nat.compare_spec (code x) (code z)) as [Hxz|Hxz|Hxz];
    try congruence; try lia.
  apply IH.
Qed.

Lemma code_inj (x y : ascii) : code x = code y -> x = y.
Proof.
  unfold code. intros H.
  rewrite <- (ascii_nat_embedding x), <- (ascii_nat_embedding y), H. reflexivity.
Qed.

Lemma codeUnitCompare_eq (a b : jsstring) : codeUnitCompare a b = Eq -> a = b.
Proof.
  revert b. induction a as [|x a IH]; intros [|y b]; simpl; try congruence.
  destruct (Nat.compare_spec (code x) (code y)) as [Hxy|Hxy|Hxy]; try congruence.
  intros H. f_equal; [apply code_inj, Hxy | apply IH, H].
Qed.

#[export] Instance codeUnitCollator : Collator := {|
  localeCompare := codeUnitCompare;
  localeCompare_opp := codeUnitCompare_opp;
  localeCompare_trans := codeUnitCompare_trans
|}.

(* ================================================================== *)
(** * Facts about sets and sorting *)
(* ================================================================== *)

Lemma jsstring_eqb_eq (a b : jsstring) : jsstring_eqb a b = true <-> a = b.
Proof.
  unfold jsstring_eqb. destruct (list_eq_dec ascii_dec a b); split; congruence.
Qed.

Lemma Set_has_In (s : JSSet) (v : jsstring) : Set_has s v = true <-> In v s.
Proof.
  unfold Set_has. rewrite existsb_exists. split.
  - intros [x [Hx He]]. apply jsstring_eqb_eq in He. subst. exact Hx.
  - intros H. exists v. split; [exact H | apply jsstring_eqb_eq; reflexivity].
Qed.

Lemma Set_has_false (s : JSSet) (v : jsstring) : Set_has s v = false <-> ~ In v s.
Proof.
  rewrite <- Set_has_In. destruct (Set_has s v); split; congruence.
Qed.

Lemma Set_add_In (s : JSSet) (v x : jsstring) :
  In x (Set_add s v) <-> In x s \/ x = v.
Proof.
  unfold Set_add. destruct (Set_has s v) eqn:E.
  - apply Set_has_In in E. split; [tauto|]. intros [H | ->]; assumption.
  - rewrite in_app_iff. simpl. split; intros [H|H]; auto.
    + destruct H as [H|[]]. auto.
Qed.

Lemma Set_add_NoDup (s : JSSet) (v : jsstring) : NoDup s -> NoDup (Set_add s v).
Proof.
  intros H. unfold Set_add. destruct (Set_has s v) eqn:E; [exact H|].
  apply Set_has_false in E.
  apply NoDup_rev in H. rewrite <- (rev_involutive (s ++ [v])).
  apply NoDup_rev. rewrite rev_app_distr. simpl. constructor; [|exact H].
  rewrite <- in_rev. exact E.
Qed.

Lemma fold_Set_add_In (l : list jsstring) (s : JSSet) (x : jsstring) :
  In x (fold_left Set_add l s) <-> In x s \/ In x l.
Proof.
  revert s. induction l as [|v l IH]; intros s; simpl; [tauto|].
  rewrite IH, Set_add_In. intuition congruence.
Qed.

Lemma fold_Set_add_NoDup (l : list jsstring) (s : JSSet) :
  NoDup s -> NoDup (fold_left Set_add l s).
Proof.
  revert s. induction l as [|v l IH]; intros s H; simpl; [exact H|].
  apply IH, Set_add_NoDup, H.
Qed.

Lemma normalizedSet_In (l : list jsstring) (s : JSSet) (x : jsstring) :
  In x (normalizedSet l s)
  <-> In x s \/ (x <> [] /\ exists u, In u l /\ normalizeUsername u = x).
Proof.
  revert s. induction l as [|v l IH]; intros s; simpl.
  - split; [tauto|]. intros [H|[_ [u [[] _]]]]. exact H.
  - unfold normalizedSet in *. simpl. rewrite IH. clear IH.
    destruct (normalizeUsername v) as [|c t] eqn:E; simpl.
    + split.
      * intros [H|[Hx [u [Hu Hn]]]]; [tauto|]. right. split; [exact Hx|].
        exists u. tauto.
      * intros [H|[Hx [u [[Hu|Hu] Hn]]]]; [tauto| |].
        -- subst. congruence.
        -- right. split; [exact Hx|]. exists u. tauto.
    + rewrite Set_add_In. split.
      * intros [[H|H]|[Hx [u [Hu Hn]]]]; [tauto| |].
        -- right. split; [subst; discriminate|]. exists v. split; [auto|congruence].
        -- right. split; [exact Hx|]. exists u. tauto.
      * intros [H|[Hx [u [[Hu|Hu] Hn]]]]; [tauto| |].
        -- subst. left. right. congruence.
        -- right. split; [exact Hx|]. exists u. tauto.
Qed.

Lemma normalizedSet_NoDup (l : list jsstring) (s : JSSet) :
  NoDup s -> NoDup (normalizedSet l s).
Proof.
  revert s. induction l as [|v l IH]; intros s H; simpl; [exact H|].
  unfold normalizedSet in *. simpl. apply IH.
  destruct (truthy (normalizeUsername v)); [apply Set_add_NoDup, H | exact H].
Qed.

Section Sorting.

Context {collator : Collator}.

Lemma notAfter_total (a b : jsstring) : localeCompare a b = Gt -> notAfter b a.
Proof.
  unfold notAfter. intros H. rewrite localeCompare_opp, H. simpl. discriminate.
Qed.

Lemma insertSorted_Permutation (x : jsstring) (l : list jsstring) :
  Permutation (insertSorted localeCompare x l) (x :: l).
Proof.
  induction l as [|y t IH]; simpl; [reflexivity|].
  destruct (localeCompare x y); try reflexivity.
  rewrite IH. apply perm_swap.
Qed.

Lemma Array_sort_Permutation (l : list jsstring) :
  Permutation (Array_sort localeCompare l) l.
Proof.
  induction l as [|x l IH]; simpl; [reflexivity|].
  rewrite insertSorted_Permutation. constructor. exact IH.
Qed.

Lemma insertSorted_sorted (x : jsstring) (l : list jsstring) :
  StronglySorted notAfter l -> StronglySorted notAfter (insertSorted localeCompare x l).
Proof.
  induction l as [|y t IH]; intros H; simpl.
  - constructor; [constructor | constructor].
  - inversion H as [|? ? Ht Hy]; subst.
    destruct (localeCompare x y) eqn:E.
    + constructor; [exact H|]. constructor; [unfold notAfter; congruence|].
      eapply Forall_impl; [|exact Hy]. intros z Hz.
      unfold notAfter in *. eapply localeCompare_trans; [|exact Hz]. congruence.
    + constructor; [exact H|]. constructor; [unfold notAfter; congruence|].
      eapply Forall_impl; [|exact Hy]. intros z Hz.
      unfold notAfter in *. eapply localeCompare_trans; [|exact Hz]. congruence.
    + constructor; [apply IH, Ht|].
      apply (Permutation_Forall (Permutation_sym (insertSorted_Permutation x t))).
      constructor; [apply notAfter_total, E | exact Hy].
Qed.

Lemma Array_sort_sorted (l : list jsstring) :
  StronglySorted notAfter (Array_sort localeCompare l).
Proof.
  induction l as [|x l IH]; simpl; [constructor | apply insertSorted_sorted, IH].
Qed.

Lemma Array_sort_In (l : list jsstring) (x : jsstring) :
  In x (Array_sort localeCompare l) <-> In x l.
Proof.
  split; apply Permutation_in;
    [apply Array_sort_Permutation | apply Permutation_sym, Array_sort_Permutation].
Qed.

Lemma Array_sort_NoDup (l : list jsstring) :
  NoDup l -> NoDup (Array_sort localeCompare l).
Proof.
  apply Permutation_NoDup, Permutation_sym, Array_sort_Permutation.
Qed.

Lemma uniqueSorted_unfold (l : list jsstring) :
  uniqueSorted l = Array_sort localeCompare (normalizedSet l []).
Proof. reflexivity. Qed.

Lemma uniqueSorted_In (l : list jsstring) (x : jsstring) :
  In x (uniqueSorted l) <-> x <> [] /\ exists u, In u l /\ normalizeUsername u = x.
Proof.
  rewrite uniqueSorted_unfold, Array_sort_In, normalizedSet_In. simpl. tauto.
Qed.

Lemma uniqueSorted_NoDup (l : list jsstring) : NoDup (uniqueSorted l).
Proof.
  rewrite uniqueSorted_unfold. apply Array_sort_NoDup, normalizedSet_NoDup. constructor.
Qed.

Lemma uniqueSorted_sorted (l : list jsstring) : StronglySorted notAfter (uniqueSorted l).
Proof. rewrite uniqueSorted_unfold. apply Array_sort_sorted. Qed.

End Sorting.

(* ================================================================== *)
(** * Dedupe/Sort (claim C6) *)
(* ================================================================== *)

Lemma normalizeUsername_fixed (u : jsstring) :
  frontClean (normalizeUsername u) = true ->
  normalizeUsername (normalizeUsername u) = normalizeUsername u.
Proof.
  intros H. rewrite (normalizeUsername_clean _ H (normalizeUsername_last u)).
  apply String_toLowerCase_normalize.
Qed.

(** The elements are normalized once.  When none of them starts with white
    space or [@] they are their own normalized values. *)
Lemma uniqueSorted_fixed_points {collator : Collator} (raw : list jsstring) :
  (forall x, In x (uniqueSorted raw) -> frontClean x = true) ->
  map normalizeUsername (uniqueSorted raw) = uniqueSorted raw.
Proof.
  intros H. rewrite <- (map_id (uniqueSorted raw)) at 2.
  apply map_ext_in. intros x Hx.
  pose proof (H x Hx) as Hc.
  apply uniqueSorted_In in Hx. destruct Hx as [_ [u [_ <-]]].
  apply normalizeUsername_fixed, Hc.
Qed.

(** C6, as the spec states it, fails: the elements are normalized once, and
    a second normalization can merge two of them, as it turns [@foo] into
    [foo] (see C7). *)
Lemma uniqueSorted_renormalized_collide :
  @uniqueSorted codeUnitCollator ["@@foo"; "foo"] = ["@foo"; "foo"]
  /\ map normalizeUsername (@uniqueSorted codeUnitCollator ["@@foo"; "foo"])
     = ["foo"; "foo"]
  /\ ~ NoDup (map normalizeUsername (@uniqueSorted codeUnitCollator ["@@foo"; "foo"])).
Proof.
  split; [reflexivity|]. split; [reflexivity|].
  change (~ NoDup ["foo"; "foo"]). intros H. inversion H as [|x l Hin _]; subst.
  apply Hin. left. reflexivity.
Qed.

(** C6 (amended): for every input sequence of raw tokens the output of
    [uniqueSorted] has no two equal elements and is sorted ascending under
    [localeCompare]; its elements are the normalized values of the tokens,
    the empty one left out.  When no token, once normalized, starts with
    white space or [@], every element is its own normalized value, so that
    no two elements have equal normalized value and the normalized values
    are sorted. *)
Theorem uniqueSorted_dedup_sorted {collator : Collator} (raw : list jsstring) :
  NoDup (uniqueSorted raw)
  /\ StronglySorted (fun a b => localeCompare a b <> Gt) (uniqueSorted raw)
  /\ (forall x, In x (uniqueSorted raw)
        <-> x <> [] /\ exists u, In u raw /\ normalizeUsername u = x)
  /\ ((forall u, In u raw -> frontClean (normalizeUsername u) = true) ->
      map normalizeUsername (uniqueSorted raw) = uniqueSorted raw
      /\ NoDup (map normalizeUsername (uniqueSorted raw))
      /\ StronglySorted (fun a b => localeCompare a b <> Gt)
                        (map normalizeUsername (uniqueSorted raw))).
Proof.
  split; [apply uniqueSorted_NoDup|].
  split; [apply uniqueSorted_sorted|].
  split; [apply uniqueSorted_In|].
  intros H.
  assert (E : map normalizeUsername (uniqueSorted raw) = uniqueSorted raw).
  { apply uniqueSorted_fixed_points. intros x Hx.
    apply uniqueSorted_In in Hx. destruct Hx as [_ [u [Hu <-]]]. apply H, Hu. }
  rewrite E. split; [reflexivity|].
  split; [apply uniqueSorted_NoDup | apply uniqueSorted_sorted].
Qed.

Lemma uniqueSorted_dedup_sorted_witness :
  NoDup (map normalizeUsername (@uniqueSorted codeUnitCollator ["Foo"; "@foo"; " bar "])).
Proof.
  refine (proj1 (proj2 (proj2 (proj2 (proj2
            (@uniqueSorted_dedup_sorted codeUnitCollator ["Foo"; "@foo"; " bar "]))) _))).
  intros u [<-|[<-|[<-|[]]]]; reflexivity.
Defined.

(* ================================================================== *)
(** * The diff (claim C1) *)
(* ================================================================== *)

Lemma Set_new_has (l : list jsstring) (u : jsstring) :
  negb (Set_has (Set_new l) u) = absentFrom l u.
Proof.
  unfold absentFrom, Set_new.
  destruct (in_dec (list_eq_dec ascii_dec) u l) as [Hin|Hout].
  - apply negb_false_iff, Set_has_In, fold_Set_add_In. right. exact Hin.
  - apply negb_true_iff, Set_has_false. rewrite fold_Set_add_In. simpl. tauto.
Qed.

Lemma StronglySorted_filter {A : Type} (R : A -> A -> Prop) (f : A -> bool) (l : list A) :
  StronglySorted R l -> StronglySorted R (filter f l).
Proof.
  induction 1 as [|a l Hs IH Hf]; simpl; [constructor|].
  destruct (f a); [|exact IH].
  constructor; [exact IH|].
  apply Forall_forall. intros x Hx. apply filter_In in Hx.
  rewrite Forall_forall in Hf. apply Hf, Hx.
Qed.

(** C1: the diff is [following] filtered, in its own order, down to the
    elements absent from [followers]; it stays sorted when [following] is
    sorted; and [diff(["alice","bob","carol"], ["alice","bob"]) = ["carol"]]. *)
Theorem notFollowingBack_diff :
  (forall followers following : list jsstring,
     exists diff,
       notFollowingBack (Some followers) (Some following) = Some diff
       /\ diff = filter (absentFrom followers) following
       /\ (forall u, In u diff <-> In u following /\ ~ In u followers)
       /\ (forall collator : Collator,
             StronglySorted (fun a b => localeCompare a b <> Gt) following ->
             StronglySorted (fun a b => localeCompare a b <> Gt) diff))
  /\ notFollowingBack (Some ["alice"; "bob"]) (Some ["alice"; "bob"; "carol"])
     = Some ["carol"].
Proof.
  split; [|reflexivity].
  intros followers following.
  assert (E : filter (fun u => negb (Set_has (Set_new followers) u)) following
              = filter (absentFrom followers) following).
  { apply filter_ext. intros u. apply Set_new_has. }
  exists (filter (absentFrom followers) following).
  split; [unfold notFollowingBack; rewrite E; reflexivity|].
  split; [reflexivity|]. split.
  - intros u. rewrite filter_In. unfold absentFrom.
    destruct (in_dec (list_eq_dec ascii_dec) u followers); intuition congruence.
  - intros collator Hs. apply StronglySorted_filter, Hs.
Qed.

Lemma notFollowingBack_diff_witness :
  exists diff,
    notFollowingBack (Some ["bob"]) (Some ["alice"; "bob"; "carol"]) = Some diff
    /\ StronglySorted (fun a b => @localeCompare codeUnitCollator a b <> Gt) diff.
Proof.
  destruct (proj1 notFollowingBack_diff ["bob"] ["alice"; "bob"; "carol"])
    as [diff [H1 [_ [_ H4]]]].
  exists diff. split; [exact H1|].
  apply (H4 codeUnitCollator).
  repeat constructor; vm_compute; discriminate.
Defined.

(* ================================================================== *)
(** * Facts about quantifiers over a character class *)
(* ================================================================== *)

Lemma run_length (p : ascii -> bool) (n : nat) (l : jsstring) :
  length (run p n l) <= n /\ length (run p n l) <= length l.
Proof.
  revert l. induction n as [|n IH]; intros [|c t]; simpl; try lia.
  destruct (p c); simpl; [|lia]. destruct (IH t). lia.
Qed.

Lemma run_forallb (p : ascii -> bool) (n : nat) (l : jsstring) :
  forallb p (run p n l) = true.
Proof.
  revert l. induction n as [|n IH]; intros [|c t]; simpl; try reflexivity.
  destruct (p c) eqn:E; simpl; [|reflexivity]. rewrite E. apply IH.
Qed.

Lemma run_prefix (p : ascii -> bool) (n : nat) (l : jsstring) :
  firstn (length (run p n l)) l = run p n l.
Proof.
  revert l. induction n as [|n IH]; intros [|c t]; simpl; try reflexivity.
  destruct (p c); simpl; [|reflexivity]. f_equal. apply IH.
Qed.

Lemma run_all (p : ascii -> bool) (n : nat) (l : jsstring) :
  forallb p l = true -> length l <= n -> run p n l = l.
Proof.
  revert l. induction n as [|n IH]; intros [|c t]; simpl; try reflexivity; try lia.
  intros H Hl. apply andb_true_iff in H. destruct H as [-> H].
  f_equal. apply IH; [exact H | lia].
Qed.

Lemma run_whole (p : ascii -> bool) (n : nat) (l : jsstring) :
  length l <= length (run p n l) -> run p n l = l.
Proof.
  intros H. rewrite <- (run_prefix p n l).
  apply firstn_all2. exact H.
Qed.

Lemma repeatMatcher_0 (mr : mstate -> cont -> option mstate) (min : nat) (x : mstate) (k : cont) :
  repeatMatcher mr 0 min x k = k x.
Proof. reflexivity. Qed.

Lemma repeatMatcher_S (mr : mstate -> cont -> option mstate) (max min : nat)
    (x : mstate) (k : cont) :
  repeatMatcher mr (S max) min x k =
  let d : cont := fun y =>
    if (min =? 0) && (pos y =? pos x) then None
    else repeatMatcher mr max (Nat.pred min) y k in
  match min with
  | S _ => mr x d
  | 0 => match mr x d with
         | Some z => Some z
         | None => k x
         end
  end.
Proof. reflexivity. Qed.

Section ClassQuantifier.

Variable p : ascii -> bool.

Lemma matcher_Cls_cons (i : nat) (a : ascii) (t : jsstring) (c : option jsstring) (k : cont) :
  matcher (Cls p) (MState i (a :: t) c) k = if p a then k (MState (S i) t c) else None.
Proof. reflexivity. Qed.

Lemma matcher_Cls_nil (i : nat) (c : option jsstring) (k : cont) :
  matcher (Cls p) (MState i [] c) k = None.
Proof. reflexivity. Qed.

(** One iteration of the quantifier over a class. *)
Lemma repeat_class_S (max min i : nat) (l : jsstring) (c : option jsstring) (k : cont) :
  repeatMatcher (matcher (Cls p)) (S max) min (MState i l c) k =
  match l with
  | a :: t =>
      if p a then
        match repeatMatcher (matcher (Cls p)) max (Nat.pred min) (MState (S i) t c) k with
        | Some z => Some z
        | None => if min =? 0 then k (MState i l c) else None
        end
      else if min =? 0 then k (MState i l c) else None
  | [] => if min =? 0 then k (MState i l c) else None
  end.
Proof.
  rewrite repeatMatcher_S. cbv zeta.
  destruct l as [|a t].
  - rewrite matcher_Cls_nil. destruct min; reflexivity.
  - rewrite matcher_Cls_cons. cbn [pos].
    replace (S i =? i) with false by (symmetry; apply Nat.eqb_neq; lia).
    rewrite andb_false_r.
    destruct (p a); [|destruct min; reflexivity].
    destruct min; [reflexivity|].
    destruct (repeatMatcher _ _ _ _ _); reflexivity.
Qed.

(** The greedy choice: when the continuation accepts the state after the
    whole run, that is the result. *)
Lemma repeat_class_greedy (max min i : nat) (l : jsstring) (c : option jsstring)
    (k : cont) (z : mstate) :
  min <= length (run p max l) ->
  k (MState (i + length (run p max l)) (skipn (length (run p max l)) l) c) = Some z ->
  repeatMatcher (matcher (Cls p)) max min (MState i l c) k = Some z.
Proof.
  revert min i l. induction max as [|max IH]; intros min i l Hmin Hk.
  - simpl in *. rewrite Nat.add_0_r in Hk. exact Hk.
  - rewrite repeat_class_S. destruct l as [|a t].
    + simpl in *. rewrite Nat.add_0_r in Hk.
      destruct min; [exact Hk | lia].
    + simpl in Hmin, Hk. destruct (p a) eqn:E.
      * simpl in Hmin, Hk. rewrite (IH (Nat.pred min) (S i) t); [reflexivity | lia |].
        rewrite <- Hk. f_equal. f_equal. lia.
      * simpl in Hmin, Hk. rewrite Nat.add_0_r in Hk.
        destruct min; [exact Hk | lia].
Qed.

(** Backtracking: the quantifier fails when the continuation rejects every
    admissible number of iterations. *)
Lemma repeat_class_fail (max min i : nat) (l : jsstring) (c : option jsstring)
    (k : cont) :
  min <= max ->
  (forall j, min <= j <= length (run p max l) ->
             k (MState (i + j) (skipn j l) c) = None) ->
  repeatMatcher (matcher (Cls p)) max min (MState i l c) k = None.
Proof.
  revert min i l. induction max as [|max IH]; intros min i l Hle Hk.
  - simpl. specialize (Hk 0). simpl in Hk. rewrite Nat.add_0_r in Hk.
    apply Hk. lia.
  - rewrite repeat_class_S.
    assert (H0 : (if min =? 0 then k (MState i l c) else None) = None).
    { destruct min; [|reflexivity]. simpl.
      specialize (Hk 0). simpl in Hk. rewrite Nat.add_0_r in Hk. apply Hk. lia. }
    destruct l as [|a t]; [exact H0|].
    destruct (p a) eqn:E; [|exact H0].
    rewrite (IH (Nat.pred min) (S i) t); [exact H0 | lia |].
    intros j Hj. specialize (Hk (S j)). simpl in Hk. rewrite E in Hk. simpl in Hk.
    rewrite <- Hk; [f_equal; f_equal; lia | lia].
Qed.

(** Whatever the quantifier returns, the continuation returned it after an
    admissible number of iterations. *)
Lemma repeat_class_sound (max min i : nat) (l : jsstring) (c : option jsstring)
    (k : cont) (z : mstate) :
  min <= max ->
  repeatMatcher (matcher (Cls p)) max min (MState i l c) k = Some z ->
  exists j, min <= j <= length (run p max l)
            /\ k (MState (i + j) (skipn j l) c) = Some z.
Proof.
  revert min i l. induction max as [|max IH]; intros min i l Hle H.
  - simpl in H. exists 0. simpl. rewrite Nat.add_0_r. split; [lia | exact H].
  - rewrite repeat_class_S in H.
    assert (H0 : (if min =? 0 then k (MState i l c) else None) = Some z ->
                 exists j, min <= j <= length (run p (S max) l)
                           /\ k (MState (i + j) (skipn j l) c) = Some z).
    { destruct min; simpl; [|discriminate]. intros Hz.
      exists 0. simpl. rewrite Nat.add_0_r. split; [lia | exact Hz]. }
    destruct l as [|a t]; [exact (H0 H)|].
    destruct (p a) eqn:E; [|exact (H0 H)].
    destruct (repeatMatcher (matcher (Cls p)) max (Nat.pred min) (MState (S i) t c) k)
      as [z'|] eqn:Hrec; [|exact (H0 H)].
    injection H as ->.
    assert (Hp : Nat.pred min <= max) by lia.
    destruct (IH _ _ _ Hp Hrec) as [j [Hj Hkj]].
    exists (S j). simpl. rewrite E. simpl. split; [lia|].
    rewrite <- Hkj. f_equal. f_equal. lia.
Qed.

End ClassQuantifier.

(* ================================================================== *)
(** * The Identifier grammar *)
(* ================================================================== *)

Lemma matcher_Rep_bounded (r : regex) (min n : nat) (x : mstate) (k : cont) :
  matcher (Rep r min (Some n)) x k = repeatMatcher (matcher r) n min x k.
Proof. reflexivity. Qed.

Lemma matcher_Cat (r1 r2 : regex) (x : mstate) (k : cont) :
  matcher (Cat r1 r2) x k = matcher r1 x (fun y => matcher r2 y k).
Proof. reflexivity. Qed.

Lemma matcher_Bol_0 (l : jsstring) (c : option jsstring) (k : cont) :
  matcher Bol (MState 0 l c) k = k (MState 0 l c).
Proof. reflexivity. Qed.

Lemma matchAt_plausibleRe (s : jsstring) :
  matchAt plausibleRe 0 s =
  if isIdentifier s then Some (MState (length s) [] None) else None.
Proof.
  unfold matchAt, plausibleRe, Seq. cbn [fold_right].
  rewrite matcher_Cat, matcher_Bol_0, matcher_Cat, matcher_Rep_bounded.
  destruct (isIdentifier s) eqn:E.
  - unfold isIdentifier in E.
    apply andb_true_iff in E. destruct E as [E E3].
    apply andb_true_iff in E. destruct E as [E1 E2].
    apply Nat.leb_le in E2, E3.
    apply repeat_class_greedy; rewrite (run_all _ _ E1 E3); [exact E2|].
    rewrite skipn_all. reflexivity.
  - apply repeat_class_fail; [lia|].
    intros j [Hj1 Hj2].
    destruct (skipn j s) as [|a t] eqn:Es; [|reflexivity].
    exfalso.
    assert (Hlen : length s <= j).
    { apply (f_equal (@length ascii)) in Es. rewrite length_skipn in Es. simpl in Es. lia. }
    assert (Hrun : run isUsernameChar 30 s = s) by (apply run_whole; lia).
    pose proof (run_forallb isUsernameChar 30 s) as Hall.
    pose proof (run_length isUsernameChar 30 s) as [Hn _].
    rewrite Hrun in Hall, Hn, Hj2.
    unfold isIdentifier in E. rewrite Hall in E. rewrite andb_true_l in E.
    apply andb_false_iff in E. destruct E as [E|E]; apply Nat.leb_gt in E; lia.
Qed.

(** [/^[a-zA-Z0-9._]{1,30}$/.test(raw)] holds exactly of the identifiers. *)
Lemma test_plausibleRe (s : jsstring) : RegExp_test plausibleRe s = isIdentifier s.
Proof.
  unfold RegExp_test, RegExp_exec.
  destruct s as [|a t]; cbn [searchFrom]; rewrite matchAt_plausibleRe.
  - reflexivity.
  - destruct (isIdentifier (a :: t)); [reflexivity|].
    unfold plausibleRe, Seq. cbn [fold_right].
    rewrite searchFrom_Bol_later. reflexivity.
Qed.

(** An identifier is normalized by lower-casing alone. *)
Lemma normalizeUsername_identifier (s : jsstring) :
  isIdentifier s = true ->
  normalizeUsername s = String_toLowerCase s /\ isLowerIdentifier (normalizeUsername s) = true.
Proof.
  unfold isIdentifier. intros E.
  apply andb_true_iff in E. destruct E as [E E3].
  apply andb_true_iff in E. destruct E as [E1 E2].
  assert (Hn : normalizeUsername s = String_toLowerCase s).
  { apply normalizeUsername_clean.
    - destruct s as [|a t]; [reflexivity|]. simpl in E1.
      apply andb_true_iff in E1. destruct E1 as [Ea _].
      unfold frontClean, isAt. simpl.
      rewrite (isUsernameChar_not_space _ Ea), (isUsernameChar_not_at _ Ea). reflexivity.
    - unfold lastIs. destruct (rev s) as [|a t] eqn:Er; [reflexivity|]. simpl.
      apply isUsernameChar_not_space.
      rewrite forallb_forall in E1. apply E1. apply in_rev. rewrite Er. left. reflexivity. }
  split; [exact Hn|]. rewrite Hn. unfold isLowerIdentifier, String_toLowerCase.
  rewrite length_map, E2, E3, !andb_true_r.
  rewrite forallb_forall in *. intros c Hc. apply in_map_iff in Hc.
  destruct Hc as [a [<- Ha]]. apply isUsernameChar_toLowerUnit, E1, Ha.
Qed.

(* ================================================================== *)
(** * The markup parser (claims C5 and C10) *)
(* ================================================================== *)

Section Markup.

Context {collator : Collator}.
Variable DOMParser : option (jsstring -> outcome (list Anchor)).

Lemma parseHtml_usernames (htmlText : jsstring) :
  usernames (parseInstagramRelationshipHtml DOMParser htmlText)
  = uniqueSorted (plausibleCandidates DOMParser htmlText).
Proof. reflexivity. Qed.

Lemma plausibleCandidates_identifier (htmlText u : jsstring) :
  In u (plausibleCandidates DOMParser htmlText) -> isIdentifier u = true.
Proof.
  unfold plausibleCandidates. rewrite filter_In, test_plausibleRe. tauto.
Qed.

Lemma uniqueSorted_nil_iff (l : list jsstring) :
  (forall u, In u l -> isIdentifier u = true) ->
  (length (uniqueSorted l) =? 0) = match l with [] => true | _ :: _ => false end.
Proof.
  intros H. destruct l as [|u t]; [reflexivity|].
  apply Nat.eqb_neq. intros Hz. apply length_zero_iff_nil in Hz.
  assert (Hin : In (normalizeUsername u) (uniqueSorted (u :: t))).
  { apply uniqueSorted_In. split.
    - destruct (normalizeUsername_identifier u (H u (or_introl eq_refl))) as [_ Hl].
      intros Hnil. rewrite Hnil in Hl. discriminate.
    - exists u. split; [left; reflexivity | reflexivity]. }
  rewrite Hz in Hin. exact Hin.
Qed.

End Markup.

Lemma htmlCandidates_noAnchors (DOMParser : option (jsstring -> outcome (list Anchor)))
    (htmlText : jsstring) :
  noAnchors DOMParser htmlText ->
  htmlCandidates DOMParser htmlText = htmlCandidates None htmlText.
Proof.
  unfold noAnchors, htmlCandidates. destruct DOMParser as [parseAnchors|]; [|reflexivity].
  intros [-> | ->]; reflexivity.
Qed.

(** C10: every identifier the markup parser returns is a non-empty string
    of at most 30 code units, all in [[a-z0-9._]]. *)
Theorem parseHtml_lower_identifiers {collator : Collator}
    (DOMParser : option (jsstring -> outcome (list Anchor))) (htmlText : jsstring) :
  Forall (fun u => u <> [] /\ length u <= 30 /\ forallb isLowerUsernameChar u = true)
         (usernames (parseInstagramRelationshipHtml DOMParser htmlText)).
Proof.
  apply Forall_forall. intros x Hx.
  rewrite parseHtml_usernames in Hx. apply uniqueSorted_In in Hx.
  destruct Hx as [Hne [u [Hu <-]]].
  apply plausibleCandidates_identifier in Hu.
  destruct (normalizeUsername_identifier u Hu) as [_ Hl].
  unfold isLowerIdentifier in Hl.
  apply andb_true_iff in Hl. destruct Hl as [Hl H3].
  apply andb_true_iff in Hl. destruct Hl as [H1 H2].
  apply Nat.leb_le in H3. auto.
Qed.

(** C5: the markup parser returns kind unknown; its warnings open with the
    markup-import notice, followed by the second notice exactly when no
    candidate passes the filter; and on the example text, when the anchor
    pass adds nothing and the collation does not put "dave" after "erin" nor
    "erin" after "frank", the identifiers are dave, erin, frank. *)
Theorem parseHtml_kind_and_warnings :
  (forall (collator : Collator) (DOMParser : option (jsstring -> outcome (list Anchor)))
          (htmlText : jsstring),
     let result := parseInstagramRelationshipHtml DOMParser htmlText in
     kind result = kUnknown
     /\ hd_error (warnings result) = Some msgHtmlImported
     /\ warnings result =
        match plausibleCandidates DOMParser htmlText with
        | [] => [msgHtmlImported; msgHtmlEmpty]
        | _ :: _ => [msgHtmlImported]
        end)
  /\ (forall (collator : Collator) (DOMParser : option (jsstring -> outcome (list Anchor))),
        noAnchors DOMParser exampleMarkup ->
        localeCompare "dave" "erin" <> Gt ->
        localeCompare "erin" "frank" <> Gt ->
        let result := parseInstagramRelationshipHtml DOMParser exampleMarkup in
        usernames result = ["dave"; "erin"; "frank"] /\ kind result = kUnknown).
Proof.
  split.
  - intros collator DOMParser htmlText result.
    assert (Hw : warnings result =
                 match plausibleCandidates DOMParser htmlText with
                 | [] => [msgHtmlImported; msgHtmlEmpty]
                 | _ :: _ => [msgHtmlImported]
                 end).
    { unfold result, parseInstagramRelationshipHtml. cbn [warnings].
      fold (plausibleCandidates DOMParser htmlText).
      rewrite (uniqueSorted_nil_iff (plausibleCandidates DOMParser htmlText)
                 (plausibleCandidates_identifier DOMParser htmlText)).
      destruct (plausibleCandidates DOMParser htmlText); reflexivity. }
    split; [reflexivity|]. split; [|exact Hw].
    rewrite Hw. destruct (plausibleCandidates DOMParser htmlText); reflexivity.
  - intros collator DOMParser Hdom H1 H2 result. split; [|reflexivity].
    unfold result. rewrite parseHtml_usernames. unfold plausibleCandidates.
    rewrite (htmlCandidates_noAnchors _ _ Hdom).
    replace (filter (RegExp_test plausibleRe) (htmlCandidates None exampleMarkup))
      with ["Dave"; "erin"; "Frank"] by (vm_compute; reflexivity).
    rewrite uniqueSorted_unfold.
    replace (normalizedSet ["Dave"; "erin"; "Frank"] []) with ["dave"; "erin"; "frank"]
      by (vm_compute; reflexivity).
    cbn [Array_sort fold_right insertSorted].
    destruct (localeCompare "erin" "frank") eqn:E2; try congruence;
      cbn [insertSorted];
      destruct (localeCompare "dave" "erin") eqn:E1; try congruence; reflexivity.
Qed.

Lemma parseHtml_kind_and_warnings_witness :
  usernames (@parseInstagramRelationshipHtml codeUnitCollator None exampleMarkup)
  = ["dave"; "erin"; "frank"].
Proof.
  apply (proj2 parseHtml_kind_and_warnings codeUnitCollator None).
  - exact I.
  - vm_compute. discriminate.
  - vm_compute. discriminate.
Defined.

(* ================================================================== *)
(** * Facts about the entry extractor: it never throws *)
(* ================================================================== *)

Lemma valueLoop_returns (sld : list JsonValue) :
  valueLoop sld = Return (firstSome (itemString "value") sld).
Proof.
  induction sld as [|item t IH]; [reflexivity|].
  cbn [valueLoop firstSome].
  destruct item; cbn [isRecord negb getProp bind itemString]; try exact IH.
  destruct (ifTruthy (toStringOrNull (lookup "value" fields))); [reflexivity | exact IH].
Qed.

Lemma extractUsernameFromHref_truthy (href : jsstring) :
  ifTruthy (extractUsernameFromHref href) = extractUsernameFromHref href.
Proof.
  unfold extractUsernameFromHref.
  destruct (ifTruthy (String_match1 href hrefURe)) as [u|] eqn:E1.
  - unfold ifTruthy in *. destruct (String_match1 href hrefURe) as [v|]; [|discriminate].
    destruct (truthy v) eqn:Ev; [|discriminate]. injection E1 as <-. simpl. rewrite Ev. reflexivity.
  - destruct (ifTruthy (String_match1 href hrefRe)) as [u|] eqn:E2; [|reflexivity].
    unfold ifTruthy in *. destruct (String_match1 href hrefRe) as [v|]; [|discriminate].
    destruct (truthy v) eqn:Ev; [|discriminate]. injection E2 as <-. simpl. rewrite Ev. reflexivity.
Qed.

Lemma hrefLoop_returns (sld : list JsonValue) :
  hrefLoop sld = Return (firstSome itemHref sld).
Proof.
  induction sld as [|item t IH]; [reflexivity|].
  cbn [hrefLoop firstSome]. unfold itemHref at 1.
  destruct item; cbn [isRecord negb getProp bind itemString]; try exact IH.
  destruct (ifTruthy (toStringOrNull (lookup "href" fields))) as [href|]; [|exact IH].
  rewrite extractUsernameFromHref_truthy.
  destruct (extractUsernameFromHref href); [reflexivity | exact IH].
Qed.

Lemma extract_returns (entry : JsonValue) :
  extractUsernameFromRelationshipEntry entry = Return (extracted entry).
Proof.
  unfold extractUsernameFromRelationshipEntry.
  destruct entry; cbn [isRecord negb getProp bind extracted Array_isArray]; try reflexivity.
  destruct (Array_isArray (lookup "string_list_data" fields)) as [sld|]; [|reflexivity].
  rewrite valueLoop_returns. cbn [bind].
  destruct (firstSome (itemString "value") sld); [reflexivity|].
  destruct (ifTruthy (toStringOrNull (lookup "title" fields))); [reflexivity|].
  apply hrefLoop_returns.
Qed.

Lemma Array_map_returns {A B : Type} (f : A -> outcome B) (g : A -> B) (l : list A) :
  (forall a, f a = Return (g a)) -> Array_map f l = Return (map g l).
Proof.
  intros H. induction l as [|a t IH]; [reflexivity|].
  simpl. rewrite H, IH. reflexivity.
Qed.

Lemma extractUsernames_returns (entries : list JsonValue) :
  extractUsernames entries = Return (extractedUsernames entries).
Proof.
  unfold extractUsernames. rewrite (Array_map_returns _ extracted); [reflexivity|].
  apply extract_returns.
Qed.

Lemma Array_filterBoolean_In (l : list (option jsstring)) (u : jsstring) :
  In u (Array_filterBoolean l) <-> u <> [] /\ In (Some u) l.
Proof.
  induction l as [|o t IH]; simpl; [tauto|].
  destruct o as [[|c s]|]; simpl.
  - rewrite IH. split; [tauto|]. intros [Hu [H|H]]; [congruence | tauto].
  - rewrite IH. split.
    + intros [<-|[Hu H]]; [split; [discriminate | left; reflexivity] | tauto].
    + intros [Hu [H|H]]; [left; congruence | tauto].
  - rewrite IH. split; [tauto|]. intros [Hu [H|H]]; [discriminate | tauto].
Qed.

Lemma extractedUsernames_In (entries : list JsonValue) (u : jsstring) :
  In u (extractedUsernames entries)
  <-> u <> [] /\ exists entry, In entry entries /\ extracted entry = Some u.
Proof.
  unfold extractedUsernames. rewrite Array_filterBoolean_In, in_map_iff.
  split; intros [Hu [e He]]; (split; [exact Hu|]); exists e; tauto.
Qed.

(* ================================================================== *)
(** * The structured-data parser (claims C3 and C8) *)
(* ================================================================== *)

(** C3: on an object whose field [relationships_followers] is an array the
    parser returns kind followers and the identifiers extracted from that
    array, deduplicated and sorted; the example gives followers, ["alice"]
    and no warning. *)
Theorem parseJson_followers :
  (forall (collator : Collator) (fields : list (jsstring * JsonValue))
          (items : list JsonValue),
     lookup "relationships_followers" fields = Some (JArray items) ->
     exists raw,
       extractUsernames items = Return raw
       /\ (forall u, In u raw <->
             u <> [] /\ exists entry, In entry items
                        /\ extractUsernameFromRelationshipEntry entry = Return (Some u))
       /\ parseInstagramRelationshipJson (JObject fields)
          = Return {| kind := kFollowers;
                      usernames := uniqueSorted raw;
                      warnings := match raw with
                                  | [] => [msgNoFollowers]
                                  | _ :: _ => []
                                  end |})
  /\ (forall collator : Collator,
        parseInstagramRelationshipJson exampleFollowers
        = Return {| kind := kFollowers; usernames := ["alice"]; warnings := [] |}).
Proof.
  split; [|intros collator; reflexivity].
  intros collator fields items Hf.
  exists (extractedUsernames items).
  split; [apply extractUsernames_returns|]. split.
  - intros u. rewrite extractedUsernames_In.
    split; intros [Hu [e [He Hx]]]; (split; [exact Hu|]); exists e; (split; [exact He|]).
    + rewrite extract_returns, Hx. reflexivity.
    + rewrite extract_returns in Hx. injection Hx as Hx. exact Hx.
  - unfold parseInstagramRelationshipJson, recordBranch.
    cbn [isRecord getProp bind]. rewrite Hf. cbn [Array_isArray].
    rewrite extractUsernames_returns. cbn [bind].
    destruct (extractedUsernames items); reflexivity.
Qed.

Lemma parseJson_followers_witness :
  exists raw,
    extractUsernames [valueEntry "Bob"; valueEntry "@alice"] = Return raw
    /\ @parseInstagramRelationshipJson codeUnitCollator
         (JObject [("relationships_followers",
                    JArray [valueEntry "Bob"; valueEntry "@alice"])])
       = Return {| kind := kFollowers;
                   usernames := @uniqueSorted codeUnitCollator raw;
                   warnings := match raw with
                               | [] => [msgNoFollowers]
                               | _ :: _ => []
                               end |}.
Proof.
  destruct (proj1 parseJson_followers codeUnitCollator
              [("relationships_followers", JArray [valueEntry "Bob"; valueEntry "@alice"])]
              [valueEntry "Bob"; valueEntry "@alice"] eq_refl)
    as [raw [H1 [_ H3]]].
  exists raw. split; [exact H1 | exact H3].
Defined.

Section EntriesLoop.

Context {collator : Collator}.

Lemma entriesLoop_skip (warnings : list jsstring) (pre rest : list (jsstring * JsonValue)) :
  forallb (fun field => negb (yieldsUsernames field)) pre = true ->
  entriesLoop warnings (pre ++ rest) = entriesLoop warnings rest.
Proof.
  induction pre as [|[k v] pre IH]; [reflexivity|].
  cbn [forallb app entriesLoop]. intros H.
  apply andb_true_iff in H. destruct H as [Hkv Hpre].
  unfold yieldsUsernames in Hkv. cbn [fst snd] in Hkv.
  destruct (String_startsWith k "relationships_"); cbn [negb]; [|exact (IH Hpre)].
  destruct v; cbn [Array_isArray]; try exact (IH Hpre).
  rewrite extractUsernames_returns. cbn [bind].
  simpl in Hkv. apply negb_true_iff in Hkv. rewrite Hkv. exact (IH Hpre).
Qed.

Lemma entriesLoop_hit (warnings : list jsstring) (key : jsstring) (items : list JsonValue)
    (rest : list (jsstring * JsonValue)) :
  yieldsUsernames (key, JArray items) = true ->
  entriesLoop warnings ((key, JArray items) :: rest)
  = Return (Some {| kind := kUnknown;
                    usernames := uniqueSorted (extractedUsernames items);
                    warnings := warnings ++ [msgNonStandard key] |}).
Proof.
  unfold yieldsUsernames. cbn [fst snd entriesLoop]. intros H.
  apply andb_true_iff in H. destruct H as [-> Hn]. cbn [negb Array_isArray].
  rewrite extractUsernames_returns. cbn [bind]. rewrite Hn. reflexivity.
Qed.

End EntriesLoop.

(** C8, as the spec states it, fails: the scan follows the order of
    [Object.entries], not the lexical order of the keys. *)
Lemma parseJson_scan_not_lexical :
  spec_pickedField exampleTwoFields = Some ("relationships_a", JArray [valueEntry "Bob"])
  /\ @parseInstagramRelationshipJson codeUnitCollator (JObject exampleTwoFields)
     <> Return {| kind := kUnknown; usernames := ["bob"];
                  warnings := [msgNonStandard "relationships_a"] |}
  /\ @parseInstagramRelationshipJson codeUnitCollator (JObject exampleTwoFields)
     = Return {| kind := kUnknown; usernames := ["alice"];
                 warnings := [msgNonStandard "relationships_b"] |}.
Proof. split; [reflexivity|]. split; [vm_compute; discriminate | reflexivity]. Qed.

(** C8 (amended): on an object with neither a [relationships_followers] nor
    a [relationships_following] array, the parser scans the fields in the
    order [Object.entries] lists them, stops at the first array-valued field
    whose name starts with [relationships_] and that yields an identifier,
    and returns kind unknown with the warning naming that field. *)
Theorem parseJson_nonstandard_field {collator : Collator}
    (pre post : list (jsstring * JsonValue)) (key : jsstring) (items : list JsonValue) :
  let fields := pre ++ (key, JArray items) :: post in
  Array_isArray (lookup "relationships_followers" fields) = None ->
  Array_isArray (lookup "relationships_following" fields) = None ->
  forallb (fun field => negb (yieldsUsernames field)) pre = true ->
  yieldsUsernames (key, JArray items) = true ->
  exists raw,
    extractUsernames items = Return raw
    /\ parseInstagramRelationshipJson (JObject fields)
       = Return {| kind := kUnknown;
                   usernames := uniqueSorted raw;
                   warnings := [msgNonStandard key] |}.
Proof.
  intros fields H1 H2 Hpre Hkey.
  exists (extractedUsernames items). split; [apply extractUsernames_returns|].
  unfold parseInstagramRelationshipJson, recordBranch.
  cbn [isRecord getProp bind]. rewrite H1. cbn [bind]. rewrite H2.
  cbn [Object_entries]. unfold fields.
  rewrite (entriesLoop_skip _ _ _ Hpre), (entriesLoop_hit _ _ _ _ Hkey).
  reflexivity.
Qed.

Lemma parseJson_nonstandard_field_witness :
  exists raw,
    extractUsernames [valueEntry "Alice"] = Return raw
    /\ @parseInstagramRelationshipJson codeUnitCollator
         (JObject ([("media", JArray []); ("relationships_none", JArray [JNull])]
                   ++ ("relationships_b", JArray [valueEntry "Alice"])
                   :: [("relationships_a", JArray [valueEntry "Bob"])]))
       = Return {| kind := kUnknown;
                   usernames := @uniqueSorted codeUnitCollator raw;
                   warnings := [msgNonStandard "relationships_b"] |}.
Proof.
  apply (@parseJson_nonstandard_field codeUnitCollator
           [("media", JArray []); ("relationships_none", JArray [JNull])]
           [("relationships_a", JArray [valueEntry "Bob"])]
           "relationships_b" [valueEntry "Alice"]); reflexivity.
Defined.

(* ================================================================== *)
(** * Facts about the profile URL patterns *)
(* ================================================================== *)

Lemma matcher_Lit (s : jsstring) (i : nat) (l : jsstring) (c : option jsstring) (k : cont) :
  matcher (Lit s) (MState i l c) k =
  if String_startsWith l s then k (MState (i + length s) (skipn (length s) l) c) else None.
Proof.
  revert i l. induction s as [|a s IH]; intros i l.
  - simpl. rewrite Nat.add_0_r. destruct l; reflexivity.
  - change (Lit (a :: s)) with (Cat (Chr a) (Lit s)). rewrite matcher_Cat.
    destruct l as [|b t]; [reflexivity|].
    cbn [matcher rest String_startsWith].
    destruct (Ascii.eqb b a); [|reflexivity].
    cbn [andb]. unfold step. cbn [pos cap1]. rewrite IH. cbn [length skipn].
    replace (S i + length s) with (i + S (length s)) by lia. reflexivity.
Qed.

Lemma matcher_Chr (a : ascii) (x : mstate) (k : cont) :
  matcher (Chr a) x k =
  match rest x with
  | b :: t => if Ascii.eqb b a then k (step x t) else None
  | [] => None
  end.
Proof. reflexivity. Qed.

Lemma eqb_S_self (n : nat) : (S n =? n) = false.
Proof. apply Nat.eqb_neq. lia. Qed.

Lemma matcher_optSlash (y : mstate) :
  matcher (Opt (Chr "/")) y (fun y' => matcher Eps y' Some) = Some (optSlash y).
Proof.
  unfold Opt, optSlash. rewrite matcher_Rep_bounded, repeatMatcher_S. cbv zeta.
  rewrite matcher_Chr. destruct (rest y) as [|c t]; [reflexivity|].
  destruct (Ascii.eqb c "/"); [|reflexivity].
  change (pos (step y t)) with (S (pos y)).
  rewrite eqb_S_self, andb_false_r, repeatMatcher_0. reflexivity.
Qed.

Lemma cap1_optSlash (y : mstate) : cap1 (optSlash y) = cap1 y.
Proof.
  unfold optSlash. destruct (rest y) as [|c t]; [reflexivity|].
  destruct (Ascii.eqb c "/"); reflexivity.
Qed.

Lemma matcher_Grp (r : regex) (x : mstate) (k : cont) :
  matcher (Grp r) x k =
  matcher r x (fun y => k {| pos := pos y; rest := rest y;
                             cap1 := Some (firstn (pos y - pos x) (rest x)) |}).
Proof. reflexivity. Qed.

(** The pattern [lit([a-zA-Z0-9._]{1,30})\/?] tried at one index. *)
Lemma matchAt_segment (lit : jsstring) (i : nat) (l : jsstring) :
  option_map cap1 (matchAt (Seq [Lit lit; usernameGroup; Opt (Chr "/")]) i l) =
  if String_startsWith l lit then
    match run isUsernameChar 30 (skipn (length lit) l) with
    | [] => None
    | u => Some (Some u)
    end
  else None.
Proof.
  unfold matchAt, Seq. cbn [fold_right].
  rewrite matcher_Cat, matcher_Lit.
  destruct (String_startsWith l lit); [|reflexivity].
  rewrite matcher_Cat. unfold usernameGroup.
  rewrite matcher_Grp, matcher_Rep_bounded. cbn [pos rest].
  set (l' := skipn (length lit) l).
  destruct (run isUsernameChar 30 l') as [|a u] eqn:Er.
  - rewrite repeat_class_fail; [reflexivity | lia |].
    intros j Hj. rewrite Er in Hj. simpl in Hj. lia.
  - rewrite (@repeat_class_greedy isUsernameChar 30 1 _ l' None _
               (optSlash {| pos := i + length lit + length (a :: u);
                            rest := skipn (length (a :: u)) l';
                            cap1 := Some (firstn (i + length lit + length (a :: u)
                                                  - (i + length lit)) l') |})).
    + cbn [option_map]. rewrite cap1_optSlash. cbn [cap1].
      replace (i + length lit + length (a :: u) - (i + length lit))
        with (length (a :: u)) by lia.
      rewrite <- Er, run_prefix. reflexivity.
    + rewrite Er. cbn [length]. lia.
    + rewrite Er. cbn [pos rest]. rewrite matcher_Cat, matcher_optSlash. reflexivity.
Qed.

Lemma searchFrom_segment (lit : jsstring) (i : nat) (l : jsstring) :
  match searchFrom (Seq [Lit lit; usernameGroup; Opt (Chr "/")]) i l with
  | Some (_, y) => cap1 y
  | None => None
  end = segmentAfter lit l.
Proof.
  revert i. induction l as [|b t IH]; intros i.
  - cbn [searchFrom segmentAfter].
    pose proof (matchAt_segment lit i []) as H.
    destruct (matchAt (Seq [Lit lit; usernameGroup; Opt (Chr "/")]) i []) as [y|];
      cbn [option_map] in H.
    + destruct (String_startsWith [] lit); [|discriminate].
      destruct (run isUsernameChar 30 (skipn (length lit) [])); [discriminate|].
      injection H as H. exact H.
    + destruct (String_startsWith [] lit); [|reflexivity].
      destruct (run isUsernameChar 30 (skipn (length lit) [])); [reflexivity | discriminate].
  - cbn [searchFrom segmentAfter].
    pose proof (matchAt_segment lit i (b :: t)) as H.
    destruct (matchAt (Seq [Lit lit; usernameGroup; Opt (Chr "/")]) i (b :: t)) as [y|];
      cbn [option_map] in H.
    + destruct (String_startsWith (b :: t) lit); [|discriminate].
      destruct (run isUsernameChar 30 (skipn (length lit) (b :: t))); [discriminate|].
      injection H as H. exact H.
    + destruct (String_startsWith (b :: t) lit); [|apply IH].
      destruct (run isUsernameChar 30 (skipn (length lit) (b :: t))); [apply IH | discriminate].
Qed.

Lemma String_match1_segment (lit href : jsstring) :
  String_match1 href (Seq [Lit lit; usernameGroup; Opt (Chr "/")]) = segmentAfter lit href.
Proof.
  unfold String_match1, RegExp_exec. rewrite <- (searchFrom_segment lit 0 href).
  destruct (searchFrom _ 0 href) as [[i y]|]; reflexivity.
Qed.

Lemma segmentAfter_truthy (lit s : jsstring) :
  ifTruthy (segmentAfter lit s) = segmentAfter lit s.
Proof.
  induction s as [|b t IH]; cbn [segmentAfter].
  - destruct (if String_startsWith [] lit then _ else _); reflexivity.
  - destruct (if String_startsWith (b :: t) lit then _ else _); [exact IH | reflexivity].
Qed.

Lemma extractUsernameFromHref_segments (href : jsstring) :
  extractUsernameFromHref href =
  match segmentAfter "instagram.com/_u/" href with
  | Some u => Some u
  | None => segmentAfter "instagram.com/" href
  end.
Proof.
  unfold extractUsernameFromHref, hrefURe, hrefRe.
  rewrite !String_match1_segment, !segmentAfter_truthy.
  destruct (segmentAfter "instagram.com/_u/" href); [reflexivity|].
  destruct (segmentAfter "instagram.com/" href); reflexivity.
Qed.

Lemma String_startsWith_app (s p : jsstring) :
  String_startsWith s p = true -> s = p ++ skipn (length p) s.
Proof.
  revert s. induction p as [|a p IH]; intros s; [reflexivity|].
  destruct s as [|b s]; simpl; [discriminate|].
  intros H. apply andb_true_iff in H. destruct H as [Hab Hs].
  apply Ascii.eqb_eq in Hab. subst. f_equal. apply IH, Hs.
Qed.

Lemma run_maximal (p : ascii -> bool) (n : nat) (l : jsstring) :
  l = run p n l ++ skipn (length (run p n l)) l
  /\ (length (run p n l) = n \/ headIs p (skipn (length (run p n l)) l) = false).
Proof.
  revert l. induction n as [|n IH]; intros l.
  - simpl. destruct l; auto.
  - destruct l as [|c t]; [simpl; auto|].
    simpl. destruct (p c) eqn:E; simpl.
    + destruct (IH t) as [H1 H2]. split; [f_equal; exact H1|].
      destruct H2 as [H2|H2]; [left; lia | right; exact H2].
    + split; [reflexivity|]. right. exact E.
Qed.

Lemma run_identifier (l : jsstring) :
  run isUsernameChar 30 l <> [] -> isIdentifier (run isUsernameChar 30 l) = true.
Proof.
  intros H. unfold isIdentifier.
  rewrite run_forallb. destruct (run_length isUsernameChar 30 l) as [Hn _].
  apply andb_true_iff. split; [|apply Nat.leb_le, Hn].
  destruct (run isUsernameChar 30 l); [congruence | reflexivity].
Qed.

(** What [segmentAfter] finds is an identifier that follows [lit] in [s] and
    is cut only by the bound of 30 or by a character outside the class. *)
Lemma segmentAfter_spec (lit s : jsstring) :
  match segmentAfter lit s with
  | Some u =>
      isIdentifier u = true
      /\ exists pre post,
           s = pre ++ lit ++ u ++ post
           /\ (length u = 30 \/ headIs isUsernameChar post = false)
  | None => True
  end.
Proof.
  induction s as [|b t IH]; cbn [segmentAfter].
  - destruct (String_startsWith [] lit) eqn:Es.
    + destruct (run isUsernameChar 30 (skipn (length lit) [])) as [|a u] eqn:Er; [exact I|].
      split; [rewrite <- Er; apply run_identifier; congruence|].
      destruct (run_maximal isUsernameChar 30 (skipn (length lit) [])) as [H1 H2].
      exists [], (skipn (length (a :: u)) (skipn (length lit) [])).
      rewrite Er in H1, H2. split; [|exact H2].
      rewrite app_nil_l, <- H1. apply String_startsWith_app, Es.
    + exact I.
  - destruct (String_startsWith (b :: t) lit) eqn:Es.
    + destruct (run isUsernameChar 30 (skipn (length lit) (b :: t))) as [|a u] eqn:Er.
      * destruct (segmentAfter lit t) as [v|]; [|exact I].
        destruct IH as [Hv [pre [post [Ht Hm]]]].
        split; [exact Hv|]. exists (b :: pre), post. rewrite Ht. split; [reflexivity | exact Hm].
      * split; [rewrite <- Er; apply run_identifier; congruence|].
        destruct (run_maximal isUsernameChar 30 (skipn (length lit) (b :: t))) as [H1 H2].
        exists [], (skipn (length (a :: u)) (skipn (length lit) (b :: t))).
        rewrite Er in H1, H2. split; [|exact H2].
        rewrite app_nil_l, <- H1. apply String_startsWith_app, Es.
    + destruct (segmentAfter lit t) as [v|]; [|exact I].
      destruct IH as [Hv [pre [post [Ht Hm]]]].
      split; [exact Hv|]. exists (b :: pre), post. rewrite Ht. split; [reflexivity | exact Hm].
Qed.

(* ================================================================== *)
(** * Facts about the aggregator's loop *)
(* ================================================================== *)

Lemma extend_nil (acc : Acc) : extend acc [] [] = acc.
Proof. destruct acc. unfold extend. simpl. rewrite app_nil_r. reflexivity. Qed.

Lemma extend_extend (acc : Acc) (us1 ws1 us2 ws2 : list jsstring) :
  extend (extend acc us1 ws1) us2 ws2 = extend acc (us1 ++ us2) (ws1 ++ ws2).
Proof.
  unfold extend. cbn [combined combinedWarnings].
  rewrite fold_left_app, app_assoc. reflexivity.
Qed.

Lemma pushWarnings_extend (acc : Acc) (ws : list jsstring) :
  pushWarnings acc ws = extend acc [] ws.
Proof. reflexivity. Qed.

Lemma addAll_extend (acc : Acc) (us : list jsstring) :
  addAll acc us = extend acc us [].
Proof. unfold addAll, extend. rewrite app_nil_r. reflexivity. Qed.

Lemma Set_add_present (s : JSSet) (v : jsstring) : In v s -> Set_add s v = s.
Proof. intros H. apply Set_has_In in H. unfold Set_add. rewrite H. reflexivity. Qed.

Lemma Set_add_absent (s : JSSet) (v : jsstring) : ~ In v s -> Set_add s v = s ++ [v].
Proof. intros H. apply Set_has_false in H. unfold Set_add. rewrite H. reflexivity. Qed.

Lemma Set_add_fold_comm (t s : JSSet) (u : jsstring) :
  fold_left Set_add (Set_add t u) s = Set_add (fold_left Set_add t s) u.
Proof.
  destruct (in_dec (list_eq_dec ascii_dec) u t) as [Hin|Hout].
  - rewrite (Set_add_present _ _ Hin), Set_add_present; [reflexivity|].
    apply fold_Set_add_In. right. exact Hin.
  - rewrite (Set_add_absent _ _ Hout), fold_left_app. reflexivity.
Qed.

Lemma fold_Set_add_twice (us t s : JSSet) :
  fold_left Set_add (fold_left Set_add us t) s
  = fold_left Set_add us (fold_left Set_add t s).
Proof.
  revert t. induction us as [|u us IH]; intros t; [reflexivity|].
  cbn [fold_left]. rewrite IH, Set_add_fold_comm. reflexivity.
Qed.

Lemma extend_Set_new (acc : Acc) (us ws : list jsstring) :
  extend acc (Set_new us) ws = extend acc us ws.
Proof.
  unfold extend, Set_new. rewrite fold_Set_add_twice. reflexivity.
Qed.

Section Aggregator.

Context {collator : Collator}.
Variable DOMParser : option (jsstring -> outcome (list Anchor)).
Variable JSON_parse : jsstring -> outcome JsonValue.

Lemma htmlBranch_extends (expected : Expected) (fileName text : jsstring) :
  exists us ws, forall acc,
    htmlBranch DOMParser expected fileName text acc = extend acc us ws.
Proof.
  unfold htmlBranch.
  destruct (length (usernames (parseInstagramRelationshipHtml DOMParser text)) =? 0).
  - eexists [], _. intros acc. apply pushWarnings_extend.
  - destruct expected.
    + destruct (String_includes (String_toLowerCase fileName) "following");
        eexists _, _; intros acc;
        rewrite ?pushWarnings_extend, addAll_extend, ?extend_extend; reflexivity.
    + destruct (String_includes (String_toLowerCase fileName) "followers");
        eexists _, _; intros acc;
        rewrite ?pushWarnings_extend, addAll_extend, ?extend_extend; reflexivity.
Qed.

Lemma jsonBranch_extends (expected : Expected) (fileName text : jsstring) :
  (forall acc, jsonBranch JSON_parse expected fileName text acc = Throw)
  \/ exists us ws, forall acc,
       jsonBranch JSON_parse expected fileName text acc = Return (extend acc us ws).
Proof.
  unfold jsonBranch. destruct (JSON_parse text) as [json|]; [|left; reflexivity].
  cbn [bind]. destruct (parseInstagramRelationshipJson json) as [result|];
    [|left; reflexivity].
  right. cbn [bind].
  destruct (length (usernames result) =? 0).
  - eexists [], _. intros acc. rewrite pushWarnings_extend. reflexivity.
  - destruct (negb (kind_eqb (kind result) kUnknown)
              && negb (kind_eqb (kind result) (kindOfExpected expected)));
      eexists _, _; intros acc;
      rewrite ?pushWarnings_extend, addAll_extend, ?extend_extend; reflexivity.
Qed.

Lemma processFile_extends (expected : Expected) (file : File) :
  exists us ws, forall acc,
    processFile DOMParser JSON_parse expected acc file = extend acc us ws.
Proof.
  unfold processFile, tryBlock. destruct (text file) as [t|].
  - cbn [bind].
    destruct (RegExp_test looksLikeHtmlRe t
              || (String_endsWith (String_toLowerCase (name file)) ".html"
                  || String_endsWith (String_toLowerCase (name file)) ".htm")).
    + destruct (htmlBranch_extends expected (name file) t) as [us [ws H]].
      exists us, ws. intros acc. rewrite H. reflexivity.
    + destruct (jsonBranch_extends expected (name file) t) as [H|[us [ws H]]].
      * eexists [], _. intros acc. rewrite H. apply pushWarnings_extend.
      * exists us, ws. intros acc. rewrite H. reflexivity.
  - eexists [], _. intros acc. apply pushWarnings_extend.
Qed.

(** One iteration adds the file's identifiers and pushes its warnings,
    whatever the accumulator holds. *)
Lemma processFile_contribution (expected : Expected) (acc : Acc) (file : File) :
  processFile DOMParser JSON_parse expected acc file
  = extend acc (fileUsernames DOMParser JSON_parse expected file) (fileWarnings DOMParser JSON_parse expected file).
Proof.
  destruct (processFile_extends expected file) as [us [ws H]].
  unfold fileUsernames, fileWarnings, contribution. rewrite !H.
  change (combined (extend emptyAcc us ws)) with (Set_new us).
  change (combinedWarnings (extend emptyAcc us ws)) with ws.
  rewrite extend_Set_new. reflexivity.
Qed.

(** The loop, in closed form. *)
Lemma loop_contributions (expected : Expected) (files : list File) (acc : Acc) :
  fold_left (processFile DOMParser JSON_parse expected) files acc
  = extend acc (flat_map (fileUsernames DOMParser JSON_parse expected) files)
               (flat_map (fileWarnings DOMParser JSON_parse expected) files).
Proof.
  revert acc. induction files as [|f files IH]; intros acc.
  - symmetry. apply extend_nil.
  - cbn [fold_left flat_map]. rewrite IH, processFile_contribution, extend_extend.
    reflexivity.
Qed.

Lemma handleFiles_closed_form (expected : Expected) (files : list File)
    (setList : option (list jsstring) -> AppState -> AppState) (st : AppState) :
  handleFiles DOMParser JSON_parse (Some files) setList expected st =
  match files, mergedUsernames DOMParser JSON_parse expected files with
  | [], _ => setList None (cleared st)
  | _ :: _, [] =>
      setList None
        (setError (Some msgNoUsernames)
           (setWarnings (flat_map (fileWarnings DOMParser JSON_parse expected) files) (cleared st)))
  | _ :: _, merged =>
      setList (Some merged)
        (setWarnings (flat_map (fileWarnings DOMParser JSON_parse expected) files) (cleared st))
  end.
Proof.
  destruct files as [|f files]; [reflexivity|].
  unfold handleFiles. rewrite loop_contributions.
  unfold extend. cbn [combined combinedWarnings app Array_from].
  fold (Set_new (flat_map (fileUsernames DOMParser JSON_parse expected) (f :: files))).
  fold (mergedUsernames DOMParser JSON_parse expected (f :: files)).
  destruct (mergedUsernames DOMParser JSON_parse expected (f :: files)) as [|u merged]; [reflexivity|].
  cbn [length Nat.eqb].
  destruct (flat_map (fileWarnings DOMParser JSON_parse expected) (f :: files)); reflexivity.
Qed.

End Aggregator.

(* ================================================================== *)
(** * The aggregator (claims C2 and C9) *)
(* ================================================================== *)

Lemma processFile_decodeFails {collator : Collator}
    (DOMParser : option (jsstring -> outcome (list Anchor)))
    (JSON_parse : jsstring -> outcome JsonValue)
    (expected : Expected) (acc : Acc) (file : File) :
  decodeFails JSON_parse file ->
  processFile DOMParser JSON_parse expected acc file
  = pushWarnings acc [msgNotJson (name file)].
Proof.
  intros [t [Ht [Hm Hj]]]. unfold processFile, tryBlock. rewrite Ht. cbn [bind].
  unfold isMarkup in Hm. rewrite Hm. unfold jsonBranch. rewrite Hj. reflexivity.
Qed.

(** C2: a file on which [JSON.parse] throws adds one warning naming it and
    nothing else, and the loop goes on through every file of the batch,
    pushing the warnings in file order; the list is set to null, the
    failure signal that blocks the diff, exactly when the merged identifier
    sequence is empty, and the error message is set then unless the batch
    is empty; a batch of one such file and one file yielding ["alice"]
    gives ["alice"], no failure, and the decode warning. *)
Theorem handleFiles_partial_failure :
  forall (collator : Collator)
         (DOMParser : option (jsstring -> outcome (list Anchor)))
         (JSON_parse : jsstring -> outcome JsonValue),
  (forall expected acc file,
     decodeFails JSON_parse file ->
     processFile DOMParser JSON_parse expected acc file
     = pushWarnings acc [msgNotJson (name file)])
  /\ (forall expected files acc,
        fold_left (processFile DOMParser JSON_parse expected) files acc
        = extend acc (flat_map (fileUsernames DOMParser JSON_parse expected) files)
                     (flat_map (fileWarnings DOMParser JSON_parse expected) files))
  /\ (forall expected setList st,
        handleFiles DOMParser JSON_parse None setList expected st
        = setList None (cleared st))
  /\ (forall expected files setList st,
        handleFiles DOMParser JSON_parse (Some files) setList expected st =
        match files, mergedUsernames DOMParser JSON_parse expected files with
        | [], _ => setList None (cleared st)
        | _ :: _, [] =>
            setList None
              (setError (Some msgNoUsernames)
                 (setWarnings (flat_map (fileWarnings DOMParser JSON_parse expected) files)
                              (cleared st)))
        | _ :: _, merged =>
            setList (Some merged)
              (setWarnings (flat_map (fileWarnings DOMParser JSON_parse expected) files)
                           (cleared st))
        end)
  /\ (forall expected files st,
        (st_followers (handleFiles DOMParser JSON_parse (Some files) setFollowers expected st)
           = None
         <-> mergedUsernames DOMParser JSON_parse expected files = [])
        /\ (st_following (handleFiles DOMParser JSON_parse (Some files) setFollowing expected st)
              = None
            <-> mergedUsernames DOMParser JSON_parse expected files = [])
        /\ st_error (handleFiles DOMParser JSON_parse (Some files) setFollowers expected st)
           = match files, mergedUsernames DOMParser JSON_parse expected files with
             | _ :: _, [] => Some msgNoUsernames
             | _, _ => None
             end)
  /\ (forall bad good files st,
        decodeFails JSON_parse bad ->
        fileUsernames DOMParser JSON_parse expectFollowers good = ["alice"] ->
        files = [bad; good] \/ files = [good; bad] ->
        let st' := handleFiles DOMParser JSON_parse (Some files)
                     setFollowers expectFollowers st in
        st_followers st' = Some ["alice"]
        /\ st_error st' = None
        /\ In (msgNotJson (name bad)) (st_warnings st')).
Proof.
  intros collator DOMParser JSON_parse.
  split; [intros; apply processFile_decodeFails; assumption|].
  split; [intros; apply loop_contributions|].
  split; [reflexivity|].
  split; [intros; apply handleFiles_closed_form|].
  split.
  - intros expected files st. rewrite !handleFiles_closed_form.
    assert (Hnil : mergedUsernames DOMParser JSON_parse expected [] = []) by reflexivity.
    destruct files as [|f files].
    + rewrite Hnil. repeat split.
    + destruct (mergedUsernames DOMParser JSON_parse expected (f :: files));
        cbn [setFollowers setFollowing st_followers st_following];
        repeat split; intros H; try reflexivity; discriminate.
  - intros bad good files st Hbad Hgood Hfiles st'.
    assert (Hb : contribution DOMParser JSON_parse expectFollowers bad
                 = pushWarnings emptyAcc [msgNotJson (name bad)]).
    { apply processFile_decodeFails, Hbad. }
    assert (Hbu : fileUsernames DOMParser JSON_parse expectFollowers bad = []).
    { unfold fileUsernames. rewrite Hb. reflexivity. }
    assert (Hbw : fileWarnings DOMParser JSON_parse expectFollowers bad
                  = [msgNotJson (name bad)]).
    { unfold fileWarnings. rewrite Hb. reflexivity. }
    assert (Hm : mergedUsernames DOMParser JSON_parse expectFollowers files = ["alice"]).
    { unfold mergedUsernames.
      destruct Hfiles as [-> | ->]; cbn [flat_map]; rewrite Hbu, Hgood; reflexivity. }
    unfold st'. rewrite handleFiles_closed_form.
    destruct Hfiles as [-> | ->]; cbv iota; rewrite Hm;
      cbn [setFollowers setWarnings setError cleared st_followers st_error st_warnings
           flat_map];
      (split; [reflexivity|]); (split; [reflexivity|]); rewrite Hbw.
    + left. reflexivity.
    + apply in_or_app. right. left. reflexivity.
Qed.

Lemma handleFiles_partial_failure_witness :
  st_followers
    (@handleFiles codeUnitCollator None exampleDecoder
       (Some [exampleBadFile; exampleGoodFile]) setFollowers expectFollowers
       {| st_followers := None; st_following := None; st_warnings := []; st_error := None |})
  = Some ["alice"].
Proof.
  assert (Hbad : decodeFails exampleDecoder exampleBadFile).
  { exists "not json". repeat split; vm_compute; reflexivity. }
  assert (Hgood : @fileUsernames codeUnitCollator None exampleDecoder
                    expectFollowers exampleGoodFile = ["alice"]).
  { vm_compute. reflexivity. }
  exact (proj1 (proj2 (proj2 (proj2 (proj2 (proj2
           (handleFiles_partial_failure codeUnitCollator None exampleDecoder)))))
           exampleBadFile exampleGoodFile [exampleBadFile; exampleGoodFile]
           {| st_followers := None; st_following := None;
              st_warnings := []; st_error := None |} Hbad Hgood (or_introl eq_refl))).
Defined.

(* ================================================================== *)
(** ** Order independence *)
(* ================================================================== *)

Definition ignoringCollator : Collator := {|
  localeCompare := ignoringCompare;
  localeCompare_opp := fun a b =>
    codeUnitCompare_opp (withoutIgnorable a) (withoutIgnorable b);
  localeCompare_trans := fun a b c =>
    @codeUnitCompare_trans (withoutIgnorable a) (withoutIgnorable b) (withoutIgnorable c)
|}.

(** C9, as the spec states it, fails: two identifiers that the collation
    does not tell apart stay in the order in which the files brought them. *)
Lemma handleFiles_order_dependent :
  Permutation [exampleFileA; exampleFileB] [exampleFileB; exampleFileA]
  /\ st_followers
       (@handleFiles ignoringCollator None exampleTieDecoder
          (Some [exampleFileA; exampleFileB]) setFollowers expectFollowers emptyState)
     = Some [["a"%char; "001"%char]; "a"]
  /\ st_followers
       (@handleFiles ignoringCollator None exampleTieDecoder
          (Some [exampleFileB; exampleFileA]) setFollowers expectFollowers emptyState)
     = Some ["a"; ["a"%char; "001"%char]]
  /\ st_followers
       (@handleFiles ignoringCollator None exampleTieDecoder
          (Some [exampleFileA; exampleFileB]) setFollowers expectFollowers emptyState)
     <> st_followers
          (@handleFiles ignoringCollator None exampleTieDecoder
             (Some [exampleFileB; exampleFileA]) setFollowers expectFollowers emptyState).
Proof.
  split; [apply perm_swap|].
  split; [vm_compute; reflexivity|].
  split; [vm_compute; reflexivity|].
  vm_compute. discriminate.
Qed.

Lemma sorted_Permutation_eq {collator : Collator} (l1 l2 : list jsstring) :
  (forall a b, In a l1 -> In b l1 -> localeCompare a b = Eq -> a = b) ->
  StronglySorted notAfter l1 -> StronglySorted notAfter l2 ->
  Permutation l1 l2 -> l1 = l2.
Proof.
  revert l2. induction l1 as [|a t1 IH]; intros l2 Hanti H1 H2 Hp.
  - apply Permutation_nil in Hp. congruence.
  - destruct l2 as [|b t2]; [apply Permutation_sym, Permutation_nil in Hp; discriminate|].
    inversion H1 as [|? ? Hs1 Hf1]; subst. inversion H2 as [|? ? Hs2 Hf2]; subst.
    rewrite Forall_forall in Hf1, Hf2.
    assert (Hb : In b (a :: t1)) by
      (apply (Permutation_in _ (Permutation_sym Hp)); left; reflexivity).
    assert (Hab : a = b).
    { assert (Hle1 : notAfter a b).
      { destruct Hb as [->|Hin]; [|apply Hf1, Hin].
        unfold notAfter. pose proof (localeCompare_opp b b) as Ho.
        destruct (localeCompare b b); simpl in Ho; congruence. }
      assert (Hle2 : notAfter b a).
      { assert (Hin : In a (b :: t2)) by (apply (Permutation_in _ Hp); left; reflexivity).
        destruct Hin as [->|Hin]; [|apply Hf2, Hin].
        unfold notAfter. pose proof (localeCompare_opp a a) as Ho.
        destruct (localeCompare a a); simpl in Ho; congruence. }
      unfold notAfter in *. apply Hanti; [left; reflexivity | exact Hb |].
      pose proof (localeCompare_opp a b) as Ho.
      destruct (localeCompare a b); simpl in Ho; congruence. }
    subst b. f_equal. apply IH; [|exact Hs1 | exact Hs2 |].
    + intros x y Hx Hy. apply Hanti; right; assumption.
    + apply Permutation_cons_inv with a. exact Hp.
Qed.

Lemma Set_new_Permutation (l1 l2 : list jsstring) :
  Permutation l1 l2 -> Permutation (Set_new l1) (Set_new l2).
Proof.
  intros Hp. apply NoDup_Permutation.
  - apply fold_Set_add_NoDup. constructor.
  - apply fold_Set_add_NoDup. constructor.
  - intros x. unfold Set_new. rewrite !fold_Set_add_In. simpl.
    split; intros [[]|H]; right.
    + apply (Permutation_in _ Hp), H.
    + apply (Permutation_in _ (Permutation_sym Hp)), H.
Qed.

Lemma flat_map_Permutation {A B : Type} (f : A -> list B) (l1 l2 : list A) :
  Permutation l1 l2 -> Permutation (flat_map f l1) (flat_map f l2).
Proof.
  induction 1 as [|x l l' _ IH|x y l|l l' l'' _ IH1 _ IH2]; cbn [flat_map].
  - constructor.
  - apply Permutation_app_head, IH.
  - rewrite !app_assoc. apply Permutation_app_tail, Permutation_app_comm.
  - exact (Permutation_trans IH1 IH2).
Qed.

(** C9 (amended): for every order in which the files of a batch are
    processed the merged identifier sequence holds the same identifiers;
    when [localeCompare] returns zero on no two different identifiers of the
    batch, it is the same sequence, and so is what the aggregator stores. *)
Theorem handleFiles_order_independent {collator : Collator}
    (DOMParser : option (jsstring -> outcome (list Anchor)))
    (JSON_parse : jsstring -> outcome JsonValue)
    (expected : Expected) (files files' : list File) (st : AppState) :
  Permutation files files' ->
  Permutation (mergedUsernames DOMParser JSON_parse expected files)
              (mergedUsernames DOMParser JSON_parse expected files')
  /\ ((forall a b,
         In a (mergedUsernames DOMParser JSON_parse expected files) ->
         In b (mergedUsernames DOMParser JSON_parse expected files) ->
         localeCompare a b = Eq -> a = b) ->
      mergedUsernames DOMParser JSON_parse expected files
      = mergedUsernames DOMParser JSON_parse expected files'
      /\ st_followers (handleFiles DOMParser JSON_parse (Some files) setFollowers expected st)
         = st_followers (handleFiles DOMParser JSON_parse (Some files') setFollowers expected st)
      /\ st_following (handleFiles DOMParser JSON_parse (Some files) setFollowing expected st)
         = st_following (handleFiles DOMParser JSON_parse (Some files') setFollowing expected st)).
Proof.
  intros Hp.
  assert (Hperm : Permutation (mergedUsernames DOMParser JSON_parse expected files)
                              (mergedUsernames DOMParser JSON_parse expected files')).
  { unfold mergedUsernames. rewrite !Array_sort_Permutation.
    apply Set_new_Permutation, flat_map_Permutation, Hp. }
  split; [exact Hperm|]. intros Hanti.
  assert (Hm : mergedUsernames DOMParser JSON_parse expected files
               = mergedUsernames DOMParser JSON_parse expected files').
  { apply (@sorted_Permutation_eq collator _ _ Hanti); [| |exact Hperm];
      unfold mergedUsernames; apply Array_sort_sorted. }
  split; [exact Hm|].
  rewrite !handleFiles_closed_form.
  destruct files as [|f files], files' as [|f' files'].
  - split; reflexivity.
  - apply Permutation_nil in Hp. discriminate.
  - apply Permutation_sym, Permutation_nil in Hp. discriminate.
  - rewrite <- Hm.
    destruct (mergedUsernames DOMParser JSON_parse expected (f :: files));
      split; reflexivity.
Qed.

Lemma handleFiles_order_independent_witness :
  @mergedUsernames codeUnitCollator None exampleTieDecoder expectFollowers
    [exampleFileA; exampleFileB]
  = @mergedUsernames codeUnitCollator None exampleTieDecoder expectFollowers
      [exampleFileB; exampleFileA].
Proof.
  exact (proj1 (proj2 (@handleFiles_order_independent codeUnitCollator None
           exampleTieDecoder expectFollowers [exampleFileA; exampleFileB]
           [exampleFileB; exampleFileA] emptyState (perm_swap _ _ _))
           (fun a b _ _ => @codeUnitCompare_eq a b))).
Defined.

(* ================================================================== *)
(** * A top-level array, and the examples of the specification *)
(* ================================================================== *)

(** The key of an index is a decimal numeral, so it does not start with
    [relationships_]. *)
Lemma indexKey_not_relationships (i : nat) :
  String_startsWith (indexKey i) "relationships_" = false.
Proof.
  unfold indexKey. destruct (Nat.to_uint i); reflexivity.
Qed.

Lemma entriesLoop_index_keys {collator : Collator} (warnings : list jsstring)
    (keys : list nat) (items : list JsonValue) :
  entriesLoop warnings (combine (map indexKey keys) items) = Return None.
Proof.
  revert items. induction keys as [|i keys IH]; intros [|item items]; try reflexivity.
  cbn [map combine entriesLoop]. rewrite indexKey_not_relationships. apply IH.
Qed.

(** On an array the parser extracts from its elements and returns kind
    unknown. *)
Lemma parseJson_array {collator : Collator} (items : list JsonValue) :
  parseInstagramRelationshipJson (JArray items)
  = Return {| kind := kUnknown;
              usernames := uniqueSorted (extractedUsernames items);
              warnings := match extractedUsernames items with
                          | [] => [msgArrayEmpty]
                          | _ :: _ => []
                          end |}.
Proof.
  unfold parseInstagramRelationshipJson, recordBranch.
  cbn [isRecord getProp bind Array_isArray Object_entries].
  rewrite entriesLoop_index_keys. cbn [bind].
  rewrite extractUsernames_returns. cbn [bind].
  destruct (extractedUsernames items); reflexivity.
Qed.

(** [{"relationships_following":[{"string_list_data":[{}],"title":"Bob"}]}] *)
Example parseJson_title_fallback {collator : Collator} :
  parseInstagramRelationshipJson
    (JObject [("relationships_following",
               JArray [JObject [("string_list_data", JArray [JObject []]);
                                ("title", JString "Bob")]])])
  = Return {| kind := kFollowing; usernames := ["bob"]; warnings := [] |}.
Proof. reflexivity. Qed.

Example extract_href_fallback :
  extractUsernameFromRelationshipEntry
    (JObject [("string_list_data",
               JArray [JObject [("href", JString "https://www.instagram.com/_u/carol/")]])])
  = Return (Some "carol").
Proof. reflexivity. Qed.

Example parseJson_empty_object {collator : Collator} :
  parseInstagramRelationshipJson (JObject [])
  = Return {| kind := kUnknown; usernames := []; warnings := [msgUnrecognized] |}.
Proof. reflexivity. Qed.

Example extract_nothing :
  extractUsernameFromRelationshipEntry
    (JObject [("string_list_data", JArray [JObject [("timestamp", JNumber (QArith_base.Qmake 123%Z 1%positive))]])])
  = Return None.
Proof. reflexivity. Qed.

(** A batch whose only file fails to decode: the list is null and the error
    is set. *)
Example handleFiles_all_fail :
  @handleFiles codeUnitCollator None exampleDecoder (Some [exampleBadFile])
    setFollowers expectFollowers
    {| st_followers := Some ["old"]; st_following := None;
       st_warnings := []; st_error := None |}
  = {| st_followers := None; st_following := None;
       st_warnings := [msgNotJson "followers_1.json"];
       st_error := Some msgNoUsernames |}.
Proof. vm_compute. reflexivity. Qed.

(* ================================================================== *)
(** * More about the normalizer *)
(* ================================================================== *)

Lemma eqb_at_toLowerUnit (c : ascii) :
  Ascii.eqb (toLowerUnit c) "@" = Ascii.eqb c "@".
Proof. by_cases_on_unit c. Qed.

Lemma trimStart_toLowerCase (s : jsstring) :
  String_trimStart (String_toLowerCase s) = String_toLowerCase (String_trimStart s).
Proof.
  induction s as [|c t IH]; [reflexivity|].
  cbn [String_toLowerCase map String_trimStart].
  rewrite isWhiteSpace_toLowerUnit. destruct (isWhiteSpace c); [exact IH | reflexivity].
Qed.

Lemma trim_toLowerCase (s : jsstring) :
  String_trim (String_toLowerCase s) = String_toLowerCase (String_trim s).
Proof.
  unfold String_trim, String_trimEnd. rewrite trimStart_toLowerCase.
  unfold String_toLowerCase at 1. rewrite <- map_rev.
  fold (String_toLowerCase (rev (String_trimStart s))).
  rewrite trimStart_toLowerCase. unfold String_toLowerCase. rewrite map_rev. reflexivity.
Qed.

(** [normalizeUsername] does not look at the case of its argument, and
    leaves no capital in its result. *)
Theorem normalizeUsername_case_insensitive (x : jsstring) :
  normalizeUsername (String_toLowerCase x) = normalizeUsername x
  /\ String_toLowerCase (normalizeUsername x) = normalizeUsername x.
Proof.
  split; [|apply String_toLowerCase_normalize].
  unfold normalizeUsername. rewrite trim_toLowerCase, !replace_leadingAt.
  destruct (String_trim x) as [|c t]; [reflexivity|].
  cbn [String_toLowerCase map]. rewrite eqb_at_toLowerUnit.
  destruct (Ascii.eqb c "@").
  - apply String_toLowerCase_idem.
  - change (toLowerUnit c :: map toLowerUnit t) with (String_toLowerCase (c :: t)).
    apply String_toLowerCase_idem.
Qed.

Lemma trimStart_app_space (pad s : jsstring) :
  forallb isWhiteSpace pad = true -> String_trimStart (pad ++ s) = String_trimStart s.
Proof.
  induction pad as [|c pad IH]; [reflexivity|].
  cbn [forallb app String_trimStart]. intros H.
  apply andb_true_iff in H. destruct H as [-> H]. apply IH, H.
Qed.

Lemma trimStart_all_space (pad : jsstring) :
  forallb isWhiteSpace pad = true -> String_trimStart pad = [].
Proof.
  intros H. rewrite <- (app_nil_r pad). rewrite (trimStart_app_space _ [] H). reflexivity.
Qed.

Lemma trimEnd_app_space (s pad : jsstring) :
  forallb isWhiteSpace pad = true -> String_trimEnd (s ++ pad) = String_trimEnd s.
Proof.
  intros H. unfold String_trimEnd. rewrite rev_app_distr, trimStart_app_space; [reflexivity|].
  rewrite forallb_forall in *. intros c Hc. apply H, in_rev, Hc.
Qed.

Lemma trimStart_app_right (s pad : jsstring) :
  String_trimStart (s ++ pad) =
  match String_trimStart s with
  | [] => String_trimStart pad
  | _ :: _ => String_trimStart s ++ pad
  end.
Proof.
  induction s as [|c t IH]; [cbn; destruct (String_trimStart pad); reflexivity|].
  cbn [app String_trimStart]. destruct (isWhiteSpace c); [exact IH | reflexivity].
Qed.

Lemma trim_padding (pad1 x pad2 : jsstring) :
  forallb isWhiteSpace pad1 = true -> forallb isWhiteSpace pad2 = true ->
  String_trim (pad1 ++ x ++ pad2) = String_trim x.
Proof.
  intros H1 H2. unfold String_trim.
  rewrite (trimStart_app_space _ _ H1), trimStart_app_right.
  destruct (String_trimStart x) as [|c t] eqn:E.
  - rewrite (trimStart_all_space _ H2). reflexivity.
  - apply trimEnd_app_space, H2.
Qed.

(** White space around a token does not count: in front, behind, in any
    number. *)
Theorem normalizeUsername_padding (pad1 x pad2 : jsstring) :
  forallb isWhiteSpace pad1 = true -> forallb isWhiteSpace pad2 = true ->
  normalizeUsername (pad1 ++ x ++ pad2) = normalizeUsername x.
Proof.
  intros H1 H2. unfold normalizeUsername. rewrite trim_padding by assumption. reflexivity.
Qed.

Lemma normalizeUsername_padding_witness :
  normalizeUsername (["009"%char; " "%char] ++ "@Foo" ++ ["010"%char]) = normalizeUsername "@Foo".
Proof.
  apply normalizeUsername_padding; reflexivity.
Defined.

(** The tokens [uniqueSorted] drops: the normalizer returns the empty
    string exactly on the strings that are, once trimmed, empty or a lone
    [@]. *)
Theorem normalizeUsername_empty_iff (x : jsstring) :
  normalizeUsername x = [] <-> String_trim x = [] \/ String_trim x = "@".
Proof.
  unfold normalizeUsername. rewrite replace_leadingAt.
  destruct (String_trim x) as [|c t]; [cbn; tauto|].
  destruct (Ascii.eqb c "@") eqn:E.
  - apply Ascii.eqb_eq in E. subst c. destruct t; cbn; split; intros H.
    + right. reflexivity.
    + reflexivity.
    + discriminate.
    + destruct H; discriminate.
  - cbn. split; [discriminate|]. intros [H|H]; [discriminate|].
    injection H as -> _. discriminate.
Qed.

Lemma lastIs_cons (p : ascii -> bool) (c : ascii) (t : jsstring) :
  lastIs p (c :: t) = match t with [] => p c | _ :: _ => lastIs p t end.
Proof.
  unfold lastIs. cbn [rev]. destruct t as [|d u]; [reflexivity|].
  destruct (rev (d :: u)) as [|e v] eqn:E; [|reflexivity].
  apply (f_equal (@length ascii)) in E. rewrite length_rev in E. discriminate.
Qed.

(** The [@] that [copyList] and the result list put in front of a username
    is taken off again by the normalizer: a normalized username comes back
    unchanged. *)
Theorem normalizeUsername_at_prefix (x : jsstring) :
  normalizeUsername ("@" ++ normalizeUsername x) = normalizeUsername x.
Proof.
  set (u := normalizeUsername x).
  assert (Hl : lastIs isWhiteSpace ("@" ++ u) = false).
  { cbn [app]. rewrite lastIs_cons. destruct u eqn:E; [reflexivity|].
    rewrite <- E. apply normalizeUsername_last. }
  unfold normalizeUsername at 1.
  rewrite trim_clean; [|reflexivity|exact Hl].
  rewrite replace_leadingAt. cbn. apply String_toLowerCase_normalize.
Qed.

(* ================================================================== *)
(** * More about [uniqueSorted] and sorting *)
(* ================================================================== *)

Lemma Set_add_length (s : JSSet) (v : jsstring) : length (Set_add s v) <= S (length s).
Proof.
  unfold Set_add. destruct (Set_has s v); [lia|]. rewrite length_app. simpl. lia.
Qed.

Lemma normalizedSet_length (l : list jsstring) (s : JSSet) :
  length (normalizedSet l s) <= length l + length s.
Proof.
  revert s. induction l as [|u l IH]; intros s; [simpl; lia|].
  unfold normalizedSet in *. cbn [fold_left length].
  destruct (truthy (normalizeUsername u)).
  - pose proof (IH (Set_add s (normalizeUsername u))).
    pose proof (Set_add_length s (normalizeUsername u)). lia.
  - pose proof (IH s). lia.
Qed.

(** Sorting a sorted array changes nothing. *)
Lemma Array_sort_sorted_id {collator : Collator} (l : list jsstring) :
  StronglySorted notAfter l -> Array_sort localeCompare l = l.
Proof.
  induction 1 as [|x l Hs IH Hx]; [reflexivity|].
  cbn [Array_sort fold_right]. fold (Array_sort localeCompare l). rewrite IH.
  destruct l as [|y t]; [reflexivity|].
  cbn [insertSorted]. inversion Hx as [|? ? Hxy _]; subst.
  unfold notAfter in Hxy. destruct (localeCompare x y); [reflexivity | reflexivity | congruence].
Qed.

Lemma Set_new_NoDup_id (l : list jsstring) : NoDup l -> Set_new l = l.
Proof.
  intros H. unfold Set_new.
  assert (G : forall s, NoDup (s ++ l) -> fold_left Set_add l s = s ++ l).
  { clear H. induction l as [|u l IH]; intros s Hs; [simpl; rewrite app_nil_r; reflexivity|].
    cbn [fold_left]. rewrite Set_add_absent.
    - rewrite IH; rewrite <- app_assoc; [reflexivity | exact Hs].
    - apply NoDup_remove_2 in Hs. intros Hin. apply Hs. apply in_or_app. left. exact Hin. }
  apply (G []). exact H.
Qed.

(** [uniqueSorted] returns at most as many elements as it is given, and none
    exactly when every token normalizes to the empty string. *)
Theorem uniqueSorted_length_and_empty {collator : Collator} (raw : list jsstring) :
  length (uniqueSorted raw) <= length raw
  /\ (uniqueSorted raw = [] <-> forall u, In u raw -> normalizeUsername u = []).
Proof.
  split.
  - rewrite uniqueSorted_unfold.
    rewrite (Permutation_length (Array_sort_Permutation _)).
    pose proof (normalizedSet_length raw []). simpl in H. lia.
  - split.
    + intros E u Hu. destruct (normalizeUsername u) as [|c t] eqn:En; [reflexivity|].
      assert (Hin : In (c :: t) (uniqueSorted raw)).
      { apply uniqueSorted_In. split; [discriminate|]. exists u. auto. }
      rewrite E in Hin. destruct Hin.
    + intros H. destruct (uniqueSorted raw) as [|x l] eqn:E; [reflexivity|].
      assert (Hin : In x (uniqueSorted raw)) by (rewrite E; left; reflexivity).
      apply uniqueSorted_In in Hin. destruct Hin as [Hx [u [Hu Hn]]].
      rewrite (H u Hu) in Hn. congruence.
Qed.

(** On tokens that are their own normalized value the set [uniqueSorted]
    builds is the plain [Set] of the tokens. *)
Lemma normalizedSet_fixed (l : list jsstring) (s : JSSet) :
  (forall u, In u l -> u <> [] /\ normalizeUsername u = u) ->
  normalizedSet l s = fold_left Set_add l s.
Proof.
  revert s. induction l as [|u l IH]; intros s H; [reflexivity|].
  unfold normalizedSet in *. cbn [fold_left].
  destruct (H u (or_introl eq_refl)) as [Hne Hu]. rewrite Hu.
  destruct u; [congruence|]. cbn [truthy]. apply IH.
  intros v Hv. apply H. right. exact Hv.
Qed.

(* ================================================================== *)
(** * More about the structured-data parser *)
(* ================================================================== *)

Section ParserResults.

Context {collator : Collator}.

Lemma entriesLoop_returns (warnings : list jsstring) (entries : list (jsstring * JsonValue)) :
  entriesLoop warnings entries =
  Return (match find yieldsUsernames entries with
          | Some (key, JArray items) =>
              Some {| kind := kUnknown;
                      usernames := uniqueSorted (extractedUsernames items);
                      warnings := warnings ++ [msgNonStandard key] |}
          | _ => None
          end).
Proof.
  induction entries as [|[k v] entries IH]; [reflexivity|].
  cbn [find entriesLoop]. unfold yieldsUsernames at 1. cbn [fst snd].
  destruct (String_startsWith k "relationships_"); cbn [negb andb]; [|exact IH].
  destruct v; cbn [Array_isArray]; try exact IH.
  rewrite extractUsernames_returns. cbn [bind].
  destruct (0 <? length (extractedUsernames items)); [reflexivity | exact IH].
Qed.

Lemma find_yields_array (entries : list (jsstring * JsonValue)) (key : jsstring) (v : JsonValue) :
  find yieldsUsernames entries = Some (key, v) -> exists items, v = JArray items.
Proof.
  intros H. apply find_some in H. destruct H as [_ H].
  unfold yieldsUsernames in H. cbn [fst snd] in H.
  apply andb_true_iff in H. destruct H as [_ H].
  destruct v; try discriminate. eauto.
Qed.

End ParserResults.

Section ParserTheorems.

Context {collator : Collator}.

(** The parser on an object, branch by branch. *)
Lemma parseJson_object (fields : list (jsstring * JsonValue)) :
  parseInstagramRelationshipJson (JObject fields) =
  Return
    match Array_isArray (lookup "relationships_followers" fields) with
    | Some items =>
        {| kind := kFollowers; usernames := uniqueSorted (extractedUsernames items);
           warnings := match extractedUsernames items with
                       | [] => [msgNoFollowers]
                       | _ :: _ => []
                       end |}
    | None =>
        match Array_isArray (lookup "relationships_following" fields) with
        | Some items =>
            {| kind := kFollowing; usernames := uniqueSorted (extractedUsernames items);
               warnings := match extractedUsernames items with
                           | [] => [msgNoFollowing]
                           | _ :: _ => []
                           end |}
        | None =>
            match find yieldsUsernames fields with
            | Some (key, JArray items) =>
                {| kind := kUnknown; usernames := uniqueSorted (extractedUsernames items);
                   warnings := [msgNonStandard key] |}
            | _ => {| kind := kUnknown; usernames := []; warnings := [msgUnrecognized] |}
            end
        end
    end.
Proof.
  unfold parseInstagramRelationshipJson, recordBranch.
  cbn [isRecord getProp bind].
  destruct (Array_isArray (lookup "relationships_followers" fields)) as [items|].
  { rewrite extractUsernames_returns. cbn [bind].
    destruct (extractedUsernames items); reflexivity. }
  cbn [bind].
  destruct (Array_isArray (lookup "relationships_following" fields)) as [items|].
  { rewrite extractUsernames_returns. cbn [bind].
    destruct (extractedUsernames items); reflexivity. }
  cbn [Object_entries]. rewrite entriesLoop_returns. cbn [bind app].
  destruct (find yieldsUsernames fields) as [[key v]|]; [|reflexivity].
  destruct v; reflexivity.
Qed.

(** The parser never throws, whatever [JSON.parse] returned; the usernames
    of its result are duplicate-free, sorted, non-empty and free of capitals,
    and the result carries at most one warning. *)
Theorem parseJson_never_throws (json : JsonValue) :
  exists result,
    parseInstagramRelationshipJson json = Return result
    /\ NoDup (usernames result)
    /\ StronglySorted (fun a b => localeCompare a b <> Gt) (usernames result)
    /\ Forall (fun u => u <> [] /\ String_toLowerCase u = u) (usernames result)
    /\ length (warnings result) <= 1.
Proof.
  assert (G : forall raw, NoDup (uniqueSorted raw)
              /\ StronglySorted (fun a b => localeCompare a b <> Gt) (uniqueSorted raw)
              /\ Forall (fun u => u <> [] /\ String_toLowerCase u = u) (uniqueSorted raw)).
  { intros raw. split; [apply uniqueSorted_NoDup|]. split; [apply uniqueSorted_sorted|].
    apply Forall_forall. intros u Hu. apply uniqueSorted_In in Hu.
    destruct Hu as [Hne [x [_ <-]]]. split; [exact Hne | apply String_toLowerCase_normalize]. }
  assert (G0 : NoDup (@nil jsstring)
               /\ StronglySorted (fun a b => localeCompare a b <> Gt) []
               /\ Forall (fun u : jsstring => u <> [] /\ String_toLowerCase u = u) []).
  { repeat constructor. }
  destruct G0 as [N1 [N2 N3]].
  destruct json.
  - eexists. split; [reflexivity|]. cbn [usernames warnings]. repeat split; try assumption; simpl; lia.
  - eexists. split; [reflexivity|]. cbn [usernames warnings]. repeat split; try assumption; simpl; lia.
  - eexists. split; [reflexivity|]. cbn [usernames warnings]. repeat split; try assumption; simpl; lia.
  - eexists. split; [reflexivity|]. cbn [usernames warnings]. repeat split; try assumption; simpl; lia.
  - eexists. split; [apply parseJson_array|]. cbn [usernames warnings].
    destruct (G (extractedUsernames items)) as [H1 [H2 H3]].
    repeat split; try assumption. destruct (extractedUsernames items); simpl; lia.
  - eexists. split; [apply parseJson_object|].
    destruct (Array_isArray (lookup "relationships_followers" fields)) as [items|].
    { cbn [usernames warnings]. destruct (G (extractedUsernames items)) as [H1 [H2 H3]].
      repeat split; try assumption. destruct (extractedUsernames items); simpl; lia. }
    destruct (Array_isArray (lookup "relationships_following" fields)) as [items|].
    { cbn [usernames warnings]. destruct (G (extractedUsernames items)) as [H1 [H2 H3]].
      repeat split; try assumption. destruct (extractedUsernames items); simpl; lia. }
    destruct (find yieldsUsernames fields) as [[key v]|];
      [destruct v|]; cbn [usernames warnings];
      try (repeat split; try assumption; simpl; lia).
    destruct (G (extractedUsernames items)) as [H1 [H2 H3]].
    repeat split; try assumption. simpl. lia.
Qed.

(** Without a [relationships_followers] array, an array under
    [relationships_following] gives kind following and the identifiers
    extracted from it, with a warning exactly when nothing is extracted. *)
Theorem parseJson_following (fields : list (jsstring * JsonValue)) (items : list JsonValue) :
  Array_isArray (lookup "relationships_followers" fields) = None ->
  lookup "relationships_following" fields = Some (JArray items) ->
  exists raw,
    extractUsernames items = Return raw
    /\ parseInstagramRelationshipJson (JObject fields)
       = Return {| kind := kFollowing;
                   usernames := uniqueSorted raw;
                   warnings := match raw with
                               | [] => [msgNoFollowing]
                               | _ :: _ => []
                               end |}.
Proof.
  intros H1 H2. exists (extractedUsernames items).
  split; [apply extractUsernames_returns|].
  rewrite parseJson_object, H1, H2. reflexivity.
Qed.

(** A top-level array gives kind unknown and the identifiers extracted from
    its elements, with a warning exactly when nothing is extracted. *)
Theorem parseJson_top_level_array (items : list JsonValue) :
  exists raw,
    extractUsernames items = Return raw
    /\ parseInstagramRelationshipJson (JArray items)
       = Return {| kind := kUnknown;
                   usernames := uniqueSorted raw;
                   warnings := match raw with
                               | [] => [msgArrayEmpty]
                               | _ :: _ => []
                               end |}.
Proof.
  exists (extractedUsernames items).
  split; [apply extractUsernames_returns | apply parseJson_array].
Qed.

End ParserTheorems.

Lemma find_none_forallb {A : Type} (f : A -> bool) (l : list A) :
  forallb (fun a => negb (f a)) l = true -> find f l = None.
Proof.
  induction l as [|a l IH]; [reflexivity|]. cbn [forallb find]. intros H.
  apply andb_true_iff in H. destruct H as [Ha Hl].
  apply negb_true_iff in Ha. rewrite Ha. apply IH, Hl.
Qed.

(** Where nothing is recognized the parser returns kind unknown, no
    identifier, and the one warning that the format is not recognized. *)
Theorem parseJson_unrecognized {collator : Collator} (json : JsonValue) :
  unrecognized json = true ->
  parseInstagramRelationshipJson json
  = Return {| kind := kUnknown; usernames := []; warnings := [msgUnrecognized] |}.
Proof.
  destruct json; try reflexivity; try discriminate.
  cbn [unrecognized]. intros H. rewrite parseJson_object.
  destruct (Array_isArray (lookup "relationships_followers" fields)); [discriminate|].
  destruct (Array_isArray (lookup "relationships_following" fields)); [discriminate|].
  rewrite (find_none_forallb _ _ H). reflexivity.
Qed.

Lemma parseJson_following_witness :
  exists raw,
    extractUsernames [valueEntry "Bob"] = Return raw
    /\ @parseInstagramRelationshipJson codeUnitCollator
         (JObject [("relationships_followers", JString "none");
                   ("relationships_following", JArray [valueEntry "Bob"])])
       = Return {| kind := kFollowing;
                   usernames := @uniqueSorted codeUnitCollator raw;
                   warnings := match raw with
                               | [] => [msgNoFollowing]
                               | _ :: _ => []
                               end |}.
Proof.
  apply (@parseJson_following codeUnitCollator
           [("relationships_followers", JString "none");
            ("relationships_following", JArray [valueEntry "Bob"])]
           [valueEntry "Bob"]); reflexivity.
Defined.

Lemma parseJson_unrecognized_witness :
  @parseInstagramRelationshipJson codeUnitCollator
    (JObject [("relationships_none", JArray [JNull]); ("media", JString "x")])
  = Return {| kind := kUnknown; usernames := []; warnings := [msgUnrecognized] |}.
Proof.
  apply (@parseJson_unrecognized codeUnitCollator
           (JObject [("relationships_none", JArray [JNull]); ("media", JString "x")])).
  reflexivity.
Defined.

(* ================================================================== *)
(** * More about the entry extractor and the profile URLs *)
(* ================================================================== *)

Lemma ifTruthy_nonempty (o : option jsstring) (s : jsstring) :
  ifTruthy o = Some s -> s <> [].
Proof.
  destruct o as [[|c t]|]; cbn; try discriminate. intros H. injection H as <-. discriminate.
Qed.

Lemma firstSome_some {A : Type} (f : JsonValue -> option A) (sld : list JsonValue) (a : A) :
  firstSome f sld = Some a -> exists item, In item sld /\ f item = Some a.
Proof.
  induction sld as [|item t IH]; [discriminate|]. cbn [firstSome].
  destruct (f item) as [b|] eqn:E.
  - intros H. injection H as <-. exists item. split; [left; reflexivity | exact E].
  - intros H. destruct (IH H) as [i [Hi Hf]]. exists i. split; [right; exact Hi | exact Hf].
Qed.

Lemma segmentAfter_nonempty (lit s u : jsstring) : segmentAfter lit s = Some u -> u <> [].
Proof.
  intros H. pose proof (segmentAfter_spec lit s) as Hs. rewrite H in Hs.
  destruct Hs as [Hi _]. intros ->. discriminate.
Qed.

Lemma extractUsernameFromHref_nonempty (href u : jsstring) :
  extractUsernameFromHref href = Some u -> u <> [].
Proof.
  rewrite extractUsernameFromHref_segments.
  destruct (segmentAfter "instagram.com/_u/" href) as [v|] eqn:E.
  - intros H. injection H as <-. exact (segmentAfter_nonempty _ _ E).
  - apply segmentAfter_nonempty.
Qed.

(** The extractor never returns the empty string (and never throws): what
    [.filter(Boolean)] drops after it are the [null] results only. *)
Theorem extract_never_empty (entry : JsonValue) :
  match extractUsernameFromRelationshipEntry entry with
  | Return (Some u) => u <> []
  | Return None => True
  | Throw => False
  end.
Proof.
  rewrite extract_returns. destruct (extracted entry) as [u|] eqn:E; [|exact I].
  destruct entry; try discriminate. cbn [extracted] in E.
  destruct (Array_isArray (lookup "string_list_data" fields)) as [sld|]; [|discriminate].
  destruct (firstSome (itemString "value") sld) as [v|] eqn:Ev.
  - injection E as <-. apply firstSome_some in Ev. destruct Ev as [item [_ Hi]].
    destruct item; try discriminate. exact (ifTruthy_nonempty _ Hi).
  - destruct (ifTruthy (toStringOrNull (lookup "title" fields))) as [t|] eqn:Et.
    + injection E as <-. exact (ifTruthy_nonempty _ Et).
    + apply firstSome_some in E. destruct E as [item [_ Hi]].
      unfold itemHref in Hi. destruct (itemString "href" item); [|discriminate].
      exact (extractUsernameFromHref_nonempty _ Hi).
Qed.

Lemma String_startsWith_prefix (s a b : jsstring) :
  String_startsWith s (a ++ b) = true -> String_startsWith s a = true.
Proof.
  revert s. induction a as [|x a IH]; intros s; [destruct s; reflexivity|].
  destruct s as [|c s]; cbn; [discriminate|]. intros H.
  apply andb_true_iff in H. destruct H as [-> H]. exact (IH _ H).
Qed.

Lemma segmentAfter_not_included (lit p s : jsstring) :
  (forall t, String_startsWith t lit = true -> String_startsWith t p = true) ->
  String_includes s p = false -> segmentAfter lit s = None.
Proof.
  intros Hp. induction s as [|c s IH]; cbn [String_includes segmentAfter]; intros H.
  - rewrite orb_false_r in H.
    destruct (String_startsWith [] lit) eqn:E; [|reflexivity].
    rewrite (Hp _ E) in H. discriminate.
  - apply orb_false_iff in H. destruct H as [H1 H2].
    destruct (String_startsWith (c :: s) lit) eqn:E; [|exact (IH H2)].
    rewrite (Hp _ E) in H1. discriminate.
Qed.

(** An [href] without [instagram.com/] in it gives no username. *)
Theorem extractUsernameFromHref_without_host (href : jsstring) :
  String_includes href "instagram.com/" = false ->
  extractUsernameFromHref href = None.
Proof.
  intros H. rewrite extractUsernameFromHref_segments.
  rewrite (@segmentAfter_not_included "instagram.com/_u/" "instagram.com/" href);
    [|intros t; apply (@String_startsWith_prefix t "instagram.com/" "_u/")|exact H].
  apply (@segmentAfter_not_included "instagram.com/" "instagram.com/"); [tauto | exact H].
Qed.

Lemma extractUsernameFromHref_without_host_witness :
  extractUsernameFromHref "https://example.com/instagram/alice" = None.
Proof.
  apply extractUsernameFromHref_without_host. reflexivity.
Defined.

Lemma run_app_stop (p : ascii -> bool) (n : nat) (u tail : jsstring) :
  forallb p u = true -> headIs p tail = false -> run p n (u ++ tail) = firstn n u.
Proof.
  revert u. induction n as [|n IH]; intros u Hu Ht; [destruct (u ++ tail); reflexivity|].
  destruct u as [|c u].
  - cbn [app firstn]. destruct tail as [|d t]; [reflexivity|].
    cbn in Ht. cbn [run]. rewrite Ht. reflexivity.
  - cbn in Hu. apply andb_true_iff in Hu. destruct Hu as [Hc Hu].
    cbn [app run firstn]. rewrite Hc. f_equal. apply IH; assumption.
Qed.

Lemma segmentAfter_skip (lit s : jsstring) (c : ascii) :
  String_startsWith (c :: s) lit = false ->
  segmentAfter lit (c :: s) = segmentAfter lit s.
Proof. intros H. cbn [segmentAfter]. rewrite H. reflexivity. Qed.

Lemma segmentAfter_hit (lit s : jsstring) :
  String_startsWith s lit = true ->
  run isUsernameChar 30 (skipn (length lit) s) <> [] ->
  segmentAfter lit s = Some (run isUsernameChar 30 (skipn (length lit) s)).
Proof.
  intros H Hr. destruct s as [|c s]; cbn [segmentAfter]; rewrite H;
    destruct (run isUsernameChar 30 _) eqn:E;
    first [reflexivity | exfalso; apply Hr; reflexivity].
Qed.

Lemma segmentAfter_miss (lit s : jsstring) (c : ascii) :
  (if String_startsWith (c :: s) lit
   then run isUsernameChar 30 (skipn (length lit) (c :: s)) else []) = [] ->
  segmentAfter lit (c :: s) = segmentAfter lit s.
Proof. intros H. cbn [segmentAfter]. rewrite H. reflexivity. Qed.

Lemma String_startsWith_length (s p : jsstring) :
  String_startsWith s p = true -> length p <= length s.
Proof.
  revert s. induction p as [|a p IH]; intros s; [simpl; lia|].
  destruct s as [|c s]; cbn; [discriminate|]. intros H.
  apply andb_true_iff in H. destruct H as [_ H]. apply IH in H. lia.
Qed.

Lemma String_startsWith_self_app (p s : jsstring) :
  String_startsWith (p ++ s) p = true.
Proof.
  induction p as [|a p IH]; [destruct s; reflexivity|].
  cbn. rewrite Ascii.eqb_refl. exact IH.
Qed.

Lemma isUsernameChar_not_slash (c : ascii) :
  isUsernameChar c = true -> Ascii.eqb c "/" = false.
Proof. by_cases_on_unit c. Qed.

(** A pattern with a [/] inside does not start in a run of identifier
    characters, unless enough follows the run. *)
Lemma String_startsWith_slash (a b u tail : jsstring) :
  forallb isUsernameChar u = true ->
  String_startsWith (u ++ tail) (a ++ "/"%char :: b) = true ->
  S (length b) <= length tail.
Proof.
  revert u. induction a as [|x a IH]; intros u Hu H.
  - destruct u as [|c u].
    + apply String_startsWith_length in H. simpl in H. lia.
    + cbn in Hu. apply andb_true_iff in Hu. destruct Hu as [Hc _].
      cbn in H. rewrite (isUsernameChar_not_slash _ Hc) in H. discriminate.
  - destruct u as [|c u].
    + apply String_startsWith_length in H. simpl in H.
      rewrite ?length_app in H. simpl in H. lia.
    + cbn in Hu. apply andb_true_iff in Hu. destruct Hu as [_ Hu].
      cbn in H. apply andb_true_iff in H. destruct H as [_ H]. exact (IH _ Hu H).
Qed.

Lemma segmentAfter_in_username (a b u tail : jsstring) :
  forallb isUsernameChar u = true ->
  length tail <= length b ->
  segmentAfter (a ++ "/"%char :: b) (u ++ tail) = None.
Proof.
  intros Hu Ht.
  assert (Htail : forall t, length t <= length b -> segmentAfter (a ++ "/"%char :: b) t = None).
  { induction t as [|c t IHt]; intros Hl.
    - cbn [segmentAfter]. destruct (String_startsWith [] (a ++ "/"%char :: b)) eqn:E; [|reflexivity].
      apply (@String_startsWith_slash a b [] []) in E; [cbn in E; lia | reflexivity].
    - rewrite segmentAfter_skip; [apply IHt; cbn in Hl; lia|].
      destruct (String_startsWith (c :: t) (a ++ "/"%char :: b)) eqn:E; [|reflexivity].
      apply (@String_startsWith_slash a b [] (c :: t)) in E; [lia | reflexivity]. }
  induction u as [|c u IH]; [apply Htail, Ht|].
  cbn [app]. rewrite segmentAfter_skip.
  - apply IH. cbn in Hu. apply andb_true_iff in Hu. tauto.
  - destruct (String_startsWith (c :: u ++ tail) (a ++ "/"%char :: b)) eqn:E; [|reflexivity].
    apply (@String_startsWith_slash a b (c :: u) tail) in E; [lia | exact Hu].
Qed.

Ltac skip_unit := rewrite segmentAfter_skip by reflexivity.

Lemma segmentAfter_u_plain (u tail : jsstring) :
  forallb isUsernameChar u = true -> tail = [] \/ tail = "/" ->
  segmentAfter "instagram.com/_u/" ("https://www.instagram.com/" ++ u ++ tail) = None.
Proof.
  intros Hu Ht. cbn [app].
  do 12 skip_unit.
  rewrite segmentAfter_miss.
  - do 13 skip_unit.
    apply (@segmentAfter_in_username "instagram.com" "_u/" u tail Hu).
    destruct Ht as [-> | ->]; simpl; lia.
  - cbn [String_startsWith Ascii.eqb Bool.eqb andb length skipn].
    destruct u as [|c1 [|c2 [|c3 u']]]; cbn [app String_startsWith].
    + destruct Ht as [-> | ->]; reflexivity.
    + destruct Ht as [-> | ->]; cbn; rewrite ?andb_false_r; reflexivity.
    + destruct Ht as [-> | ->]; cbn; rewrite ?andb_false_r; try reflexivity.
      destruct (Ascii.eqb c1 "_" && (Ascii.eqb c2 "u" && true)); reflexivity.
    + cbn in Hu. apply andb_true_iff in Hu. destruct Hu as [_ Hu].
      apply andb_true_iff in Hu. destruct Hu as [_ Hu].
      apply andb_true_iff in Hu. destruct Hu as [H3 _].
      rewrite (isUsernameChar_not_slash _ H3). cbn [andb]. rewrite !andb_false_r. reflexivity.
Qed.

Lemma headIs_tail (tail : jsstring) :
  tail = [] \/ tail = "/" -> headIs isUsernameChar tail = false.
Proof. intros [-> | ->]; reflexivity. Qed.

Lemma run_profile (u tail : jsstring) :
  u <> [] -> forallb isUsernameChar u = true -> tail = [] \/ tail = "/" ->
  run isUsernameChar 30 (u ++ tail) = firstn 30 u /\ firstn 30 u <> [].
Proof.
  intros Hne Hu Ht. split.
  - apply run_app_stop; [exact Hu | apply headIs_tail, Ht].
  - destruct u; [congruence | discriminate].
Qed.

Lemma profile_url_plain (u tail : jsstring) :
  u <> [] -> forallb isUsernameChar u = true -> tail = [] \/ tail = "/" ->
  extractUsernameFromHref ("https://www.instagram.com/" ++ u ++ tail) = Some (firstn 30 u).
Proof.
  intros Hne Hu Ht. destruct (run_profile Hne Hu Ht) as [Hrun Hnz].
  rewrite extractUsernameFromHref_segments.
  rewrite (segmentAfter_u_plain u Hu Ht). cbn [app].
  do 12 skip_unit.
  rewrite segmentAfter_hit.
  - cbn [length skipn]. rewrite Hrun. reflexivity.
  - exact (@String_startsWith_self_app "instagram.com/" (u ++ tail)).
  - cbn [length skipn]. rewrite Hrun. exact Hnz.
Qed.

(** A profile URL gives back the username it was built from, with or
    without the final [/], in the plain form and in the [_u] form; of a
    path segment longer than 30 characters the first 30 are returned. *)
Theorem extractUsernameFromHref_profile_url (u tail : jsstring) :
  u <> [] -> forallb isUsernameChar u = true -> tail = [] \/ tail = "/" ->
  extractUsernameFromHref ("https://www.instagram.com/" ++ u ++ tail) = Some (firstn 30 u)
  /\ extractUsernameFromHref ("https://www.instagram.com/_u/" ++ u ++ tail)
     = Some (firstn 30 u).
Proof.
  intros Hne Hu Ht. split; [exact (profile_url_plain Hne Hu Ht)|].
  destruct (run_profile Hne Hu Ht) as [Hrun Hnz].
  rewrite extractUsernameFromHref_segments.
  cbn [app]. do 12 skip_unit.
  rewrite segmentAfter_hit.
  - cbn [length skipn]. rewrite Hrun. reflexivity.
  - exact (@String_startsWith_self_app "instagram.com/_u/" (u ++ tail)).
  - cbn [length skipn]. rewrite Hrun. exact Hnz.
Qed.

Lemma extractUsernameFromHref_profile_url_witness :
  extractUsernameFromHref ("https://www.instagram.com/" ++ "thenest_games" ++ "/")
  = Some (firstn 30 "thenest_games").
Proof.
  apply (@extractUsernameFromHref_profile_url "thenest_games" "/").
  - discriminate.
  - reflexivity.
  - right. reflexivity.
Defined.

Lemma isLowerUsernameChar_isUsernameChar (c : ascii) :
  isLowerUsernameChar c = true -> isUsernameChar c = true.
Proof. by_cases_on_unit c. Qed.

Lemma isLowerIdentifier_isIdentifier (u : jsstring) :
  isLowerIdentifier u = true -> isIdentifier u = true.
Proof.
  unfold isLowerIdentifier, isIdentifier. intros H.
  apply andb_true_iff in H. destruct H as [H H3].
  apply andb_true_iff in H. destruct H as [H1 H2].
  rewrite H2, H3, !andb_true_r.
  apply forallb_forall. intros c Hc.
  apply isLowerUsernameChar_isUsernameChar.
  exact (proj1 (forallb_forall _ _) H1 c Hc).
Qed.

(** The link "Abrir perfil" of a username leads back to it: the extractor
    reads from [profileHref u] the identifier [u], and so for every username
    the markup parser returns. *)
Theorem profileHref_roundtrip :
  (forall u : jsstring,
     isIdentifier u = true -> extractUsernameFromHref (profileHref u) = Some u)
  /\ (forall (collator : Collator)
             (DOMParser : option (jsstring -> outcome (list Anchor)))
             (htmlText : jsstring),
        Forall (fun u => extractUsernameFromHref (profileHref u) = Some u)
               (usernames (parseInstagramRelationshipHtml DOMParser htmlText))).
Proof.
  assert (G : forall u, isIdentifier u = true ->
                        extractUsernameFromHref (profileHref u) = Some u).
  { intros u H. unfold isIdentifier in H.
    apply andb_true_iff in H. destruct H as [H H3].
    apply andb_true_iff in H. destruct H as [H1 H2].
    apply Nat.leb_le in H2, H3.
    assert (Hne : u <> []) by (destruct u; [simpl in H2; lia | discriminate]).
    pose proof (@profile_url_plain u "/" Hne H1 (or_intror eq_refl)) as E.
    unfold profileHref. rewrite E. rewrite firstn_all2; [reflexivity | exact H3]. }
  split; [exact G|].
  intros collator DOMParser htmlText.
  apply Forall_forall. intros x Hx.
  rewrite parseHtml_usernames in Hx. apply uniqueSorted_In in Hx.
  destruct Hx as [_ [u [Hu <-]]].
  apply plausibleCandidates_identifier in Hu.
  destruct (normalizeUsername_identifier u Hu) as [_ Hl].
  apply G, isLowerIdentifier_isIdentifier, Hl.
Qed.

Lemma profileHref_roundtrip_witness :
  extractUsernameFromHref (profileHref "thenest_games") = Some "thenest_games".
Proof. apply (proj1 profileHref_roundtrip). reflexivity. Defined.

(* ================================================================== *)
(** * More about the markup parser *)
(* ================================================================== *)

Lemma pushAnchor_app (candidates : list jsstring) (a : Anchor) :
  pushAnchor candidates a = candidates ++ pushAnchor [] a.
Proof.
  unfold pushAnchor.
  destruct (ifTruthy (String_match1 (orEmpty (getAttribute_href a)) hrefRe));
    destruct (ifTruthy (String_match1 (orEmpty (textContent a)) anchorTextRe));
    cbn [app]; rewrite <- ?app_assoc, ?app_nil_r; reflexivity.
Qed.

Lemma fold_pushAnchor_app (anchors : list Anchor) (candidates : list jsstring) :
  fold_left pushAnchor anchors candidates
  = candidates ++ fold_left pushAnchor anchors [].
Proof.
  revert candidates. induction anchors as [|a anchors IH]; intros candidates.
  - cbn. rewrite app_nil_r. reflexivity.
  - cbn [fold_left]. rewrite IH, (IH (pushAnchor [] a)), pushAnchor_app, app_assoc.
    reflexivity.
Qed.

Lemma htmlCandidates_extends (DOMParser : option (jsstring -> outcome (list Anchor)))
    (htmlText : jsstring) :
  exists fromAnchors,
    htmlCandidates DOMParser htmlText = htmlCandidates None htmlText ++ fromAnchors.
Proof.
  unfold htmlCandidates. destruct DOMParser as [parseAnchors|].
  - destruct (parseAnchors htmlText) as [anchors|].
    + eexists. apply fold_pushAnchor_app.
    + exists []. rewrite app_nil_r. reflexivity.
  - exists []. rewrite app_nil_r. reflexivity.
Qed.

(** The anchor pass is an addition: every username found by the three
    pattern passes alone is returned whatever [DOMParser] does, and when
    [DOMParser] is missing, throws, or finds no anchor, the result is the
    one of the pattern passes. *)
Theorem parseHtml_anchor_pass {collator : Collator}
    (DOMParser : option (jsstring -> outcome (list Anchor))) (htmlText : jsstring) :
  incl (usernames (parseInstagramRelationshipHtml None htmlText))
       (usernames (parseInstagramRelationshipHtml DOMParser htmlText))
  /\ (noAnchors DOMParser htmlText ->
      parseInstagramRelationshipHtml DOMParser htmlText
      = parseInstagramRelationshipHtml None htmlText).
Proof.
  split.
  - intros u Hu. rewrite parseHtml_usernames in *.
    apply uniqueSorted_In in Hu. apply uniqueSorted_In.
    destruct Hu as [Hne [raw [Hraw E]]]. split; [exact Hne|].
    exists raw. split; [|exact E].
    unfold plausibleCandidates in *. apply filter_In in Hraw. apply filter_In.
    destruct Hraw as [Hin Ht]. split; [|exact Ht].
    destruct (htmlCandidates_extends DOMParser htmlText) as [extra ->].
    apply in_or_app. left. exact Hin.
  - intros H. unfold parseInstagramRelationshipHtml.
    rewrite (htmlCandidates_noAnchors _ _ H). reflexivity.
Qed.

Lemma parseHtml_anchor_pass_witness :
  @parseInstagramRelationshipHtml codeUnitCollator (Some (fun _ => Throw)) exampleMarkup
  = @parseInstagramRelationshipHtml codeUnitCollator None exampleMarkup.
Proof.
  apply (proj2 (@parseHtml_anchor_pass codeUnitCollator (Some (fun _ => Throw))
                  exampleMarkup)).
  left. reflexivity.
Defined.

(** The copy of the markup parser kept in [instagramExport.ts] returns the
    kind and the usernames of the one in [instagramExportHtml.ts]; its test
    on the filtered candidates appends the second warning in the same cases
    as the test on the deduplicated list, and only the wording of that
    warning differs. *)
Theorem parseHtml_copies_agree {collator : Collator}
    (DOMParser : option (jsstring -> outcome (list Anchor))) (htmlText : jsstring) :
  let result := parseInstagramRelationshipHtml DOMParser htmlText in
  let copy := InstagramExport.parseInstagramRelationshipHtml DOMParser htmlText in
  kind copy = kind result
  /\ usernames copy = usernames result
  /\ warnings copy
     = (if length (usernames result) =? 0
        then [msgHtmlImported; InstagramExport.msgHtmlEmpty] else warnings result)
  /\ warnings result
     = (if length (usernames copy) =? 0
        then [msgHtmlImported; msgHtmlEmpty] else warnings copy).
Proof.
  intros result copy.
  assert (Hz : (length (usernames result) =? 0)
               = (length (plausibleCandidates DOMParser htmlText) =? 0)).
  { unfold result. rewrite parseHtml_usernames.
    rewrite (uniqueSorted_nil_iff (plausibleCandidates DOMParser htmlText)
               (plausibleCandidates_identifier DOMParser htmlText)).
    destruct (plausibleCandidates DOMParser htmlText); reflexivity. }
  split; [reflexivity|]. split; [reflexivity|].
  change (usernames copy) with (usernames result). rewrite Hz.
  unfold copy, result, InstagramExport.parseInstagramRelationshipHtml,
    parseInstagramRelationshipHtml. cbn [warnings].
  fold (plausibleCandidates DOMParser htmlText).
  rewrite (uniqueSorted_nil_iff (plausibleCandidates DOMParser htmlText)
             (plausibleCandidates_identifier DOMParser htmlText)).
  destruct (plausibleCandidates DOMParser htmlText); split; reflexivity.
Qed.

Lemma String_startsWith_nil (s : jsstring) : String_startsWith s [] = true.
Proof. destruct s; reflexivity. Qed.

Lemma String_includes_false (lit : jsstring) (c : ascii) (t : jsstring) :
  String_includes (c :: t) lit = false ->
  String_startsWith (c :: t) lit = false /\ String_includes t lit = false.
Proof. cbn [String_includes]. intros H. apply orb_false_iff in H. exact H. Qed.

(** A pattern that cannot match where the text does not start with [lit]
    finds nothing in a text that does not contain [lit]. *)
Lemma matchAllFrom_not_included (r : regex) (lit : jsstring) :
  (forall p l, String_startsWith l lit = false -> matchAt r p l = None) ->
  forall l skip p, String_includes l lit = false -> matchAllFrom r skip p l = [].
Proof.
  intros Hr. induction l as [|c t IH]; intros skip p H.
  - destruct skip; [|reflexivity]. cbn [matchAllFrom].
    rewrite Hr; [reflexivity|].
    cbn [String_includes] in H. apply orb_false_iff in H. tauto.
  - apply String_includes_false in H. destruct H as [Hs Hi].
    destruct skip; cbn [matchAllFrom]; [rewrite (Hr _ _ Hs)|]; apply IH, Hi.
Qed.

Lemma matchAt_Chr_first (a : ascii) (r : regex) (p : nat) (l : jsstring) :
  String_startsWith l [a] = false -> matchAt (Cat (Chr a) r) p l = None.
Proof.
  intros H. unfold matchAt. rewrite matcher_Cat, matcher_Chr. cbn [rest].
  destruct l as [|b t]; [reflexivity|].
  cbn [String_startsWith] in H. rewrite String_startsWith_nil, andb_true_r in H.
  rewrite H. reflexivity.
Qed.

Lemma matchAt_urlRe_first (p : nat) (l : jsstring) :
  String_startsWith l "http" = false -> matchAt urlRe p l = None.
Proof.
  intros H. unfold matchAt.
  change urlRe with (Cat (Lit "http")
                       (Seq [Opt (Chr "s"); Lit "://"; Opt (Lit "www.");
                             Lit "instagram.com/"; usernameGroup; Opt (Chr "/")])).
  rewrite matcher_Cat, matcher_Lit, H. reflexivity.
Qed.

Lemma pushMatches_not_included (candidates : list jsstring) (htmlText : jsstring)
    (re : regex) (lit : jsstring) :
  (forall p l, String_startsWith l lit = false -> matchAt re p l = None) ->
  String_includes htmlText lit = false ->
  pushMatches candidates htmlText re = candidates.
Proof.
  intros Hr H. unfold pushMatches, String_matchAll.
  rewrite (@matchAllFrom_not_included re lit Hr htmlText 0 0 H). cbn. apply app_nil_r.
Qed.

(** A text that contains neither [http], nor an [@], nor a double quote
    gives the three pattern passes nothing to find: without anchors the
    parser returns no username and both warnings. *)
Theorem parseHtml_nothing_to_find {collator : Collator}
    (DOMParser : option (jsstring -> outcome (list Anchor))) (htmlText : jsstring) :
  String_includes htmlText "http" = false ->
  String_includes htmlText "@" = false ->
  String_includes htmlText [dquote] = false ->
  noAnchors DOMParser htmlText ->
  parseInstagramRelationshipHtml DOMParser htmlText
  = {| kind := kUnknown; usernames := [];
       warnings := [msgHtmlImported; msgHtmlEmpty] |}.
Proof.
  intros Hh Ha Hq Hd.
  assert (Hc : htmlCandidates DOMParser htmlText = []).
  { rewrite (htmlCandidates_noAnchors _ _ Hd). unfold htmlCandidates.
    rewrite (@pushMatches_not_included [] htmlText urlRe "http" matchAt_urlRe_first Hh).
    rewrite (@pushMatches_not_included [] htmlText atRe "@");
      [|intros p l; apply matchAt_Chr_first|exact Ha].
    apply (@pushMatches_not_included [] htmlText valueRe [dquote]);
      [intros p l; apply matchAt_Chr_first|exact Hq]. }
  unfold parseInstagramRelationshipHtml. rewrite Hc. reflexivity.
Qed.

Lemma parseHtml_nothing_to_find_witness :
  usernames (@parseInstagramRelationshipHtml codeUnitCollator None
               "<html><body>Sin datos</body></html>") = [].
Proof.
  rewrite (@parseHtml_nothing_to_find codeUnitCollator None
             "<html><body>Sin datos</body></html>" eq_refl eq_refl eq_refl I).
  reflexivity.
Defined.

(* ================================================================== *)
(** * More about the aggregator: how a file is classified *)
(* ================================================================== *)

Lemma run_trimStart (n : nat) (s : jsstring) :
  length s <= n ->
  skipn (length (run isWhiteSpace n s)) s = String_trimStart s.
Proof.
  revert s. induction n as [|n IH]; intros s H.
  - destruct s; [reflexivity | simpl in H; lia].
  - destruct s as [|c t]; [reflexivity|].
    cbn [run String_trimStart]. destruct (isWhiteSpace c) eqn:E.
    + cbn [length skipn]. apply IH. simpl in H. lia.
    + reflexivity.
Qed.

Lemma run_skipn_head (p : ascii -> bool) (n j : nat) (l : jsstring) :
  j < length (run p n l) -> headIs p (skipn j l) = true.
Proof.
  revert j l. induction n as [|n IH]; intros j l H.
  - destruct l; simpl in H; lia.
  - destruct l as [|c t]; [simpl in H; lia|].
    cbn [run] in H. destruct (p c) eqn:E; [|simpl in H; lia].
    destruct j as [|j]; [exact E|].
    cbn [skipn]. apply IH. simpl in H. lia.
Qed.

Lemma isWhiteSpace_not_lt (c : ascii) :
  isWhiteSpace c = true -> Ascii.eqb c "<" = false.
Proof. by_cases_on_unit c. Qed.

Lemma matchAt_looksLikeHtmlRe (s : jsstring) :
  match matchAt looksLikeHtmlRe 0 s with
  | Some _ => true
  | None => false
  end = headIs (fun c => Ascii.eqb c "<") (String_trimStart s).
Proof.
  unfold matchAt, looksLikeHtmlRe, Seq, Star. cbn [fold_right].
  rewrite matcher_Cat, matcher_Bol_0, matcher_Cat.
  change (matcher (Rep (Cls isWhiteSpace) 0 None) (MState 0 s None))
    with (repeatMatcher (matcher (Cls isWhiteSpace)) (0 + length s) 0 (MState 0 s None)).
  cbn [Nat.add].
  pose proof (@run_trimStart (length s) s (le_n _)) as Ht.
  destruct (headIs (fun c => Ascii.eqb c "<") (String_trimStart s)) eqn:E.
  - destruct (String_trimStart s) as [|c t] eqn:Es; [discriminate|]. cbn in E.
    erewrite (@repeat_class_greedy isWhiteSpace (length s) 0 0 s None _
                (MState (S (length (run isWhiteSpace (length s) s))) t None));
      [reflexivity | lia |].
    rewrite Ht, matcher_Cat, matcher_Chr. cbn [rest]. rewrite E. reflexivity.
  - rewrite repeat_class_fail; [reflexivity | lia |].
    intros j [_ Hj]. rewrite matcher_Cat, matcher_Chr. cbn [rest Nat.add].
    destruct (Nat.eq_dec j (length (run isWhiteSpace (length s) s))) as [->|Hne].
    + rewrite Ht. destruct (String_trimStart s) as [|c t]; [reflexivity|].
      cbn in E. rewrite E. reflexivity.
    + assert (Hlt : j < length (run isWhiteSpace (length s) s)) by lia.
      apply run_skipn_head in Hlt.
      destruct (skipn j s) as [|c t]; [reflexivity|].
      cbn in Hlt. rewrite (isWhiteSpace_not_lt _ Hlt). reflexivity.
Qed.

Lemma test_looksLikeHtmlRe (text : jsstring) :
  RegExp_test looksLikeHtmlRe text
  = headIs (fun c => Ascii.eqb c "<") (String_trimStart text).
Proof.
  rewrite <- matchAt_looksLikeHtmlRe.
  unfold RegExp_test, RegExp_exec.
  destruct text as [|a t]; cbn [searchFrom];
    destruct (matchAt looksLikeHtmlRe 0 _); try reflexivity.
  unfold looksLikeHtmlRe, Seq. cbn [fold_right].
  rewrite searchFrom_Bol_later. reflexivity.
Qed.

(** [/^\s*</.test(text)] holds exactly when the first character of the
    text after its leading white space is [<]; a file with such a text
    goes to the markup parser whatever its name is, and [JSON.parse] is not
    called on it. *)
Theorem looksLikeHtml_first_character :
  (forall text : jsstring,
     RegExp_test looksLikeHtmlRe text
     = headIs (fun c => Ascii.eqb c "<") (String_trimStart text))
  /\ (forall (collator : Collator)
             (DOMParser : option (jsstring -> outcome (list Anchor)))
             (JSON_parse : jsstring -> outcome JsonValue)
             (expected : Expected) (acc : Acc) (file : File) (t : jsstring),
        text file = Return t ->
        headIs (fun c => Ascii.eqb c "<") (String_trimStart t) = true ->
        processFile DOMParser JSON_parse expected acc file
        = htmlBranch DOMParser expected (name file) t acc).
Proof.
  split; [exact test_looksLikeHtmlRe|].
  intros collator DOMParser JSON_parse expected acc file t Ht H.
  unfold processFile, tryBlock. rewrite Ht. cbn [bind].
  rewrite test_looksLikeHtmlRe, H. reflexivity.
Qed.

Lemma looksLikeHtml_first_character_witness :
  @processFile codeUnitCollator None exampleDecoder expectFollowers emptyAcc
    {| name := "followers_1.json"; text := Return "  <html>@alice</html>" |}
  = @htmlBranch codeUnitCollator None expectFollowers "followers_1.json"
      "  <html>@alice</html>" emptyAcc.
Proof.
  exact (proj2 looksLikeHtml_first_character codeUnitCollator None exampleDecoder
           expectFollowers emptyAcc
           {| name := "followers_1.json"; text := Return "  <html>@alice</html>" |}
           "  <html>@alice</html>" eq_refl eq_refl).
Defined.

(* ================================================================== *)
(** * More about the aggregator: what a batch stores *)
(* ================================================================== *)

Section AggregatorResults.

Context {collator : Collator}.
Variable DOMParser : option (jsstring -> outcome (list Anchor)).
Variable JSON_parse : jsstring -> outcome JsonValue.

Lemma parseJson_result (json : JsonValue) :
  exists result raw,
    parseInstagramRelationshipJson json = Return result
    /\ usernames result = uniqueSorted raw.
Proof.
  destruct json; try (eexists _, []; split; reflexivity).
  - eexists _, _. split; [apply parseJson_array | reflexivity].
  - rewrite parseJson_object.
    destruct (Array_isArray (lookup "relationships_followers" fields)) as [items|];
      [eexists _, _; split; reflexivity|].
    destruct (Array_isArray (lookup "relationships_following" fields)) as [items|];
      [eexists _, _; split; reflexivity|].
    destruct (find yieldsUsernames fields) as [[key v]|];
      [destruct v|]; try (eexists _, []; split; reflexivity).
    eexists _, _; split; reflexivity.
Qed.

Lemma htmlBranch_combined (expected : Expected) (fileName t : jsstring) :
  combined (htmlBranch DOMParser expected fileName t emptyAcc)
  = usernames (parseInstagramRelationshipHtml DOMParser t).
Proof.
  unfold htmlBranch.
  destruct (length (usernames (parseInstagramRelationshipHtml DOMParser t)) =? 0) eqn:E.
  - apply Nat.eqb_eq, length_zero_iff_nil in E. rewrite E. reflexivity.
  - assert (H : Set_new (usernames (parseInstagramRelationshipHtml DOMParser t))
                = usernames (parseInstagramRelationshipHtml DOMParser t)).
    { apply Set_new_NoDup_id. rewrite parseHtml_usernames. apply uniqueSorted_NoDup. }
    destruct expected;
      [destruct (String_includes (String_toLowerCase fileName) "following")
      |destruct (String_includes (String_toLowerCase fileName) "followers")];
      exact H.
Qed.

Lemma jsonBranch_combined (expected : Expected) (fileName t : jsstring) :
  match jsonBranch JSON_parse expected fileName t emptyAcc with
  | Return acc => combined acc
  | Throw => []
  end
  = match JSON_parse t with
    | Throw => []
    | Return json =>
        match parseInstagramRelationshipJson json with
        | Return result => usernames result
        | Throw => []
        end
    end.
Proof.
  unfold jsonBranch. destruct (JSON_parse t) as [json|]; [|reflexivity]. cbn [bind].
  destruct (parseJson_result json) as [result [raw [-> Hr]]]. cbn [bind].
  destruct (length (usernames result) =? 0) eqn:E.
  - apply Nat.eqb_eq, length_zero_iff_nil in E. rewrite E. reflexivity.
  - assert (H : Set_new (usernames result) = usernames result).
    { apply Set_new_NoDup_id. rewrite Hr. apply uniqueSorted_NoDup. }
    destruct (negb (kind_eqb (kind result) kUnknown)
              && negb (kind_eqb (kind result) (kindOfExpected expected))); exact H.
Qed.

Lemma fileUsernames_parsed (expected : Expected) (file : File) :
  fileUsernames DOMParser JSON_parse expected file
  = parsedUsernames DOMParser JSON_parse file.
Proof.
  unfold fileUsernames, contribution, processFile, tryBlock, parsedUsernames.
  destruct (text file) as [t|]; [|reflexivity]. cbn [bind].
  fold (isMarkup file t). destruct (isMarkup file t).
  - apply htmlBranch_combined.
  - cbv iota.
    transitivity (match jsonBranch JSON_parse expected (name file) t emptyAcc with
                  | Return acc => combined acc
                  | Throw => []
                  end);
      [destruct (jsonBranch JSON_parse expected (name file) t emptyAcc); reflexivity
      |apply jsonBranch_combined].
Qed.

Lemma parsedUsernames_normalized (file : File) :
  exists raw, parsedUsernames DOMParser JSON_parse file = uniqueSorted raw.
Proof.
  unfold parsedUsernames. destruct (text file) as [t|]; [|exists []; reflexivity].
  destruct (isMarkup file t); [eexists; apply parseHtml_usernames|].
  destruct (JSON_parse t) as [json|]; [|exists []; reflexivity].
  destruct (parseJson_result json) as [result [raw [-> Hr]]]. exists raw. exact Hr.
Qed.

Lemma mergedUsernames_In (expected : Expected) (files : list File) (u : jsstring) :
  In u (mergedUsernames DOMParser JSON_parse expected files)
  <-> exists file, In file files /\ In u (parsedUsernames DOMParser JSON_parse file).
Proof.
  unfold mergedUsernames, Set_new. rewrite Array_sort_In, fold_Set_add_In, in_flat_map.
  split.
  - intros [[]|[f [Hf Hu]]]. exists f. rewrite <- (fileUsernames_parsed expected). tauto.
  - intros [f [Hf Hu]]. right. exists f. rewrite (fileUsernames_parsed expected). tauto.
Qed.

Lemma mergedUsernames_wellformed (expected : Expected) (files : list File) :
  NoDup (mergedUsernames DOMParser JSON_parse expected files)
  /\ StronglySorted notAfter (mergedUsernames DOMParser JSON_parse expected files)
  /\ Forall (fun u => u <> [] /\ String_toLowerCase u = u)
            (mergedUsernames DOMParser JSON_parse expected files).
Proof.
  split; [|split].
  - unfold mergedUsernames. apply Array_sort_NoDup, fold_Set_add_NoDup. constructor.
  - unfold mergedUsernames. apply Array_sort_sorted.
  - apply Forall_forall. intros u Hu. apply mergedUsernames_In in Hu.
    destruct Hu as [f [_ Hu]].
    destruct (parsedUsernames_normalized f) as [raw Hraw]. rewrite Hraw in Hu.
    apply uniqueSorted_In in Hu. destruct Hu as [Hne [x [_ <-]]].
    split; [exact Hne | apply String_toLowerCase_normalize].
Qed.

End AggregatorResults.

(** What a file adds to the set is the list its parser returns, in
    whichever slot it is loaded: [expected] changes warnings only.  The
    same batch therefore stores the same list as followers and as
    following, and a batch of one file stores the parser's list as it is. *)
Theorem handleFiles_slot_independent {collator : Collator}
    (DOMParser : option (jsstring -> outcome (list Anchor)))
    (JSON_parse : jsstring -> outcome JsonValue) :
  (forall expected file,
     fileUsernames DOMParser JSON_parse expected file
     = parsedUsernames DOMParser JSON_parse file)
  /\ (forall expected file,
        mergedUsernames DOMParser JSON_parse expected [file]
        = parsedUsernames DOMParser JSON_parse file)
  /\ (forall files st,
        st_followers (handleFiles DOMParser JSON_parse files setFollowers expectFollowers st)
        = st_following (handleFiles DOMParser JSON_parse files setFollowing expectFollowing st)).
Proof.
  split; [apply fileUsernames_parsed|]. split.
  - intros expected file. unfold mergedUsernames. cbn [flat_map].
    rewrite app_nil_r, fileUsernames_parsed.
    destruct (parsedUsernames_normalized DOMParser JSON_parse file) as [raw ->].
    rewrite Set_new_NoDup_id by apply uniqueSorted_NoDup.
    apply Array_sort_sorted_id, uniqueSorted_sorted.
  - intros [files|] st; [|reflexivity].
    assert (Hm : mergedUsernames DOMParser JSON_parse expectFollowers files
                 = mergedUsernames DOMParser JSON_parse expectFollowing files).
    { unfold mergedUsernames. f_equal. f_equal.
      apply flat_map_ext. intros f. rewrite !fileUsernames_parsed. reflexivity. }
    rewrite !handleFiles_closed_form. destruct files as [|f files]; [reflexivity|].
    rewrite <- Hm.
    destruct (mergedUsernames DOMParser JSON_parse expectFollowers (f :: files));
      reflexivity.
Qed.

Lemma mergedUsernames_nil_iff {collator : Collator}
    (DOMParser : option (jsstring -> outcome (list Anchor)))
    (JSON_parse : jsstring -> outcome JsonValue)
    (expected : Expected) (files : list File) :
  mergedUsernames DOMParser JSON_parse expected files = []
  <-> Forall (fun file => parsedUsernames DOMParser JSON_parse file = []) files.
Proof.
  pose proof (fun u => mergedUsernames_In DOMParser JSON_parse expected files u) as H.
  split.
  - intros E. rewrite E in H. apply Forall_forall. intros file Hfile.
    destruct (parsedUsernames DOMParser JSON_parse file) as [|u us] eqn:Ep; [reflexivity|].
    exfalso. apply (proj2 (H u)). exists file. rewrite Ep.
    split; [exact Hfile | left; reflexivity].
  - intros Hall. rewrite Forall_forall in Hall.
    destruct (mergedUsernames DOMParser JSON_parse expected files) as [|a l]; [reflexivity|].
    destruct (proj1 (H a) (or_introl eq_refl)) as [file [Hfile Ha]].
    rewrite (Hall file Hfile) in Ha. destruct Ha.
Qed.

Lemma handleFiles_stored_None {collator : Collator}
    (DOMParser : option (jsstring -> outcome (list Anchor)))
    (JSON_parse : jsstring -> outcome JsonValue)
    (expected : Expected) (files : list File) (st : AppState) :
  (st_followers (handleFiles DOMParser JSON_parse (Some files) setFollowers expected st)
   = None
   <-> mergedUsernames DOMParser JSON_parse expected files = [])
  /\ (st_following (handleFiles DOMParser JSON_parse (Some files) setFollowing expected st)
      = None
      <-> mergedUsernames DOMParser JSON_parse expected files = []).
Proof.
  rewrite !handleFiles_closed_form.
  destruct files as [|f files]; [split; split; reflexivity|].
  destruct (mergedUsernames DOMParser JSON_parse expected (f :: files));
    cbn [setFollowers setFollowing st_followers st_following];
    split; split; intros H; try reflexivity; discriminate.
Qed.

(** The union: the list stored for a batch holds exactly the identifiers
    that the parser of one of its files returned, and no list is stored
    exactly when no parser returned any. *)
Theorem handleFiles_union {collator : Collator}
    (DOMParser : option (jsstring -> outcome (list Anchor)))
    (JSON_parse : jsstring -> outcome JsonValue)
    (expected : Expected) (files : list File) (st : AppState) :
  (st_followers (handleFiles DOMParser JSON_parse (Some files) setFollowers expected st)
   = None
   <-> Forall (fun file => parsedUsernames DOMParser JSON_parse file = []) files)
  /\ match st_followers
             (handleFiles DOMParser JSON_parse (Some files) setFollowers expected st) with
     | Some l =>
         l <> []
         /\ forall u, In u l
                      <-> exists file,
                            In file files
                            /\ In u (parsedUsernames DOMParser JSON_parse file)
     | None => True
     end.
Proof.
  split.
  - rewrite (proj1 (handleFiles_stored_None DOMParser JSON_parse expected files st)).
    apply mergedUsernames_nil_iff.
  - pose proof (fun u => mergedUsernames_In DOMParser JSON_parse expected files u) as H.
    rewrite handleFiles_closed_form.
    destruct files as [|f files]; [exact I|].
    destruct (mergedUsernames DOMParser JSON_parse expected (f :: files)) as [|a l];
      [exact I|].
    cbn [setFollowers st_followers]. split; [discriminate | exact H].
Qed.

(** A list the aggregator stores is never empty; it is duplicate-free,
    sorted, and made of non-empty strings without capitals (they need not
    satisfy the Identifier grammar: what comes from structured data is not
    filtered by it); and it is stored without an error message.  When no
    list is stored, either no file was given or the error message is set. *)
Theorem handleFiles_stored_list {collator : Collator}
    (DOMParser : option (jsstring -> outcome (list Anchor)))
    (JSON_parse : jsstring -> outcome JsonValue)
    (files : option (list File)) (expected : Expected) (st : AppState) :
  let st' := handleFiles DOMParser JSON_parse files setFollowers expected st in
  match st_followers st' with
  | Some l =>
      l <> [] /\ NoDup l /\ StronglySorted (fun a b => localeCompare a b <> Gt) l
      /\ Forall (fun u => u <> [] /\ String_toLowerCase u = u) l
      /\ st_error st' = None
  | None => files = None \/ files = Some [] \/ st_error st' = Some msgNoUsernames
  end.
Proof.
  destruct files as [files|]; [|cbn; auto].
  cbv zeta. rewrite handleFiles_closed_form.
  destruct files as [|f files]; [cbn; auto|].
  pose proof (mergedUsernames_wellformed DOMParser JSON_parse expected (f :: files))
    as [H1 [H2 H3]].
  destruct (mergedUsernames DOMParser JSON_parse expected (f :: files)) as [|u l].
  - cbn. auto.
  - cbn [setFollowers st_followers st_error setWarnings cleared setError].
    repeat split; try assumption. discriminate.
Qed.

(** Loading one list leaves the other as it is, and what a load stores,
    warns and reports does not depend on the state before it: the warnings
    and the error of the previous load, whichever list it was for, are
    dropped. *)
Theorem handleFiles_frame {collator : Collator}
    (DOMParser : option (jsstring -> outcome (list Anchor)))
    (JSON_parse : jsstring -> outcome JsonValue)
    (files : option (list File)) (expected : Expected) (st st0 : AppState) :
  st_following (handleFiles DOMParser JSON_parse files setFollowers expected st)
  = st_following st
  /\ st_followers (handleFiles DOMParser JSON_parse files setFollowing expected st)
     = st_followers st
  /\ handleFiles DOMParser JSON_parse files setFollowers expected st
     = setFollowing (st_following st)
         (handleFiles DOMParser JSON_parse files setFollowers expected st0)
  /\ handleFiles DOMParser JSON_parse files setFollowing expected st
     = setFollowers (st_followers st)
         (handleFiles DOMParser JSON_parse files setFollowing expected st0).
Proof.
  destruct files as [files|]; [|repeat split].
  rewrite !handleFiles_closed_form.
  destruct files as [|f files]; [repeat split|].
  destruct (mergedUsernames DOMParser JSON_parse expected (f :: files)); repeat split.
Qed.

(* ================================================================== *)
(** * More about the aggregator: warnings and the [catch] *)
(* ================================================================== *)

Lemma String_includes_start (s p : jsstring) :
  String_startsWith s p = true -> String_includes s p = true.
Proof. intros H. destruct s; cbn [String_includes]; rewrite H; reflexivity. Qed.

Lemma String_includes_skip (pre s p : jsstring) :
  String_includes s p = true -> String_includes (pre ++ s) p = true.
Proof.
  intros H. induction pre as [|c pre IH]; [exact H|].
  cbn [app String_includes]. rewrite IH. apply orb_true_r.
Qed.

Lemma String_includes_app (pre p post : jsstring) :
  String_includes (pre ++ p ++ post) p = true.
Proof. apply String_includes_skip, String_includes_start, String_startsWith_self_app. Qed.

Lemma Forall_map_msgFile (fileName : jsstring) (ws : list jsstring) :
  Forall (fun w => String_includes w (quoted fileName) = true) (map (msgFile fileName) ws).
Proof.
  apply Forall_forall. intros w Hw. apply in_map_iff in Hw. destruct Hw as [x [<- _]].
  exact (String_includes_app [] (quoted fileName) (": " ++ x)).
Qed.

Section AggregatorWarnings.

Context {collator : Collator}.
Variable DOMParser : option (jsstring -> outcome (list Anchor)).
Variable JSON_parse : jsstring -> outcome JsonValue.

Lemma fileWarnings_name (expected : Expected) (file : File) :
  Forall (fun w => String_includes w (quoted (name file)) = true)
         (fileWarnings DOMParser JSON_parse expected file).
Proof.
  assert (Hnot : String_includes (msgNotJson (name file)) (quoted (name file)) = true).
  { exact (String_includes_app [] (quoted (name file)) _). }
  assert (Hhint1 : String_includes (msgHintFollowing (name file)) (quoted (name file)) = true).
  { exact (String_includes_app [] (quoted (name file)) _). }
  assert (Hhint2 : String_includes (msgHintFollowers (name file)) (quoted (name file)) = true).
  { exact (String_includes_app [] (quoted (name file)) _). }
  assert (Hnothing : String_includes (msgNothingIn (name file)) (quoted (name file)) = true).
  { exact (String_includes_app "En " (quoted (name file)) _). }
  assert (Hkind : forall k, String_includes (msgKindMismatch (name file) k expected)
                                            (quoted (name file)) = true).
  { intros k. exact (String_includes_app "El archivo " (quoted (name file)) _). }
  pose proof (Forall_map_msgFile (name file)) as Hmap.
  unfold fileWarnings, contribution, processFile, tryBlock.
  destruct (text file) as [t|]; [|repeat constructor; exact Hnot]. cbn [bind].
  destruct (RegExp_test looksLikeHtmlRe t
            || (String_endsWith (String_toLowerCase (name file)) ".html"
                || String_endsWith (String_toLowerCase (name file)) ".htm")).
  - unfold htmlBranch.
    destruct (length (usernames (parseInstagramRelationshipHtml DOMParser t)) =? 0);
      [apply Hmap|].
    destruct expected;
      [destruct (String_includes (String_toLowerCase (name file)) "following")
      |destruct (String_includes (String_toLowerCase (name file)) "followers")];
      cbn [pushWarnings addAll combinedWarnings emptyAcc app];
      first [apply Hmap | constructor; [assumption | apply Hmap]].
  - unfold jsonBranch. destruct (JSON_parse t) as [json|];
      [|repeat constructor; exact Hnot]. cbn [bind].
    destruct (parseInstagramRelationshipJson json) as [result|];
      [|repeat constructor; exact Hnot]. cbn [bind].
    destruct (length (usernames result) =? 0); [repeat constructor; exact Hnothing|].
    destruct (negb (kind_eqb (kind result) kUnknown)
              && negb (kind_eqb (kind result) (kindOfExpected expected)));
      cbn [pushWarnings addAll combinedWarnings emptyAcc app];
      first [apply Hmap | constructor; [apply Hkind | apply Hmap]].
Qed.

Lemma tryBlock_Throw (expected : Expected) (acc : Acc) (file : File) :
  tryBlock DOMParser JSON_parse expected acc file = Throw
  <-> text file = Throw \/ decodeFails JSON_parse file.
Proof.
  unfold tryBlock, decodeFails. destruct (text file) as [t|]; cbn [bind]; [|tauto].
  fold (isMarkup file t). destruct (isMarkup file t) eqn:Em.
  - split; [discriminate|].
    intros [H|[t' [Ht [Hm _]]]]; [discriminate|].
    injection Ht as <-. congruence.
  - unfold jsonBranch. destruct (JSON_parse t) as [json|] eqn:Ej; cbn [bind].
    + destruct (parseJson_result json) as [result [raw [-> _]]]. cbn [bind].
      split.
      * destruct (length (usernames result) =? 0); discriminate.
      * intros [H|[t' [Ht [_ Hj]]]]; [discriminate|].
        injection Ht as <-. congruence.
    + split; [|reflexivity]. intros _. right. exists t. auto.
Qed.

End AggregatorWarnings.

(** Every warning of a file carries the file's name between double quotes,
    and so does every warning the aggregator shows for a batch. *)
Theorem handleFiles_warnings_name_files {collator : Collator}
    (DOMParser : option (jsstring -> outcome (list Anchor)))
    (JSON_parse : jsstring -> outcome JsonValue)
    (files : list File) (expected : Expected) (st : AppState) :
  Forall (fun file =>
            Forall (fun w => String_includes w (quoted (name file)) = true)
                   (fileWarnings DOMParser JSON_parse expected file)) files
  /\ Forall (fun w => exists file,
                 In file files /\ String_includes w (quoted (name file)) = true)
            (st_warnings
               (handleFiles DOMParser JSON_parse (Some files) setFollowers expected st)).
Proof.
  split; [apply Forall_forall; intros f _; apply fileWarnings_name|].
  assert (H : Forall (fun w => exists file,
                        In file files /\ String_includes w (quoted (name file)) = true)
                     (flat_map (fileWarnings DOMParser JSON_parse expected) files)).
  { apply Forall_forall. intros w Hw. apply in_flat_map in Hw.
    destruct Hw as [f [Hf Hw]]. exists f. split; [exact Hf|].
    pose proof (fileWarnings_name DOMParser JSON_parse expected f) as Hall.
    rewrite Forall_forall in Hall. apply Hall, Hw. }
  rewrite handleFiles_closed_form. destruct files as [|f files]; [constructor|].
  destruct (mergedUsernames DOMParser JSON_parse expected (f :: files)); exact H.
Qed.

(** The [catch] of the loop fires for a file exactly when its read is
    rejected, or it is not classified as markup and [JSON.parse] throws on
    its text: neither parser makes it fire.  A rejected read is therefore
    reported with the message about JSON, also for a markup file. *)
Theorem handleFiles_catch_iff {collator : Collator}
    (DOMParser : option (jsstring -> outcome (list Anchor)))
    (JSON_parse : jsstring -> outcome JsonValue)
    (expected : Expected) (acc : Acc) (file : File) :
  (tryBlock DOMParser JSON_parse expected acc file = Throw
   <-> text file = Throw \/ decodeFails JSON_parse file)
  /\ match text file with
     | Throw =>
         processFile DOMParser JSON_parse expected acc file
         = pushWarnings acc [msgNotJson (name file)]
     | Return _ => True
     end.
Proof.
  split; [apply tryBlock_Throw|].
  unfold processFile, tryBlock. destruct (text file); [exact I | reflexivity].
Qed.

(* ================================================================== *)
(** * More about the aggregator: a file in the other slot *)
(* ================================================================== *)




(* ================================================================== *)
(** * From two loads to the list on the screen *)
(* ================================================================== *)

Lemma notFollowingBack_filter (followers following : list jsstring) :
  notFollowingBack (Some followers) (Some following)
  = Some (filter (absentFrom followers) following).
Proof.
  unfold notFollowingBack. f_equal. apply filter_ext. intros u. apply Set_new_has.
Qed.

Lemma absentFrom_true (l : list jsstring) (u : jsstring) :
  absentFrom l u = true <-> ~ In u l.
Proof.
  unfold absentFrom. destruct (in_dec (list_eq_dec ascii_dec) u l); split;
    intros H; try reflexivity; try discriminate; tauto.
Qed.

Section EndToEnd.

Context {collator : Collator}.
Variable DOMParser : option (jsstring -> outcome (list Anchor)).
Variable JSON_parse : jsstring -> outcome JsonValue.

Lemma loaded_lists (fs gs : list File) (st : AppState) :
  st_followers (loaded DOMParser JSON_parse fs gs st)
  = match mergedUsernames DOMParser JSON_parse expectFollowers fs with
    | [] => None
    | l => Some l
    end
  /\ st_following (loaded DOMParser JSON_parse fs gs st)
     = match mergedUsernames DOMParser JSON_parse expectFollowing gs with
       | [] => None
       | l => Some l
       end.
Proof.
  unfold loaded. rewrite !handleFiles_closed_form.
  destruct gs as [|g gs], fs as [|f fs];
    try destruct (mergedUsernames DOMParser JSON_parse expectFollowing (g :: gs));
    try destruct (mergedUsernames DOMParser JSON_parse expectFollowers (f :: fs));
    split; reflexivity.
Qed.

Lemma loaded_diff (fs gs : list File) (st : AppState) :
  notFollowingBackIn (loaded DOMParser JSON_parse fs gs st)
  = match mergedUsernames DOMParser JSON_parse expectFollowers fs,
          mergedUsernames DOMParser JSON_parse expectFollowing gs with
    | _ :: _, _ :: _ =>
        Some (filter (absentFrom (mergedUsernames DOMParser JSON_parse expectFollowers fs))
                     (mergedUsernames DOMParser JSON_parse expectFollowing gs))
    | _, _ => None
    end.
Proof.
  unfold notFollowingBackIn. destruct (loaded_lists fs gs st) as [-> ->].
  destruct (mergedUsernames DOMParser JSON_parse expectFollowers fs) as [|a la];
    destruct (mergedUsernames DOMParser JSON_parse expectFollowing gs) as [|b lb];
    try reflexivity.
  apply notFollowingBack_filter.
Qed.

End EndToEnd.

(** End to end, with the followers files [fs] loaded and then the following
    files [gs].  There is no list on the screen exactly when one of the two
    loads stored nothing, that is when no parser returned anything for the
    followers files or none did for the following files.  Otherwise the
    list holds exactly the identifiers that the parser of a following file
    returned and the parser of no followers file returned; it has no
    duplicate and is sorted.  After [resetAll] there is no list. *)
Theorem notFollowingBack_end_to_end {collator : Collator}
    (DOMParser : option (jsstring -> outcome (list Anchor)))
    (JSON_parse : jsstring -> outcome JsonValue)
    (fs gs : list File) (st : AppState) :
  let st1 :=
    handleFiles DOMParser JSON_parse (Some fs) setFollowers expectFollowers st in
  let st' :=
    handleFiles DOMParser JSON_parse (Some gs) setFollowing expectFollowing st1 in
  (notFollowingBackIn st' = None
   <-> st_followers st1 = None \/ st_following st' = None)
  /\ (notFollowingBackIn st' = None
      <-> Forall (fun f => parsedUsernames DOMParser JSON_parse f = []) fs
          \/ Forall (fun g => parsedUsernames DOMParser JSON_parse g = []) gs)
  /\ match notFollowingBackIn st' with
     | Some diff =>
         NoDup diff
         /\ StronglySorted (fun a b => localeCompare a b <> Gt) diff
         /\ forall u,
              In u diff
              <-> (exists g, In g gs /\ In u (parsedUsernames DOMParser JSON_parse g))
                  /\ ~ (exists f, In f fs /\ In u (parsedUsernames DOMParser JSON_parse f))
     | None => True
     end
  /\ notFollowingBackIn (resetAll st') = None.
Proof.
  cbv zeta.
  assert (Hnone :
    notFollowingBackIn
      (handleFiles DOMParser JSON_parse (Some gs) setFollowing expectFollowing
         (handleFiles DOMParser JSON_parse (Some fs) setFollowers expectFollowers st))
    = None
    <-> mergedUsernames DOMParser JSON_parse expectFollowers fs = []
        \/ mergedUsernames DOMParser JSON_parse expectFollowing gs = []).
  { change (handleFiles DOMParser JSON_parse (Some gs) setFollowing expectFollowing
              (handleFiles DOMParser JSON_parse (Some fs) setFollowers expectFollowers st))
      with (loaded DOMParser JSON_parse fs gs st).
    rewrite (loaded_diff DOMParser JSON_parse fs gs st).
    destruct (mergedUsernames DOMParser JSON_parse expectFollowers fs) as [|a la];
      [tauto|].
    destruct (mergedUsernames DOMParser JSON_parse expectFollowing gs) as [|b lb];
      [tauto|].
    split; [discriminate | intros [H|H]; discriminate]. }
  split; [|split; [|split; [|reflexivity]]].
  - rewrite Hnone.
    rewrite (proj1 (handleFiles_stored_None DOMParser JSON_parse expectFollowers fs st)).
    rewrite (proj2 (handleFiles_stored_None DOMParser JSON_parse expectFollowing gs
                      (handleFiles DOMParser JSON_parse (Some fs) setFollowers
                         expectFollowers st))).
    reflexivity.
  - rewrite Hnone, !mergedUsernames_nil_iff. reflexivity.
  - change (handleFiles DOMParser JSON_parse (Some gs) setFollowing expectFollowing
              (handleFiles DOMParser JSON_parse (Some fs) setFollowers expectFollowers st))
      with (loaded DOMParser JSON_parse fs gs st).
    rewrite (loaded_diff DOMParser JSON_parse fs gs st).
    pose proof (mergedUsernames_wellformed DOMParser JSON_parse expectFollowing gs)
      as [Hnd [Hs _]].
    pose proof (fun u => mergedUsernames_In DOMParser JSON_parse expectFollowers fs u) as Hf.
    pose proof (fun u => mergedUsernames_In DOMParser JSON_parse expectFollowing gs u) as Hg.
    destruct (mergedUsernames DOMParser JSON_parse expectFollowers fs) as [|a la];
      [exact I|].
    destruct (mergedUsernames DOMParser JSON_parse expectFollowing gs) as [|b lb];
      [exact I|].
    split; [apply NoDup_filter, Hnd|].
    split; [apply StronglySorted_filter, Hs|].
    intros u. rewrite filter_In, absentFrom_true, Hf, Hg. tauto.
Qed.

(** The two loads can be made in either order. *)
Theorem handleFiles_loads_commute {collator : Collator}
    (DOMParser : option (jsstring -> outcome (list Anchor)))
    (JSON_parse : jsstring -> outcome JsonValue)
    (fs gs : option (list File)) (st : AppState) :
  let followersFirst :=
    handleFiles DOMParser JSON_parse gs setFollowing expectFollowing
      (handleFiles DOMParser JSON_parse fs setFollowers expectFollowers st) in
  let followingFirst :=
    handleFiles DOMParser JSON_parse fs setFollowers expectFollowers
      (handleFiles DOMParser JSON_parse gs setFollowing expectFollowing st) in
  st_followers followersFirst = st_followers followingFirst
  /\ st_following followersFirst = st_following followingFirst
  /\ notFollowingBackIn followersFirst = notFollowingBackIn followingFirst.
Proof.
  cbv zeta.
  assert (H : forall a b, a = b -> forall c d, c = d ->
              a = b /\ c = d /\ notFollowingBack a c = notFollowingBack b d).
  { intros a b -> c d ->. auto. }
  apply H.
  - destruct fs as [fs|], gs as [gs|]; try reflexivity;
      rewrite ?handleFiles_closed_form;
      try destruct fs as [|f fs]; try destruct gs as [|g gs]; try reflexivity;
      try destruct (mergedUsernames DOMParser JSON_parse expectFollowers (f :: fs));
      try destruct (mergedUsernames DOMParser JSON_parse expectFollowing (g :: gs));
      reflexivity.
  - destruct fs as [fs|], gs as [gs|]; try reflexivity;
      rewrite ?handleFiles_closed_form;
      try destruct fs as [|f fs]; try destruct gs as [|g gs]; try reflexivity;
      try destruct (mergedUsernames DOMParser JSON_parse expectFollowers (f :: fs));
      try destruct (mergedUsernames DOMParser JSON_parse expectFollowing (g :: gs));
      reflexivity.
Qed.

(* ================================================================== *)
(** * Copying the list, and the legal pages *)
(* ================================================================== *)

Lemma filter_nil_iff {A : Type} (f : A -> bool) (l : list A) :
  filter f l = [] <-> forall x, In x l -> f x = false.
Proof.
  induction l as [|a l IH]; cbn [filter]; [split; [intros _ x []|reflexivity]|].
  destruct (f a) eqn:E; split.
  - discriminate.
  - intros H. specialize (H a (or_introl eq_refl)). congruence.
  - intros H x [<-|Hx]; [exact E | apply IH; assumption].
  - intros H. apply IH. intros x Hx. apply H. right. exact Hx.
Qed.

(** [copyList] writes nothing exactly when there is no list on the screen
    or the list is empty, that is when a list is missing or every one of
    [following] is among [followers]; otherwise it writes a text that starts
    with [@]. *)
Theorem copyList_nothing_iff (followers following : option (list jsstring)) :
  (copyList (notFollowingBack followers following) = None
   <-> followers = None \/ following = None
       \/ exists a b, followers = Some a /\ following = Some b /\ incl b a)
  /\ match copyList (notFollowingBack followers following) with
     | Some text => String_startsWith text "@" = true
     | None => True
     end.
Proof.
  destruct followers as [a|], following as [b|];
    try (split; [split; [auto | reflexivity] | exact I]).
  rewrite notFollowingBack_filter. unfold copyList.
  destruct (filter (absentFrom a) b) as [|u d] eqn:E.
  - split; [|exact I]. split; [|reflexivity]. intros _. right. right.
    exists a, b. repeat split. intros x Hx.
    pose proof (proj1 (filter_nil_iff _ _) E x Hx) as Hx'.
    destruct (in_dec (list_eq_dec ascii_dec) x a) as [Hin|Hout]; [exact Hin|].
    apply absentFrom_true in Hout. congruence.
  - split.
    + split; [discriminate|].
      intros [H|[H|[a' [b' [Ha [Hb Hincl]]]]]]; try discriminate.
      injection Ha as <-. injection Hb as <-.
      assert (Hu : In u (filter (absentFrom a) b)) by (rewrite E; left; reflexivity).
      apply filter_In in Hu. destruct Hu as [Hub Hua].
      apply absentFrom_true in Hua. exfalso. apply Hua, Hincl, Hub.
    + cbn [length Nat.eqb map Array_join].
      destruct (map (fun u0 => "@" ++ u0) d); cbn [app String_startsWith];
        rewrite String_startsWith_nil; reflexivity.
Qed.

(** The route is read off the start of the hash alone: what follows the
    prefix does not matter, the two prefixes exclude each other, and a hash
    that does not start with [#/] is no legal page. *)
Theorem getLegalRouteFromHash_prefix (hash : jsstring) :
  (forall route tail,
     getLegalRouteFromHash hash = Some route ->
     getLegalRouteFromHash (hash ++ tail) = Some route)
  /\ (getLegalRouteFromHash hash = Some privacy
      <-> String_startsWith hash "#/privacy" = true)
  /\ (getLegalRouteFromHash hash = Some terms
      <-> String_startsWith hash "#/terms" = true)
  /\ (String_startsWith hash "#/" = false -> getLegalRouteFromHash hash = None).
Proof.
  assert (Happ : forall p tail, String_startsWith hash p = true ->
                                String_startsWith (hash ++ tail) p = true).
  { intros p tail H. apply String_startsWith_app in H. rewrite H, <- app_assoc.
    apply String_startsWith_self_app. }
  assert (Hex : String_startsWith hash "#/privacy" = true ->
                String_startsWith hash "#/terms" = false).
  { intros H. apply String_startsWith_app in H. rewrite H. cbn [app]. reflexivity. }
  unfold getLegalRouteFromHash. split; [|split; [|split]].
  - intros route tail.
    destruct (String_startsWith hash "#/privacy") eqn:E1.
    + intros H. rewrite (Happ _ tail E1). exact H.
    + destruct (String_startsWith hash "#/terms") eqn:E2; [|discriminate].
      intros H. rewrite (Happ _ tail E2).
      destruct (String_startsWith (hash ++ tail) "#/privacy") eqn:E3; [|exact H].
      exfalso. apply String_startsWith_app in E2. rewrite E2, <- app_assoc in E3.
      cbn [app] in E3. discriminate.
  - destruct (String_startsWith hash "#/privacy"); [tauto|].
    destruct (String_startsWith hash "#/terms"); split; discriminate.
  - destruct (String_startsWith hash "#/privacy") eqn:E1.
    + rewrite (Hex eq_refl). split; discriminate.
    + destruct (String_startsWith hash "#/terms"); split; try discriminate; reflexivity.
  - intros H.
    destruct (String_startsWith hash "#/privacy") eqn:E1.
    { apply (@String_startsWith_prefix hash "#/" "privacy") in E1. congruence. }
    destruct (String_startsWith hash "#/terms") eqn:E2; [|reflexivity].
    apply (@String_startsWith_prefix hash "#/" "terms") in E2. congruence.
Qed.

Lemma getLegalRouteFromHash_prefix_witness :
  getLegalRouteFromHash ("#/terms" ++ "?lang=es") = Some terms.
Proof.
  apply (proj1 (getLegalRouteFromHash_prefix "#/terms")). reflexivity.
Defined.

(* ================================================================== *)
(** * The entry extractor (claim C4) *)
(* ================================================================== *)

(** C4, as the spec states it, fails: an entry with a title and no
    [string_list_data] array gives none. *)
Lemma extract_title_without_records :
  spec_extract (JObject [("title", JString "Bob")]) = Some "Bob"
  /\ extractUsernameFromRelationshipEntry (JObject [("title", JString "Bob")]) = Return None.
Proof. split; reflexivity. Qed.

Lemma segmentAfter_scheme (pre lit h : jsstring) :
  In pre profilePrefixes ->
  segmentAfter ("i"%char :: lit) (pre ++ h) = segmentAfter ("i"%char :: lit) h.
Proof.
  intros [<-|[<-|[<-|[<-|[]]]]]; cbn [app]; repeat skip_unit; reflexivity.
Qed.

Lemma extractUsernameFromHref_scheme (pre h : jsstring) :
  In pre profilePrefixes ->
  extractUsernameFromHref (pre ++ h) = extractUsernameFromHref ("https://www." ++ h).
Proof.
  intros H. rewrite !extractUsernameFromHref_segments.
  change "instagram.com/_u/" with ("i"%char :: "nstagram.com/_u/").
  change "instagram.com/" with ("i"%char :: "nstagram.com/").
  rewrite !(segmentAfter_scheme _ h H).
  rewrite !(@segmentAfter_scheme "https://www." _ h (or_introl eq_refl)).
  reflexivity.
Qed.

Lemma profile_url_u (u tail : jsstring) :
  u <> [] -> forallb isUsernameChar u = true -> tail = [] \/ tail = "/" ->
  extractUsernameFromHref ("https://www.instagram.com/_u/" ++ u ++ tail)
  = Some (firstn 30 u).
Proof.
  intros Hne Hu Ht. destruct (run_profile Hne Hu Ht) as [Hrun Hnz].
  rewrite extractUsernameFromHref_segments.
  cbn [app]. do 12 skip_unit.
  rewrite segmentAfter_hit.
  - cbn [length skipn]. rewrite Hrun. reflexivity.
  - exact (@String_startsWith_self_app "instagram.com/_u/" (u ++ tail)).
  - cbn [length skipn]. rewrite Hrun. exact Hnz.
Qed.

Lemma isIdentifier_parts (u : jsstring) :
  isIdentifier u = true ->
  u <> [] /\ forallb isUsernameChar u = true /\ firstn 30 u = u.
Proof.
  unfold isIdentifier. intros H.
  apply andb_true_iff in H. destruct H as [H H3].
  apply andb_true_iff in H. destruct H as [H1 H2].
  apply Nat.leb_le in H2, H3.
  split; [destruct u; [simpl in H2; lia | discriminate]|].
  split; [exact H1 | apply firstn_all2, H3].
Qed.

(** C4 (amended): the extractor never throws.  It returns none for every
    entry that is not an object whose [string_list_data] is an array, its
    title not being looked at; otherwise the first non-empty [value] string
    among the records, else the non-empty [title], else what
    [extractUsernameFromHref] gives on the first non-empty [href] string on
    which it gives something, and none when no rule succeeds.  What
    [extractUsernameFromHref] gives satisfies the Identifier grammar; on a
    profile URL whose path segment satisfies the grammar, with or without
    the final [/], it gives the segment after [/_u/] when the path starts
    with it, and the first segment after the host otherwise. *)
Theorem extract_ordered_fallback :
  (forall entry : JsonValue,
     extractUsernameFromRelationshipEntry entry = Return (extracted entry))
  /\ (forall entry : JsonValue,
        match entry with
        | JObject fields =>
            match lookup "string_list_data" fields with
            | Some (JArray sld) =>
                extracted entry =
                match firstSome (itemString "value") sld with
                | Some value => Some value
                | None =>
                    match itemString "title" entry with
                    | Some title => Some title
                    | None => firstSome itemHref sld
                    end
                end
            | _ => extracted entry = None
            end
        | _ => extracted entry = None
        end)
  /\ (forall href : jsstring,
        match extractUsernameFromHref href with
        | Some u => isIdentifier u = true
        | None => True
        end)
  /\ (forall pre u tail : jsstring,
        In pre profilePrefixes ->
        isIdentifier u = true ->
        tail = [] \/ tail = "/" ->
        extractUsernameFromHref (pre ++ "instagram.com/" ++ u ++ tail) = Some u
        /\ extractUsernameFromHref (pre ++ "instagram.com/_u/" ++ u ++ tail) = Some u).
Proof.
  split; [exact extract_returns|]. split; [|split].
  - intros entry. destruct entry; try reflexivity.
    cbn [extracted itemString].
    destruct (lookup "string_list_data" fields) as [[]|]; reflexivity.
  - intros href. rewrite extractUsernameFromHref_segments.
    pose proof (segmentAfter_spec "instagram.com/_u/" href) as H1.
    pose proof (segmentAfter_spec "instagram.com/" href) as H2.
    destruct (segmentAfter "instagram.com/_u/" href); [tauto|].
    destruct (segmentAfter "instagram.com/" href); [tauto | exact I].
  - intros pre u tail Hpre Hu Ht.
    destruct (isIdentifier_parts u Hu) as [Hne [Hall Hfirst]].
    rewrite !(extractUsernameFromHref_scheme _ Hpre).
    change ("https://www." ++ "instagram.com/" ++ u ++ tail)
      with ("https://www.instagram.com/" ++ u ++ tail).
    change ("https://www." ++ "instagram.com/_u/" ++ u ++ tail)
      with ("https://www.instagram.com/_u/" ++ u ++ tail).
    rewrite (profile_url_plain Hne Hall Ht), (profile_url_u Hne Hall Ht), Hfirst.
    split; reflexivity.
Qed.

Lemma extract_ordered_fallback_witness :
  extractUsernameFromHref ("https://" ++ "instagram.com/" ++ "thenest_games" ++ "") = Some "thenest_games"
  /\ extractUsernameFromHref ("https://" ++ "instagram.com/_u/" ++ "thenest_games" ++ "")
     = Some "thenest_games".
Proof.
  apply (proj2 (proj2 (proj2 extract_ordered_fallback)) "https://" "thenest_games" "").
  - right. left. reflexivity.
  - reflexivity.
  - left. reflexivity.
Defined.
